(** * The online parser: rule-stack state machine of the incremental
      GraphQL tokenizer

    A shallow embedding of [getToken], [pushRule], [popRule], [advanceRule],
    [isList], [unsuccessful] and [lex], followed by the properties of the
    rule stack, of step advancement, of failure recovery and of the token
    step driver. *)

From stdpp Require Import base option list strings gmap.
From Stdlib Require Import Ascii Lia.

Local Open Scope string_scope.
Set Warnings "-register-all".

(** ** Tokens and the character stream *)

(** [Token]: the transient [{kind, value}] pair built by [lex]. *)
Record Token : Type := mkToken { tkind : string; tvalue : string }.

(** Modelled from the spec: the host-provided stream capability
    (CharacterStream is imported from '../types', which is not part of the
    sources). A stream is a text and a cursor. *)
Record CharacterStream : Type := mkStream { sourceText : string; pos : nat }.

(** The text from the cursor to the end of the stream. *)
Definition rest (st : CharacterStream) : string :=
  String.substring (pos st) (String.length (sourceText st) - pos st) (sourceText st).

(** Modelled from the spec: a regular expression, seen through what
    [stream.match] needs of it: applied to the text after the cursor it gives
    the matched text [match[0]], or nothing. *)
Definition Pattern : Type := string -> option string.

(** Modelled from the spec: [stream.match(pattern)], pattern-based
    consumption. The match counts only when it starts at the cursor; the
    cursor then moves by the length of the matched text, and the matched text
    is returned. [None] stands for the [false] of a failed match. *)
Definition stream_match (p : Pattern) (st : CharacterStream)
  : option string * CharacterStream :=
  match p (rest st) with
  | Some m =>
      if String.prefix m (rest st)
      then (Some m, mkStream (sourceText st) (pos st + String.length m))
      else (None, st)
  | None => (None, st)
  end.

(** Modelled from the spec: [stream.sol()], start-of-line detection. *)
Definition sol (st : CharacterStream) : bool := bool_decide (pos st = 0).

(** The characters of the class [\s] that fit in a byte. *)
Definition is_space (c : ascii) : bool :=
  let n := nat_of_ascii c in
  bool_decide (n = 32) || (bool_decide (9 <= n) && bool_decide (n <= 13))
  || bool_decide (n = 160).

Fixpoint leading_spaces (s : string) : nat :=
  match s with
  | String c s' => if is_space c then S (leading_spaces s') else 0
  | EmptyString => 0
  end.

(** Modelled from the spec: [stream.indentation()], the width of the leading
    whitespace of the line. *)
Definition indentation (st : CharacterStream) : nat :=
  leading_spaces (sourceText st).

Fixpoint non_space_prefix (s : string) : string :=
  match s with
  | String c s' => if is_space c then EmptyString else String c (non_space_prefix s')
  | EmptyString => EmptyString
  end.

(** The pattern [/\S+/]: a non-empty run of characters that are not
    whitespace. *)
Definition non_space_run : Pattern := fun s =>
  match non_space_prefix s with
  | EmptyString => None
  | m => Some m
  end.

(** ** Grammar rules *)

(** A handle on an [update] hook of a Terminal. The hook is a function of
    the rule tables; what it does to a state is given by [run_update]
    below. *)
Definition UpdateRef : Type := nat.

(** An element of a rule: a string naming another rule, or an object
    inspected by shape ([ofRule], [isList], [separator], [match], [update],
    [style]). Optional is an object with [ofRule]; List has [ofRule],
    [isList] and possibly [separator]; a Terminal has [match] and [style]. *)
Inductive Rule : Type :=
| RName (n : string)
| RObj (ofRule : option Rule) (isListFlag : bool) (separator : option Rule)
       (matcher : option (Token -> bool)) (update : option UpdateRef)
       (style : string).

(** The value of a parse-table entry: an array of rule elements, or a forking
    function of the token and the stream. [arity] is the [length] property of
    the function. *)
Inductive ParseRule : Type :=
| Seq (elems : list Rule)
| Fork (arity : nat) (select : Token -> CharacterStream -> option Rule).

(** [state.rule.length] *)
Definition rule_length (r : ParseRule) : nat :=
  match r with
  | Seq elems => length elems
  | Fork arity _ => arity
  end.

(** JavaScript truthiness of a rule element: the empty string is falsy,
    every other string and every object is truthy. *)
Definition truthy (r : Rule) : bool :=
  match r with
  | RName n => negb (String.eqb n EmptyString)
  | RObj _ _ _ _ _ _ => true
  end.

Definition truthy_opt (o : option Rule) : bool :=
  match o with
  | Some r => truthy r
  | None => false
  end.

(** Property reads on a rule element; a string has none of the properties. *)
Definition get_ofRule (r : Rule) : option Rule :=
  match r with
  | RObj o _ _ _ _ _ => o
  | RName _ => None
  end.

Definition get_separator (r : Rule) : option Rule :=
  match r with
  | RObj _ _ s _ _ _ => s
  | RName _ => None
  end.

Definition get_isList (r : Rule) : bool :=
  match r with
  | RObj _ l _ _ _ _ => l
  | RName _ => false
  end.

(** ** Parser state *)

(** Modelled from the spec: the [State] class of '../types' (not part of the
    sources): rule identity, annotations, active rule and step, the
    separator-pending and deferred-advance flags, indentation level, bracket
    depth stack and the link to the parent frame. *)
Inductive State : Type := mkState {
  kind : option string;
  name : option string;
  type : option string;
  rule : option ParseRule;
  step : nat;
  needsSeperator : bool;
  prevState : option State;
  needsAdvance : bool;
  indentLevel : nat;
  levels : option (list nat)
}.

(** [new State()] *)
Definition newState : State :=
  mkState None None None None 0 false None false 0 None.

(** Modelled from the spec: [state.clone()], a full value copy of the
    frame. *)
Definition clone (s : State) : State := s.

(** Number of saved frames below the current one. *)
Fixpoint depth (s : State) : nat :=
  match prevState s with
  | Some p => S (depth p)
  | None => 0
  end.

(** ** Outcomes of the imperative code *)

Inductive Exn : Type :=
| UnknownRule (ruleKind : string)   (* TypeError('Unknown rule: ' + ruleKind) *)
| UndefinedProperty.                (* property read on undefined *)

(** [Spin]: a [while] loop whose condition can never change again.
    [OutOfFuel]: the bound on the iterations of the grammar loop of
    [getToken] was reached. *)
Inductive outcome (A : Type) : Type :=
| Ok (a : A)
| Throw (e : Exn)
| Spin
| OutOfFuel.
Arguments Ok {A} a.
Arguments Throw {A} e.
Arguments Spin {A}.
Arguments OutOfFuel {A}.

#[export] Instance outcome_ret : MRet outcome := fun A a => Ok a.

#[export] Instance outcome_bind : MBind outcome := fun A B k m =>
  match m with
  | Ok a => k a
  | Throw e => Throw e
  | Spin => Spin
  | OutOfFuel => OutOfFuel
  end.

(** ** The rule stack *)

Definition ParseRules : Type := gmap string ParseRule.

(** [SpecialParseRules]: the rule set of the sentinel frames. *)
Definition SpecialParseRules : gmap string ParseRule :=
  <["Invalid" := Seq []]> (<["Comment" := Seq []]> ∅).

(** [pushRule(rules, state, ruleKind)] *)
Definition pushRule (rules : gmap string ParseRule) (s : State) (ruleKind : string)
  : outcome State :=
  match rules !! ruleKind with
  | None => Throw (UnknownRule ruleKind)
  | Some r =>
      Ok (mkState (Some ruleKind) None None (Some r) 0 false (Some (clone s))
                  (needsAdvance s) (indentLevel s) (levels s))
  end.

(** [popRule(state)] *)
Definition popRule (s : State) : State :=
  match prevState s with
  | None => s
  | Some p =>
      mkState (kind p) (name p) (type p) (rule p) (step p) (needsSeperator p)
              (prevState p) (needsAdvance s) (indentLevel s) (levels s)
  end.

(** Field updates of the mutable state object. *)
Definition set_step (n : nat) (s : State) : State :=
  mkState (kind s) (name s) (type s) (rule s) n (needsSeperator s)
          (prevState s) (needsAdvance s) (indentLevel s) (levels s).

Definition set_needsSeperator (b : bool) (s : State) : State :=
  mkState (kind s) (name s) (type s) (rule s) (step s) b
          (prevState s) (needsAdvance s) (indentLevel s) (levels s).

Definition set_needsAdvance (b : bool) (s : State) : State :=
  mkState (kind s) (name s) (type s) (rule s) (step s) (needsSeperator s)
          (prevState s) b (indentLevel s) (levels s).

Definition set_indentLevel (n : nat) (s : State) : State :=
  mkState (kind s) (name s) (type s) (rule s) (step s) (needsSeperator s)
          (prevState s) (needsAdvance s) n (levels s).

Definition set_levels (l : option (list nat)) (s : State) : State :=
  mkState (kind s) (name s) (type s) (rule s) (step s) (needsSeperator s)
          (prevState s) (needsAdvance s) (indentLevel s) l.

(** ** Step advancement *)

(** [isList(state)]. Reading [isList] off a missing array element raises. *)
Definition isList (s : State) : outcome bool :=
  match rule s with
  | Some (Seq elems) =>
      match elems !! step s with
      | Some (RName _) => Ok false
      | Some (RObj _ l _ _ _ _) => Ok l
      | None => Throw UndefinedProperty
      end
  | _ => Ok false
  end.

(** [state.rule[state.step].separator], read where [isList(state)] holds. *)
Definition step_separator (s : State) : option Rule :=
  match rule s with
  | Some (Seq elems) => elems !! step s ≫= get_separator
  | _ => None
  end.

(** The condition of the second loop of [advanceRule]:
    [state.rule && !(Array.isArray(state.rule) && state.step < state.rule.length)]. *)
Definition completed (s : State) : bool :=
  match rule s with
  | Some (Seq elems) => negb (bool_decide (step s < length elems))
  | Some (Fork _ _) => true
  | None => false
  end.

(** What the body of that loop does to the frame exposed by [popRule]. *)
Definition resume_parent (s1 : State) : outcome State :=
  match rule s1 with
  | Some _ =>
      il ← isList s1;
      if il : bool then
        if truthy_opt (step_separator s1)
        then Ok (set_needsSeperator (negb (needsSeperator s1)) s1)
        else Ok s1
      else Ok (set_step (S (step s1)) (set_needsSeperator false s1))
  | None => Ok s1
  end.

(** The loop "while the current rule is completed" of [advanceRule]. Every
    turn pops a frame; [fuel] counts the turns, and it runs out only when
    [popRule] has nothing left to pop while the rule stays completed, where
    the loop never exits. *)
Fixpoint popCompleted (fuel : nat) (s : State) : outcome State :=
  if completed s then
    match fuel with
    | 0 => Spin
    | S fuel' => s1 ← resume_parent (popRule s); popCompleted fuel' s1
    end
  else Ok s.

(** The tail of [advanceRule]: clear the separator flag, increment the step,
    pop while completed. *)
Definition advanceStep (s : State) : outcome State :=
  popCompleted (S (depth s)) (set_step (S (step s)) (set_needsSeperator false s)).

(** [advanceRule(state, successful)] *)
Definition advanceRule (s : State) (successful : bool) : outcome State :=
  il ← isList s;
  if il : bool then
    let sep := step_separator s in
    if truthy_opt sep then
      let s1 := set_needsSeperator (negb (needsSeperator s)) s in
      if negb (needsSeperator s1) && truthy_opt (sep ≫= get_ofRule) then Ok s1
      else if successful then Ok s1 else advanceStep s1
    else if successful then Ok s else advanceStep s
  else advanceStep s.

(** ** Failure recovery *)

(** [Array.isArray(state.rule) && state.rule[state.step].ofRule], as a
    boolean. Reading [ofRule] off a missing array element raises. *)
Definition at_ofRule (s : State) : outcome bool :=
  match rule s with
  | Some (Seq elems) =>
      match elems !! step s with
      | Some e => Ok (truthy_opt (get_ofRule e))
      | None => Throw UndefinedProperty
      end
  | _ => Ok false
  end.

(** The first loop of [unsuccessful]. [fuel] counts the pops; it runs out
    only when [popRule] has nothing left to pop, where the loop never
    exits. *)
Fixpoint unwind (fuel : nat) (s : State) : outcome State :=
  match rule s with
  | None => Ok s
  | Some _ =>
      b ← at_ofRule s;
      if b : bool then Ok s
      else match fuel with
           | 0 => Spin
           | S fuel' => unwind fuel' (popRule s)
           end
  end.

(** [unsuccessful(state)] *)
Definition unsuccessful (s : State) : outcome State :=
  s1 ← unwind (S (depth s)) s;
  match rule s1 with
  | Some _ => advanceRule s1 false
  | None => Ok s1
  end.

(** ** Lexer *)

(** [lex(lexRules, stream)]; the table is the list of its entries in key
    order. *)
Fixpoint lex (lexRules : list (string * Pattern)) (st : CharacterStream)
  : option Token * CharacterStream :=
  match lexRules with
  | [] => (None, st)
  | (k, p) :: others =>
      match stream_match p st with
      | (Some m, st') => (Some (mkToken k m), st')
      | (None, st') => lex others st'
      end
  end.

(** ** Token step driver *)

Record EditorConfig : Type := mkEditorConfig { tabSize : option nat }.

(** [ParserOptions] *)
Record ParserOptions : Type := mkOptions {
  eatWhitespace : CharacterStream -> bool * CharacterStream;
  lexRules : list (string * Pattern);
  parseRules : gmap string ParseRule;
  editorConfig : option EditorConfig
}.

(** [(editorConfig && editorConfig.tabSize) || 2] *)
Definition tabSizeOf (options : ParserOptions) : nat :=
  match editorConfig options ≫= tabSize with
  | Some (S n) => S n
  | _ => 2
  end.

(** [/^[{([]/.test(value)] and [/^[})\]]/.test(value)] *)
Definition opens_bracket (value : string) : bool :=
  match value with
  | String c _ => bool_decide (c ∈ ["{"; "("; "["]%char)
  | EmptyString => false
  end.

Definition closes_bracket (value : string) : bool :=
  match value with
  | String c _ => bool_decide (c ∈ ["}"; ")"; "]"]%char)
  | EmptyString => false
  end.

(** "Handle changes in expected indentation level" *)
Definition handleLevels (token : Token) (s : State) : State :=
  if String.eqb (tkind token) "Punctuation" then
    if opens_bracket (tvalue token) then
      set_levels (Some (default [] (levels s) ++ [indentLevel s + 1])%list) s
    else if closes_bracket (tvalue token) then
      let lv := removelast (default [] (levels s)) in
      let s1 := set_levels (Some lv) s in
      if bool_decide (indentLevel s1 = 0) then s1
      else match last lv with
           | Some top => if bool_decide (top < indentLevel s1)
                         then set_indentLevel top s1 else s1
           | None => s1
           end
    else s
  else s.

(** The "expected" element at the head of a turn of the grammar loop, after
    the separator substitution. *)
Definition expectedOf (token : Token) (st : CharacterStream) (s : State)
  : option Rule :=
  let expected :=
    match rule s with
    | Some (Fork _ select) => if bool_decide (step s = 0) then select token st else None
    | Some (Seq elems) => elems !! step s
    | None => None
    end in
  if needsSeperator s
  then (if truthy_opt expected then expected ≫= get_separator else expected)
  else expected.

(** "Un-wrap optional/list parseRules." *)
Definition unwrap (expected : Rule) : Rule :=
  match get_ofRule expected with
  | Some inner => if truthy inner then inner else expected
  | None => expected
  end.

Section Driver.

(** The effect of calling the [update] hook [h] on a state and a token. *)
Variable run_update : UpdateRef -> State -> Token -> State.

Variable options : ParserOptions.

(** The Terminal branch of the grammar loop, once [expected.match(token)]
    has accepted: run the hook, advance now or later. *)
Definition acceptTerminal (token : Token) (update : option UpdateRef) (s : State)
  : outcome State :=
  let s1 := match update with
            | Some h => run_update h s token
            | None => s
            end in
  if String.eqb (tkind token) "Punctuation"
  then advanceRule s1 true
  else Ok (set_needsAdvance true s1).

(** The loop [while (state.rule)] of [getToken]. The result is [Some style]
    when a Terminal matched (the function returns from inside the loop) and
    [None] when the loop ran to its exit. *)
Fixpoint grammarLoop (fuel : nat) (token : Token) (st : CharacterStream)
    (s : State) : outcome (option string * State) :=
  match rule s with
  | None => Ok (None, s)
  | Some _ =>
      match fuel with
      | 0 => OutOfFuel
      | S fuel' =>
          match expectedOf token st s with
          | Some expected =>
              if truthy expected then
                match unwrap expected with
                | RName n =>
                    s1 ← pushRule (parseRules options) s n;
                    grammarLoop fuel' token st s1
                | RObj _ _ _ matcher update style =>
                    if from_option (fun m => m token) false matcher then
                      s1 ← acceptTerminal token update s;
                      Ok (Some style, s1)
                    else
                      s1 ← unsuccessful s;
                      grammarLoop fuel' token st s1
                end
              else
                s1 ← unsuccessful s;
                grammarLoop fuel' token st s1
          | None =>
              s1 ← unsuccessful s;
              grammarLoop fuel' token st s1
          end
      end
  end.

(** "Restore state after an empty-rule", else the deferred advance. *)
Definition resumeState (s : State) : outcome State :=
  if from_option (fun r => bool_decide (rule_length r = 0)) false (rule s)
  then Ok (popRule s)
  else if needsAdvance s then advanceRule (set_needsAdvance false s) true
  else Ok s.

(** "Remember initial indentation" *)
Definition rememberIndent (st : CharacterStream) (s : State) : State :=
  if sol st then set_indentLevel (indentation st / tabSizeOf options) s else s.

(** [getToken(stream, state, options)]: the style, the stream and the state
    after the call. [fuel] bounds the turns of the grammar loop. *)
Definition getToken (fuel : nat) (st : CharacterStream) (s : State)
  : outcome (string * CharacterStream * State) :=
  s1 ← resumeState s;
  let s2 := rememberIndent st s1 in
  let '(ate, st1) := eatWhitespace options st in
  if ate : bool then Ok ("ws", st1, s2)
  else
    match lex (lexRules options) st1 with
    | (None, st2) =>
        let st3 := (stream_match non_space_run st2).2 in
        s3 ← pushRule SpecialParseRules s2 "Invalid";
        Ok ("invalidchar", st3, s3)
    | (Some token, st2) =>
        if String.eqb (tkind token) "Comment" then
          s3 ← pushRule SpecialParseRules s2 "Comment";
          Ok ("comment", st2, s3)
        else
          let backupState := s2 in
          r ← grammarLoop fuel token st2 (handleLevels token s2);
          match r with
          | (Some style, s4) => Ok (style, st2, s4)
          | (None, _) =>
              s5 ← pushRule SpecialParseRules backupState "Invalid";
              Ok ("invalidchar", st2, s5)
          end
    end.

(** [startState()] *)
Definition startState : outcome State :=
  pushRule (parseRules options) newState "Document".

End Driver.

(** ** Frames in range *)

(** A frame whose rule is an array has an element at its step, and a frame
    with a rule has a saved frame below it (every frame with a rule was
    installed by [pushRule]). *)
Definition frame_ok (s : State) : Prop :=
  match rule s with
  | Some (Seq elems) => step s < length elems /\ is_Some (prevState s)
  | Some (Fork _ _) => is_Some (prevState s)
  | None => True
  end.

Fixpoint stack_ok (s : State) : Prop :=
  frame_ok s /\
  match prevState s with
  | Some p => stack_ok p
  | None => True
  end.

(** The state handed to the completion loop: the frames below are in range
    and the frame itself, if it has a rule, has a saved frame. *)
Definition parents_ok (s : State) : Prop :=
  (is_Some (rule s) -> is_Some (prevState s)) /\
  from_option stack_ok True (prevState s).

(** ** Cases of [advanceRule] *)

(** The separator of the List at the current step is declared, is pending
    before the call, and is itself optional. *)
Definition optional_separator_pending (s : State) : bool :=
  truthy_opt (step_separator s) && needsSeperator s
  && truthy_opt (step_separator s ≫= get_ofRule).

(** [isList(state)] returns true. *)
Definition at_list (s : State) : bool :=
  match isList s with
  | Ok true => true
  | _ => false
  end.

(** ** The turn of the grammar loop *)

(** [state.rule[state.step]], or the choice of the forking function at
    step 0: the expected element before the separator substitution. *)
Definition current (token : Token) (st : CharacterStream) (s : State)
  : option Rule :=
  match rule s with
  | Some (Fork _ select) => if bool_decide (step s = 0) then select token st else None
  | Some (Seq elems) => elems !! step s
  | None => None
  end.

(** The rule name the loop pushes when it expects the element [x]. *)
Definition pushes (x : Rule) : option string :=
  if truthy x then
    match unwrap x with
    | RName n => Some n
    | RObj _ _ _ _ _ _ => None
    end
  else None.

(** The names the loop can push at an element: from the element, and from
    its separator when the separator is pending. *)
Definition pushable (e : Rule) : list string :=
  (option_list (pushes e) ++
   if truthy e then from_option (fun sp => option_list (pushes sp)) [] (get_separator e)
   else [])%list.

(** What a turn of the loop does, read off the expected element. *)
Inductive action : Type :=
| APush (n : string)
| AMatch (update : option UpdateRef) (style : string)
| AFail.

Definition decide_action (token : Token) (st : CharacterStream) (s : State)
  : action :=
  match expectedOf token st s with
  | Some e =>
      if truthy e then
        match unwrap e with
        | RName n => APush n
        | RObj _ _ _ matcher update style =>
            if from_option (fun m => m token) false matcher
            then AMatch update style else AFail
        end
      else AFail
  | None => AFail
  end.

(** ** Tables whose references are present *)

Definition elem_closed (G : gmap string ParseRule) (e : Rule) : Prop :=
  Forall (fun n => is_Some (G !! n)) (pushable e).

Definition rule_closed (G : gmap string ParseRule) (r : ParseRule) : Prop :=
  match r with
  | Seq elems => Forall (elem_closed G) elems
  | Fork _ select => forall token st e, select token st = Some e -> elem_closed G e
  end.

(** Every rule name the loop can push from a rule of the table is in the
    table. *)
Definition table_closed (G : gmap string ParseRule) : Prop :=
  forall n r, G !! n = Some r -> rule_closed G r.

(** No rule of the table is an empty array. *)
Definition table_nonempty (G : gmap string ParseRule) : Prop :=
  forall n r, G !! n = Some r -> r <> Seq [].

(** A property of rules holds of the rule of every frame. *)
Fixpoint all_rules (Q : ParseRule -> Prop) (s : State) : Prop :=
  from_option Q True (rule s) /\
  match prevState s with
  | Some p => all_rules Q p
  | None => True
  end.

(** The states [getToken] is entered with: frames in range, or a sentinel
    frame (an empty rule) on top of frames in range. *)
Definition entry_ok (s : State) : Prop :=
  stack_ok s \/
  (rule s = Some (Seq []) /\ exists p, prevState s = Some p /\ stack_ok p).

Section Reachable.

Variable run_update : UpdateRef -> State -> Token -> State.
Variable options : ParserOptions.

(** The states the parser hands out: the start state, and the state after
    any call of [getToken] that returns. *)
Inductive reachable : State -> Prop :=
| reach_start (s : State) :
    startState options = Ok s -> reachable s
| reach_token (s0 s : State) (fuel : nat) (st st' : CharacterStream) (sty : string) :
    reachable s0 ->
    getToken run_update options fuel st s0 = Ok (sty, st', s) ->
    reachable s.

(** The hooks keep the frames in range and the rules of the frames closed. *)
Definition hooks_keep_frames : Prop :=
  forall h s token,
    stack_ok s -> all_rules (rule_closed (parseRules options)) s ->
    stack_ok (run_update h s token) /\
    all_rules (rule_closed (parseRules options)) (run_update h s token).

End Reachable.

(** ** Well-formed tables and the measure of the grammar loop *)

(** An element the loop cannot get past without a match: a falsy string, or
    an object without [ofRule] (a Terminal). A frame whose expected element
    is such is popped when the token does not match. *)
Definition blocking (e : Rule) : bool :=
  match e with
  | RName _ => negb (truthy e)
  | RObj o _ _ _ _ _ => negb (truthy_opt o)
  end.

(** A rule that cannot be completed without a token being matched: it starts
    with a blocking element or with the name of such a rule; a forking rule
    is such when every name it can make the loop push is. An absent name
    makes [pushRule] throw, and on the empty array the loop raises. *)
Inductive guarded (G : gmap string ParseRule) : ParseRule -> Prop :=
| guarded_empty : guarded G (Seq [])
| guarded_blocking (e : Rule) (others : list Rule) :
    blocking e = true -> guarded G (Seq (e :: others))
| guarded_name (m : string) (others : list Rule) :
    (forall r, G !! m = Some r -> guarded G r) ->
    guarded G (Seq (RName m :: others))
| guarded_fork (arity : nat) (select : Token -> CharacterStream -> option Rule) :
    (forall token st x n r,
       select token st = Some x -> pushes x = Some n -> G !! n = Some r ->
       guarded G r) ->
    guarded G (Fork arity select).

(** The body of every List element of an array rule is a guarded rule. *)
Definition lists_guarded (G : gmap string ParseRule) (r : ParseRule) : Prop :=
  match r with
  | Seq elems =>
      forall e n r', e ∈ elems -> get_isList e = true -> pushes e = Some n ->
                     G !! n = Some r' -> guarded G r'
  | Fork _ _ => True
  end.

(** A frame that was pushed for a guarded rule and has not moved. *)
Definition pinned (G : gmap string ParseRule) (s : State) : Prop :=
  step s = 0 /\ needsSeperator s = false /\
  exists r, rule s = Some r /\ guarded G r.

Section Measure.

(** A weight for every rule name. *)
Variable W : string -> nat.
Variable token : Token.
Variable st : CharacterStream.

Definition wpush (x : Rule) : nat := from_option W 0 (pushes x).

Definition wsep (e : Rule) : nat :=
  if truthy e then from_option wpush 0 (get_separator e) else 0.

(** The cost of the elements of an array rule from a position on, up to the
    first blocking element. *)
Fixpoint tail_cost (elems : list Rule) : nat :=
  match elems with
  | [] => 0
  | e :: others => if blocking e then 1 else 3 + wpush e + tail_cost others
  end.

(** The cost of a rule entered at step 0. *)
Definition rule_cost (r : ParseRule) : nat :=
  match r with
  | Seq elems => tail_cost elems
  | Fork _ select => 3 + from_option (fun x => wpush x + wsep x) 0 (select token st)
  end.

(** The cost of the frame on top of the stack. *)
Definition top_cost (s : State) : nat :=
  match rule s with
  | None => 0
  | Some (Fork _ select) =>
      if bool_decide (step s = 0)
      then 3 + from_option (fun x => wpush x + wsep x) 0 (select token st)
      else 1
  | Some (Seq elems) =>
      if needsSeperator s
      then 3 + tail_cost (drop (step s) elems) + tail_cost (drop (S (step s)) elems)
           + from_option wsep 0 (elems !! step s)
      else tail_cost (drop (step s) elems)
  end.

(** The cost of a frame that has a frame above it. *)
Definition parent_cost (s : State) : nat :=
  match rule s with
  | None => 0
  | Some (Fork _ _) => 2
  | Some (Seq elems) =>
      if needsSeperator s
      then 2 + tail_cost (drop (step s) elems) + tail_cost (drop (S (step s)) elems)
      else 2 + tail_cost (drop (S (step s)) elems)
  end.

Fixpoint parents_cost (s : State) : nat :=
  parent_cost s +
  match prevState s with
  | Some p => parents_cost p
  | None => 0
  end.

(** The measure that every turn of the grammar loop decreases, as long as
    only frames pushed during the loop are popped. *)
Definition loop_measure (s : State) : nat :=
  top_cost s + from_option parents_cost 0 (prevState s).

End Measure.

(** The weight of a name exceeds the cost of its rule, whatever the token
    and the stream: the names that can be pushed from the start of a rule
    before any token is matched do not lead back to the rule. *)
Definition weights_decrease (W : string -> nat) (G : gmap string ParseRule) : Prop :=
  forall token st n r, G !! n = Some r -> rule_cost W token st r < W n.

(** The names that can be pushed from the start of an array rule before a
    token is matched: those of the elements up to the first blocking one. *)
Fixpoint first_names (elems : list Rule) : list string :=
  match elems with
  | [] => []
  | e :: others =>
      if blocking e then [] else (option_list (pushes e) ++ first_names others)%list
  end.

Definition rule_first_names (token : Token) (st : CharacterStream) (r : ParseRule)
  : list string :=
  match r with
  | Seq elems => first_names elems
  | Fork _ select => from_option pushable [] (select token st)
  end.

(** No cycle of name references that expands without consuming input: the
    names that a rule can push before a token is matched rank below the
    name of the rule. *)
Definition ranked (rank : string -> nat) (G : gmap string ParseRule) : Prop :=
  forall token st n r m,
    G !! n = Some r -> m ∈ rule_first_names token st r -> rank m < rank n.

(** A weight for each rank, for tables whose array rules have at most [L]
    elements. *)
Fixpoint rank_weight (L : nat) (k : nat) : nat :=
  match k with
  | 0 => 3 * L + 4
  | S k' => (3 + rank_weight L k') * L + 2 * rank_weight L k' + 4
  end.

(** The top [d] frames were pushed during the loop: their separator flag is
    clear, and a frame pushed as the body of a List, or from a pinned frame,
    is pinned. *)
Fixpoint fresh_ok (G : gmap string ParseRule) (d : nat) (s : State) : Prop :=
  match d with
  | 0 => True
  | S d' =>
      needsSeperator s = false /\
      match prevState s with
      | None => False
      | Some p =>
          ((at_list p = true /\ needsSeperator p = false) \/ pinned G p -> pinned G s) /\
          fresh_ok G d' p
      end
  end.

(** The state [advanceRule] hands to its second loop: separator flag
    cleared, step incremented. *)
Definition advanced (s : State) : State :=
  set_step (S (step s)) (set_needsSeperator false s).

(** Two states with the same frame: what the loop reads of a state is its
    rule, its step, its separator flag and its saved frame. *)
Definition same_frame (s t : State) : Prop :=
  rule s = rule t /\ step s = step t /\
  needsSeperator s = needsSeperator t /\ prevState s = prevState t.

(** The order of the termination argument: fewer frames that were on the
    stack before the loop, or as many and a smaller bound. *)
Definition progress (d' : nat) (s' : State) (m' : nat) (d : nat) (s : State) (m : nat)
  : Prop :=
  depth s' - d' < depth s - d \/ (depth s' - d' = depth s - d /\ m' < m).

(** The outcomes of the loop other than running out of fuel or spinning. *)
Definition loop_ends (o : outcome (option string * State)) : Prop :=
  (exists s', o = Ok (None, s')) \/
  (exists sty s', o = Ok (Some sty, s') /\ stack_ok s') \/
  (exists e, o = Throw e).

(** The hooks keep the frames in range. *)
Definition hooks_keep_range (run_update : UpdateRef -> State -> Token -> State) : Prop :=
  forall h s token, stack_ok s -> stack_ok (run_update h s token).

(** [eatWhitespace] answers true only when it moved the cursor forward, and
    leaves the stream alone when it answers false. *)
Definition eats_properly (options : ParserOptions) : Prop :=
  forall st b st1, eatWhitespace options st = (b, st1) ->
    if b then pos st < pos st1 else st1 = st.

(** No pattern of the lex table matches the empty text. *)
Definition lex_consumes (options : ParserOptions) : Prop :=
  Forall (fun kp : string * Pattern => forall text, kp.2 text <> Some EmptyString) (lexRules options).

(** The text at the cursor starts with a character that is not
    whitespace. *)
Definition at_non_space (st : CharacterStream) : Prop :=
  exists c text, rest st = String c text /\ is_space c = false.

(** ** The lexer in the words of the specification *)

(** "tries each pattern in table order; the first pattern that consumes a
    non-empty prefix wins and advances the stream by the match length.
    Returns no token if nothing matches". *)
Fixpoint lex_nonempty_prefix (lexRules : list (string * Pattern))
    (st : CharacterStream) : option Token * CharacterStream :=
  match lexRules with
  | [] => (None, st)
  | (k, p) :: others =>
      match stream_match p st with
      | (Some (String c m), st') => (Some (mkToken k (String c m)), st')
      | _ => lex_nonempty_prefix others st
      end
  end.

(** ** Sample tables *)

Module Examples.

(** Rule builders in the manner of the grammar tables: a punctuation
    Terminal, a Terminal on the token kind, Optional and List. *)
Definition punct (value : string) : Rule :=
  RObj None false None
       (Some (fun tok => String.eqb (tkind tok) "Punctuation"
                         && String.eqb (tvalue tok) value))
       None "punctuation".

Definition term (k sty : string) : Rule :=
  RObj None false None (Some (fun tok => String.eqb (tkind tok) k)) None sty.

Definition opt (ofRule : Rule) : Rule :=
  RObj (Some ofRule) false None None None EmptyString.

Definition list_of (ofRule : Rule) (separator : option Rule) : Rule :=
  RObj (Some ofRule) true separator None None EmptyString.

(** Document = ["{", List(Field, separator=","), "}"], Field = [Name] *)
Definition braces : gmap string ParseRule :=
  <["Document" := Seq [punct "{"; list_of (RName "Field") (Some (punct ",")); punct "}"]]>
  (<["Field" := Seq [term "Name" "property"]]> ∅).

(** A pattern for one fixed text, and one for a run of lower-case letters. *)
Definition exactly (text : string) : Pattern :=
  fun s => if String.prefix text s then Some text else None.

Fixpoint letters (s : string) : string :=
  match s with
  | String c s' =>
      if bool_decide (97 <= nat_of_ascii c <= 122) then String c (letters s') else EmptyString
  | EmptyString => EmptyString
  end.

Definition word : Pattern :=
  fun s => match letters s with
           | EmptyString => None
           | m => Some m
           end.

Definition lexTable : list (string * Pattern) :=
  [("Punctuation", exactly "{"); ("Punctuation", exactly "}");
   ("Punctuation", exactly ","); ("Punctuation", exactly "@");
   ("Name", word); ("Comment", exactly "#")].

(** [stream.eatWhile(isSpace)] *)
Definition eatSpaces (st : CharacterStream) : bool * CharacterStream :=
  let n := leading_spaces (rest st) in
  (negb (bool_decide (n = 0)), mkStream (sourceText st) (pos st + n)).

Definition bracesOptions : ParserOptions :=
  mkOptions eatSpaces lexTable braces None.

(** No hook changes the state. *)
Definition noUpdate : UpdateRef -> State -> Token -> State := fun _ s _ => s.

(** The state after [startState()] on the [braces] table. *)
Definition bracesStart : State :=
  mkState (Some "Document") None None
          (Some (Seq [punct "{"; list_of (RName "Field") (Some (punct ",")); punct "}"]))
          0 false (Some newState) false 0 None.

(** A completed Field frame above the Document frame at its List step. *)
Definition fieldDone : State :=
  mkState (Some "Field") None None (Some (Seq [term "Name" "property"]))
          1 false (Some (set_step 1 bracesStart)) false 0 None.

(** A fresh Field frame above the Document frame at its List step. *)
Definition fieldOpen : State :=
  mkState (Some "Field") None None (Some (Seq [term "Name" "property"]))
          0 false (Some (set_step 1 bracesStart)) false 0 None.

(** Variables = ["{", List(Variable, separator=Optional(",")), "}"] with the
    separator pending at the List step. *)
Definition variablesPending : State :=
  mkState (Some "Variables") None None
          (Some (Seq [punct "{";
                      list_of (RName "Variable") (Some (opt (punct ",")));
                      punct "}"]))
          1 true (Some newState) false 0 None.

(** Document = [Foo], Foo = []: every name is present, one rule is empty. *)
Definition emptyRule : gmap string ParseRule :=
  <["Document" := Seq [RName "Foo"]]> (<["Foo" := Seq []]> ∅).

Definition emptyRuleOptions : ParserOptions :=
  mkOptions eatSpaces lexTable emptyRule None.

(** The state after [startState()] on the [emptyRule] table. *)
Definition emptyRuleStart : State :=
  mkState (Some "Document") None None (Some (Seq [RName "Foo"]))
          0 false (Some newState) false 0 None.

(** [stream.eatWhile(isIgnored)] for the ignored characters space, tab,
    comma, line feed and carriage return. *)
Definition isIgnored (c : ascii) : bool :=
  bool_decide (nat_of_ascii c ∈ [32; 9; 44; 10; 13]).

Fixpoint leading_ignored (s : string) : nat :=
  match s with
  | String c s' => if isIgnored c then S (leading_ignored s') else 0
  | EmptyString => 0
  end.

Definition eatIgnored (st : CharacterStream) : bool * CharacterStream :=
  let n := leading_ignored (rest st) in
  (negb (bool_decide (n = 0)), mkStream (sourceText st) (pos st + n)).

Definition ignoringOptions : ParserOptions :=
  mkOptions eatIgnored lexTable braces None.

(** A line that holds one form feed. *)
Definition formFeed : string := String (ascii_of_nat 12) EmptyString.

(** Document = [List(Item)], Item = [Optional(Name)]: the body of the List
    can be completed without a token. *)
Definition nullableList : gmap string ParseRule :=
  <["Document" := Seq [list_of (RName "Item") None]]>
  (<["Item" := Seq [opt (term "Name" "property")]]> ∅).

Definition nullableListOptions : ParserOptions :=
  mkOptions eatSpaces lexTable nullableList None.

(** The state after [startState()] on the [nullableList] table. *)
Definition nullableListStart : State :=
  mkState (Some "Document") None None (Some (Seq [list_of (RName "Item") None]))
          0 false (Some newState) false 0 None.

(** The frames of a state from the top down: kind, step and separator
    flag. *)
Fixpoint frames (s : State) : list (option string * nat * bool) :=
  (kind s, step s, needsSeperator s) ::
  match prevState s with
  | Some p => frames p
  | None => []
  end.

(** The host scanning a line: [getToken] is called until the end of the text
    (at most [n] times); the styles in order and the frames at the end. *)
Fixpoint scan (options : ParserOptions) (n : nat) (st : CharacterStream) (s : State)
  : list string * option (list (option string * nat * bool)) :=
  match n with
  | 0 => ([], Some (frames s))
  | S n' =>
      if bool_decide (String.length (sourceText st) <= pos st)
      then ([], Some (frames s))
      else match getToken noUpdate options 5 st s with
           | Ok (sty, st', s') =>
               let '(styles, final) := scan options n' st' s' in (sty :: styles, final)
           | _ => ([], None)
           end
  end.

(** A lex table whose first pattern matches the empty text. *)
Definition emptyFirst : list (string * Pattern) :=
  [("A", fun _ => Some EmptyString); ("B", exactly "x")].

End Examples.

(** * Further parts of the sources *)

(** ** Points and offsets *)

(** Modelled from the spec: the [Position] class of './Range' (not part of
    the sources), of which [pointToOffset] reads [line] and [character],
    both counted from 0. *)
Record Position : Type := mkPosition { line : nat; character : nat }.

(** The line feed, on which [pointToOffset] splits. *)
Definition line_feed : ascii := ascii_of_nat 10.

(** [text.split('\n')]: the lines of a text; a text without line feed is one
    line, and a final line feed is followed by an empty line. *)
Fixpoint split_lines (text : string) : list string :=
  match text with
  | EmptyString => [EmptyString]
  | String c text' =>
      if Ascii.eqb c line_feed then EmptyString :: split_lines text'
      else match split_lines text' with
           | l :: ls => String c l :: ls
           | [] => [String c EmptyString]
           end
  end.

(** [lines.slice(0, n).map((line) => line.length + 1).reduce((a, b) => a + b, 0)] *)
Definition lines_length (n : nat) (lines : list string) : nat :=
  foldl Nat.add 0 ((fun l => String.length l + 1) <$> take n lines).

(** [pointToOffset(text, point)] *)
Definition pointToOffset (text : string) (point : Position) : nat :=
  character point + lines_length (line point) (split_lines text).

(** One point before another: on an earlier line, or earlier on the same
    line. *)
Definition point_before (p q : Position) : Prop :=
  line p < line q \/ (line p = line q /\ character p < character q).

(** ** What the state functions leave alone *)

(** [s'] is [s] with some frames popped and then the step and the separator
    flag of the exposed frame set. *)
Definition unwound (s s' : State) : Prop :=
  exists n i f, s' = set_step i (set_needsSeperator f (Nat.iter n popRule s)).

(** The fields of the state object that belong to the line being read and
    not to a frame. *)
Definition same_line_fields (s s' : State) : Prop :=
  needsAdvance s' = needsAdvance s /\ indentLevel s' = indentLevel s /\
  levels s' = levels s.

(** The hooks leave the indentation fields of the state alone. *)
Definition hooks_keep_levels (run_update : UpdateRef -> State -> Token -> State) : Prop :=
  forall h s token,
    indentLevel (run_update h s token) = indentLevel s /\
    levels (run_update h s token) = levels s.

(** ** The rule stack once it is empty *)

(** The stack of rules is empty, below a possible sentinel frame. *)
Definition stack_empty (s : State) : Prop :=
  rule s = None \/
  (rule s = Some (Seq []) /\ exists p, prevState s = Some p /\ rule p = None).

(** The styles [getToken] gives without a Terminal of the grammar. *)
Definition plain_style (sty : string) : Prop :=
  sty = "ws" \/ sty = "invalidchar" \/ sty = "comment".

(** ** The styles of a grammar *)

(** The style the grammar loop returns when it expects the element [e] and
    the token matches: that of the Terminal [e] unwraps to. *)
Definition terminal_style (e : Rule) : option string :=
  match unwrap e with
  | RObj _ _ _ (Some _) _ sty => Some sty
  | _ => None
  end.

(** Every style of an element, and of its separator, has the property
    [P]. *)
Definition elem_styled (P : string -> Prop) (e : Rule) : Prop :=
  from_option P True (terminal_style e) /\
  from_option (fun sep => from_option P True (terminal_style sep)) True
              (get_separator e).

Definition rule_styled (P : string -> Prop) (r : ParseRule) : Prop :=
  match r with
  | Seq elems => Forall (elem_styled P) elems
  | Fork _ select => forall token st e, select token st = Some e -> elem_styled P e
  end.

Definition table_styled (P : string -> Prop) (G : gmap string ParseRule) : Prop :=
  forall n r, G !! n = Some r -> rule_styled P r.

(** The hooks keep the rules of the frames among those with styles in
    [P]. *)
Definition hooks_keep_styles (run_update : UpdateRef -> State -> Token -> State)
    (P : string -> Prop) : Prop :=
  forall h s token,
    all_rules (rule_styled P) s -> all_rules (rule_styled P) (run_update h s token).

Module MoreExamples.

(** A text of two lines, "ab" and "cde". *)
Definition twoLines : string :=
  String "a" (String "b" (String line_feed "cde")).

(** The styles of the [braces] table. *)
Definition bracesStyle (sty : string) : Prop :=
  sty = "punctuation" \/ sty = "property".

(** A fresh Item frame of the [nullableList] table, at its Optional
    element. *)
Definition itemOpen : State :=
  mkState (Some "Item") None None
          (Some (Seq [Examples.opt (Examples.term "Name" "property")]))
          0 false (Some Examples.nullableListStart) false 0 None.

(** Pair = [Optional(Name), "}"] at its Optional element. *)
Definition pairOpen : State :=
  mkState (Some "Pair") None None
          (Some (Seq [Examples.opt (Examples.term "Name" "property");
                      Examples.punct "}"]))
          0 false (Some newState) false 0 None.

(** A state two brackets deep, indented less than the inner bracket. *)
Definition twoDeep : State :=
  set_levels (Some [1; 2]) (set_indentLevel 1 Examples.bracesStart).

(** The state after a closing brace that the [braces] table rejects at its
    start state: the start state under an 'Invalid' sentinel frame. *)
Definition rejectedBrace : State :=
  mkState (Some "Invalid") None None (Some (Seq [])) 0 false
          (Some Examples.bracesStart) false 0 None.

End MoreExamples.

(** ** The end of the document *)

(** Every open rule is at its last element, and none of these elements is a
    List: one more advance completes them all. A forking rule has no further
    element. *)
Fixpoint at_last (s : State) : Prop :=
  match rule s with
  | None => True
  | Some r =>
      match r with
      | Seq elems => S (step s) = length elems
      | Fork _ _ => True
      end /\
      isList s = Ok false /\
      match prevState s with
      | Some p => at_last p
      | None => False
      end
  end.

(** The hooks leave the deferred-advance flag alone. *)
Definition hooks_keep_needsAdvance (run_update : UpdateRef -> State -> Token -> State)
  : Prop :=
  forall h s token, needsAdvance (run_update h s token) = needsAdvance s.

(** The state is not at an empty rule: the next call does not start by
    popping a frame. *)
Definition at_empty_rule (s : State) : bool :=
  from_option (fun r => bool_decide (rule_length r = 0)) false (rule s).

(** * Properties *)

(** ** The rule stack: [pushRule] and [popRule] *)

Lemma popRule_no_saved_frame (s : State) :
  prevState s = None -> popRule s = s.
Proof. intros H. unfold popRule. by rewrite H. Qed.

Lemma pushRule_known rules s n r :
  rules !! n = Some r ->
  pushRule rules s n =
    Ok (mkState (Some n) None None (Some r) 0 false (Some s)
                (needsAdvance s) (indentLevel s) (levels s)).
Proof. intros H. unfold pushRule, clone. by rewrite H. Qed.


(** C6. For a known rule name, [pushRule] followed by [popRule] gives back
    the state as it was before the push: [kind], [name], [type], [rule],
    [step], the separator-pending flag and the [prevState] link are restored,
    and [indentLevel], [levels] and [needsAdvance] are the same before the
    push, after the push and after the pop. [popRule] on a state without a
    saved frame changes nothing. *)
Theorem popRule_pushRule_restores (rules : gmap string ParseRule) (s : State)
    (n : string) (Hknown : is_Some (rules !! n)) :
  (exists s', pushRule rules s n = Ok s' /\
     popRule s' = s /\
     needsAdvance s' = needsAdvance s /\ indentLevel s' = indentLevel s /\
     levels s' = levels s) /\
  (forall t, prevState t = None -> popRule t = t).
Proof.
  destruct Hknown as [r Hr]. split.
  - rewrite (pushRule_known _ _ _ _ Hr). eexists. split; [reflexivity|].
    split; [|by simpl]. unfold popRule. simpl. by destruct s.
  - apply popRule_no_saved_frame.
Qed.

Lemma popRule_pushRule_restores_witness :
  (exists s', pushRule Examples.braces Examples.bracesStart "Field" = Ok s' /\
     popRule s' = Examples.bracesStart /\
     needsAdvance s' = needsAdvance Examples.bracesStart /\
     indentLevel s' = indentLevel Examples.bracesStart /\
     levels s' = levels Examples.bracesStart) /\
  (forall t, prevState t = None -> popRule t = t).
Proof.
  apply (popRule_pushRule_restores Examples.braces Examples.bracesStart "Field").
  by eexists.
Defined.

(** ** Step advancement: [isList] and [advanceRule] *)

Lemma isList_true_inv (s : State) :
  isList s = Ok true ->
  exists elems o sp m u sty,
    rule s = Some (Seq elems) /\
    elems !! step s = Some (RObj o true sp m u sty) /\
    step_separator s = sp.
Proof.
  unfold isList, step_separator. intros H.
  destruct (rule s) as [[elems|a f]|]; try discriminate.
  destruct (elems !! step s) as [[n|o l sp m u sty]|] eqn:E; try discriminate.
  injection H as ->. exists elems, o, sp, m, u, sty. by rewrite E.
Qed.

Lemma isList_true_in_range (s : State) :
  isList s = Ok true -> completed s = false.
Proof.
  intros H. destruct (isList_true_inv s H) as (elems & o & sp & m & u & sty & Hr & He & _).
  unfold completed. rewrite Hr. apply lookup_lt_Some in He.
  rewrite bool_decide_eq_true_2; done.
Qed.

Lemma advanceStep_set_needsSeperator (b : bool) (s : State) :
  advanceStep (set_needsSeperator b s) = advanceStep s.
Proof. by destruct s. Qed.



(** C10. While [advanceRule] pops completed frames: when the frame exposed
    by [popRule] is at a List step that declares a separator, its
    separator-pending flag becomes the negation of the restored one and its
    step is the restored one (the loop then stops there); when the exposed
    frame has a rule and is not at a List step, its flag is cleared and its
    step is incremented, and the loop goes on from there. *)
Theorem popCompleted_resumes_parent (fuel : nat) (s p : State)
    (Hdone : completed s = true) (Hprev : prevState s = Some p)
    (Hrule : is_Some (rule p)) :
  (isList p = Ok true -> truthy_opt (step_separator p) = true ->
     exists s', popCompleted (S fuel) s = Ok s' /\
       needsSeperator s' = negb (needsSeperator p) /\ step s' = step p /\
       s' = set_needsSeperator (negb (needsSeperator p)) (popRule s)) /\
  (isList p = Ok false ->
     popCompleted (S fuel) s =
       popCompleted fuel (set_step (S (step p)) (set_needsSeperator false (popRule s)))).
Proof.
  assert (Hpop : popRule s =
    mkState (kind p) (name p) (type p) (rule p) (step p) (needsSeperator p)
            (prevState p) (needsAdvance s) (indentLevel s) (levels s)).
  { unfold popRule. by rewrite Hprev. }
  destruct Hrule as [r Hr].
  split.
  - intros Hl Hsep.
    assert (Hl' : isList (popRule s) = Ok true) by (by rewrite Hpop).
    assert (Hsep' : step_separator (popRule s) = step_separator p) by (by rewrite Hpop).
    eexists. split; [|split; [|split; [|reflexivity]]].
    + simpl. rewrite Hdone. unfold resume_parent.
      replace (rule (popRule s)) with (Some r) by (by rewrite Hpop).
      rewrite Hl'. simpl. rewrite Hsep', Hsep.
      replace (needsSeperator (popRule s)) with (needsSeperator p) by (by rewrite Hpop).
      assert (Hc : completed (set_needsSeperator (negb (needsSeperator p)) (popRule s)) = false).
      { apply isList_true_in_range. by rewrite Hpop. }
      destruct fuel; simpl; by rewrite Hc.
    + done.
    + by rewrite Hpop.
  - intros Hl.
    assert (Hl' : isList (popRule s) = Ok false) by (by rewrite Hpop).
    simpl. rewrite Hdone. unfold resume_parent.
    replace (rule (popRule s)) with (Some r) by (by rewrite Hpop).
    rewrite Hl'. simpl.
    by replace (step (popRule s)) with (step p) by (by rewrite Hpop).
Qed.

Lemma popCompleted_resumes_parent_witness :
  exists s', popCompleted 1 Examples.fieldDone = Ok s' /\
    needsSeperator s' = true /\ step s' = 1.
Proof.
  destruct (popCompleted_resumes_parent 0 Examples.fieldDone
              (set_step 1 Examples.bracesStart) eq_refl eq_refl
              ltac:(by eexists)) as [Hlist _].
  destruct (Hlist eq_refl eq_refl) as (s' & Hs' & Hflag & Hstep & _).
  exists s'. by repeat split.
Defined.

(** ** The lexer *)

Lemma stream_match_None (p : Pattern) (st st' : CharacterStream) :
  stream_match p st = (None, st') -> st' = st.
Proof.
  unfold stream_match. destruct (p (rest st)) as [m|]; [|congruence].
  destruct (String.prefix m (rest st)); congruence.
Qed.

Lemma stream_match_Some (p : Pattern) (st st' : CharacterStream) (m : string) :
  stream_match p st = (Some m, st') ->
  p (rest st) = Some m /\ String.prefix m (rest st) = true /\
  st' = mkStream (sourceText st) (pos st + String.length m).
Proof.
  unfold stream_match. destruct (p (rest st)) as [m'|]; [|congruence].
  destruct (String.prefix m' (rest st)) eqn:E; [|congruence].
  intros [= -> <-]. done.
Qed.

Lemma lex_None_unchanged (lexRules : list (string * Pattern)) (st st' : CharacterStream) :
  lex lexRules st = (None, st') -> st' = st.
Proof.
  induction lexRules as [|[k p] others IH]; simpl; [congruence|].
  destruct (stream_match p st) as [[m|] st1] eqn:E; [done|].
  apply stream_match_None in E as ->. exact IH.
Qed.

Lemma lex_Some_advances (lexRules : list (string * Pattern)) (st st' : CharacterStream)
    (token : Token) :
  lex lexRules st = (Some token, st') ->
  st' = mkStream (sourceText st) (pos st + String.length (tvalue token)) /\
  exists p, (tkind token, p) ∈ lexRules /\ p (rest st) = Some (tvalue token).
Proof.
  induction lexRules as [|[k p] others IH]; simpl; [congruence|].
  destruct (stream_match p st) as [[m|] st1] eqn:E.
  - intros [= <- <-]. apply stream_match_Some in E as (Hp & _ & ->).
    split; [done|]. exists p. split; [by left|done].
  - apply stream_match_None in E as ->. intros H.
    destruct (IH H) as (-> & q & Hq & Hm). split; [done|].
    exists q. split; [by right|done].
Qed.

(** C9, as amended. [lex] tries the patterns in table order and builds its
    token from the first pattern that matches at the cursor, whatever the
    length of the matched text; the stream moves by that length; every
    earlier entry failed to match; with no matching pattern the result is
    null and the stream is where it was. *)
Theorem lex_first_match (lexRules : list (string * Pattern)) (st : CharacterStream) :
  match lex lexRules st with
  | (Some token, st') =>
      exists earlier p later,
        lexRules = (earlier ++ (tkind token, p) :: later)%list /\
        Forall (fun kp => stream_match kp.2 st = (None, st)) earlier /\
        p (rest st) = Some (tvalue token) /\
        String.prefix (tvalue token) (rest st) = true /\
        st' = mkStream (sourceText st) (pos st + String.length (tvalue token))
  | (None, st') =>
      st' = st /\ Forall (fun kp => stream_match kp.2 st = (None, st)) lexRules
  end.
Proof.
  induction lexRules as [|[k p] others IH]; simpl.
  - by split.
  - destruct (stream_match p st) as [[m|] st1] eqn:E.
    + apply stream_match_Some in E as (Hp & Hpre & ->).
      exists [], p, others. simpl. by repeat split.
    + pose proof (stream_match_None _ _ _ E) as ->.
      destruct (lex others st) as [[token|] st2].
      * destruct IH as (earlier & q & later & -> & Hfail & Hq & Hpre & ->).
        exists ((k, p) :: earlier), q, later. repeat split; try done.
        by constructor.
      * destruct IH as [-> Hfail]. split; [done|]. by constructor.
Qed.

(** Where no pattern of the table can match the empty text, the first
    pattern that matches is the first that consumes a non-empty prefix. *)
Lemma lex_nonempty_prefix_agrees (lexRules : list (string * Pattern))
    (st : CharacterStream) :
  Forall (fun kp => forall text, kp.2 text <> Some EmptyString) lexRules ->
  lex lexRules st = lex_nonempty_prefix lexRules st.
Proof.
  induction 1 as [|[k p] others Hp _ IH]; simpl; [done|].
  destruct (stream_match p st) as [[m|] st1] eqn:E.
  - destruct m as [|c m]; [|done].
    apply stream_match_Some in E as (E & _). by apply Hp in E.
  - apply stream_match_None in E as ->. exact IH.
Qed.

(** C9 as stated fails: with a first entry whose pattern matches the empty
    text, [lex] answers with that entry's kind and an empty value and leaves
    the stream where it was, although the second entry would consume "x". *)
Lemma lex_empty_match_wins :
  lex Examples.emptyFirst (mkStream "x" 0) = (Some (mkToken "A" EmptyString), mkStream "x" 0) /\
  lex_nonempty_prefix Examples.emptyFirst (mkStream "x" 0)
    = (Some (mkToken "B" "x"), mkStream "x" 1) /\
  lex Examples.emptyFirst (mkStream "x" 0)
    <> lex_nonempty_prefix Examples.emptyFirst (mkStream "x" 0).
Proof. by repeat split. Qed.

(** ** The token step driver *)

Section DriverFacts.

Variable run_update : UpdateRef -> State -> Token -> State.
Variable options : ParserOptions.

Local Abbreviation loop := (grammarLoop run_update options).
Local Abbreviation token_step := (getToken run_update options).
Local Abbreviation accept := (acceptTerminal run_update).

(** One turn of the grammar loop, by the shape of the expected element. *)
Lemma grammarLoop_exit fuel token st s :
  rule s = None -> loop fuel token st s = Ok (None, s).
Proof. intros H. destruct fuel; simpl; by rewrite H. Qed.

Lemma grammarLoop_turn_fail fuel token st s :
  is_Some (rule s) ->
  (forall e, expectedOf token st s = Some e -> truthy e = true ->
     exists o l sp m u sty, unwrap e = RObj o l sp m u sty /\
       from_option (fun f => f token) false m = false) ->
  loop (S fuel) token st s =
    (s1 ← unsuccessful s; loop fuel token st s1).
Proof.
  intros [r Hr] Hfail. simpl. rewrite Hr.
  destruct (expectedOf token st s) as [e|]; [|done].
  destruct (truthy e) eqn:Ht; [|done].
  destruct (Hfail e eq_refl Ht) as (o & l & sp & m & u & sty & -> & ->). done.
Qed.

Lemma grammarLoop_turn_push fuel token st s e n :
  is_Some (rule s) ->
  expectedOf token st s = Some e -> truthy e = true -> unwrap e = RName n ->
  loop (S fuel) token st s =
    (s1 ← pushRule (parseRules options) s n; loop fuel token st s1).
Proof. intros [r Hr] He Ht Hn. simpl. by rewrite Hr, He, Ht, Hn. Qed.

Lemma grammarLoop_turn_match fuel token st s e o l sp m u sty :
  is_Some (rule s) ->
  expectedOf token st s = Some e -> truthy e = true ->
  unwrap e = RObj o l sp (Some m) u sty -> m token = true ->
  loop (S fuel) token st s =
    (s1 ← accept token u s; Ok (Some sty, s1)).
Proof.
  intros [r Hr] He Ht Hu Hm. simpl. rewrite Hr, He, Ht, Hu. simpl. by rewrite Hm.
Qed.

(** When the loop runs to its exit the rule stack is empty. *)
Lemma grammarLoop_exit_empty fuel token st s s' :
  loop fuel token st s = Ok (None, s') -> rule s' = None.
Proof.
  revert s. induction fuel as [|fuel IH]; intros s; simpl.
  - destruct (rule s) eqn:Hr; [discriminate|]. by intros [= <-].
  - destruct (rule s) eqn:Hr; [|by intros [= <-]].
    assert (Hfail : (s1 ← unsuccessful s; loop fuel token st s1) = Ok (None, s')
                    -> rule s' = None).
    { destruct (unsuccessful s) as [s1| | |]; simpl; try discriminate. apply IH. }
    destruct (expectedOf token st s) as [e|]; [|exact Hfail].
    destruct (truthy e); [|exact Hfail].
    destruct (unwrap e) as [n|o l sp m u sty].
    + destruct (pushRule _ s n) as [s1| | |]; simpl; try discriminate. apply IH.
    + destruct (from_option _ _ m); [|exact Hfail].
      destruct (accept token u s); simpl; discriminate.
Qed.

(** What [getToken] does with the result of the grammar loop. *)
Lemma getToken_after_lex fuel st s s1 st1 token st2 :
  resumeState s = Ok s1 ->
  eatWhitespace options st = (false, st1) ->
  lex (lexRules options) st1 = (Some token, st2) ->
  tkind token <> "Comment" ->
  token_step fuel st s =
    (r ← loop fuel token st2
           (handleLevels token (rememberIndent options st s1));
     match r with
     | (Some style, s4) => Ok (style, st2, s4)
     | (None, _) =>
         s5 ← pushRule SpecialParseRules (rememberIndent options st s1) "Invalid";
         Ok ("invalidchar", st2, s5)
     end).
Proof.
  intros Hres Hws Hlex Hkind. unfold getToken.
  rewrite Hres. simpl. rewrite Hws, Hlex.
  apply String.eqb_neq in Hkind. by rewrite Hkind.
Qed.

(** C3. When the lexed token is rejected by every position on the open rule
    stack (the grammar loop runs to its exit, the stack empty, with no
    Terminal match), [getToken] returns 'invalidchar' with the state set back
    to the snapshot taken before the bracket-level handling and the grammar
    loop and one 'Invalid' sentinel frame pushed on it: the saved frame is
    the snapshot, popping the sentinel gives the snapshot back, and
    [needsAdvance], [indentLevel] and [levels] are those of the snapshot. The
    stream stays where the lexer left it, past the lexed token. *)
Theorem getToken_rejected_token_rolls_back (fuel : nat) (st st1 st2 : CharacterStream)
    (s s1 s4 : State) (token : Token)
    (Hresume : resumeState s = Ok s1)
    (Hws : eatWhitespace options st = (false, st1))
    (Hlex : lex (lexRules options) st1 = (Some token, st2))
    (Hkind : tkind token <> "Comment")
    (Hloop : loop fuel token st2
               (handleLevels token (rememberIndent options st s1)) = Ok (None, s4)) :
  rule s4 = None /\
  exists s5,
    token_step fuel st s = Ok ("invalidchar", st2, s5) /\
    pushRule SpecialParseRules (rememberIndent options st s1) "Invalid" = Ok s5 /\
    kind s5 = Some "Invalid" /\ rule s5 = Some (Seq []) /\ step s5 = 0 /\
    prevState s5 = Some (rememberIndent options st s1) /\
    popRule s5 = rememberIndent options st s1 /\
    needsAdvance s5 = needsAdvance (rememberIndent options st s1) /\
    indentLevel s5 = indentLevel (rememberIndent options st s1) /\
    levels s5 = levels (rememberIndent options st s1) /\
    st2 = mkStream (sourceText st1) (pos st1 + String.length (tvalue token)).
Proof.
  split; [by eapply grammarLoop_exit_empty|].
  set (backup := rememberIndent options st s1).
  assert (Hpush : pushRule SpecialParseRules backup "Invalid" =
    Ok (mkState (Some "Invalid") None None (Some (Seq [])) 0 false (Some backup)
                (needsAdvance backup) (indentLevel backup) (levels backup))).
  { by apply pushRule_known. }
  subst backup.
  eexists. split; [|split; [exact Hpush|]].
  - rewrite (getToken_after_lex fuel st s s1 st1 token st2 Hresume Hws Hlex Hkind).
    rewrite Hloop. simpl. by rewrite Hpush.
  - simpl. repeat split.
    + unfold popRule. simpl. by destruct (rememberIndent options st s1).
    + by destruct (lex_Some_advances _ _ _ _ Hlex) as [-> _].
Qed.


End DriverFacts.

Lemma getToken_rejected_token_rolls_back_witness :
  exists s5,
    getToken Examples.noUpdate Examples.bracesOptions 5 (mkStream "@" 0)
             Examples.bracesStart = Ok ("invalidchar", mkStream "@" 1, s5) /\
    kind s5 = Some "Invalid" /\ popRule s5 = Examples.bracesStart.
Proof.
  edestruct (getToken_rejected_token_rolls_back Examples.noUpdate
               Examples.bracesOptions 5 (mkStream "@" 0) (mkStream "@" 0)
               (mkStream "@" 1) Examples.bracesStart Examples.bracesStart)
    as [_ (s5 & Hget & _ & Hkind & _ & _ & _ & Hpop & _)].
  - reflexivity.
  - reflexivity.
  - reflexivity.
  - discriminate.
  - reflexivity.
  - exists s5. split; [exact Hget|]. split; [exact Hkind|exact Hpop].
Defined.


(** ** The examples of the specification *)

(** Document = ["{", List(Field, separator=","), "}"] on the input "{name}":
    punctuation, the Field style, punctuation, and an empty rule stack at
    the end. *)
Example braces_session :
  Examples.scan Examples.bracesOptions 9 (mkStream "{name}" 0) Examples.bracesStart
  = (["punctuation"; "property"; "punctuation"], Some [(None, 0, false)]).
Proof. vm_compute. reflexivity. Qed.

(** The input "{name," leaves the stack at the List step of Document; a
    later line "field}" resumes there and ends with an empty stack. *)
Example braces_open_list :
  Examples.scan Examples.bracesOptions 9 (mkStream "{name," 0) Examples.bracesStart
  = (["punctuation"; "property"; "punctuation"],
     Some [(Some "Document", 1, false); (None, 0, false)]) /\
  Examples.scan Examples.bracesOptions 9 (mkStream "field}" 0)
    (set_step 1 Examples.bracesStart)
  = (["property"; "punctuation"], Some [(None, 0, false)]).
Proof. split; vm_compute; reflexivity. Qed.

(** The input "#@": a comment, whose sentinel frame is popped at the next
    call, then an invalid token; both calls move the stream. *)
Example comment_then_invalid :
  Examples.scan Examples.bracesOptions 9 (mkStream "#@" 0) Examples.bracesStart
  = (["comment"; "invalidchar"],
     Some [(Some "Invalid", 0, false); (Some "Document", 0, false); (None, 0, false)]).
Proof. vm_compute. reflexivity. Qed.

(** ** Frames in range are kept in range *)

Lemma stack_ok_unfold (s : State) :
  stack_ok s <-> frame_ok s /\ from_option stack_ok True (prevState s).
Proof. destruct s as [k n t r i b [p|] na il lv]; simpl; tauto. Qed.

Lemma stack_ok_popRule (s : State) : stack_ok s -> stack_ok (popRule s).
Proof.
  intros H. unfold popRule. destruct (prevState s) as [p|] eqn:Hp; [|done].
  apply stack_ok_unfold in H as [_ H]. rewrite Hp in H. simpl in H.
  apply stack_ok_unfold in H as [Hf Hrest].
  apply stack_ok_unfold. split; [exact Hf|exact Hrest].
Qed.

Lemma depth_popRule (s p : State) :
  prevState s = Some p -> depth (popRule s) = depth p /\ depth s = S (depth p).
Proof.
  intros Hp. unfold popRule. rewrite Hp.
  destruct s as [k n t r i b ps na il lv]. simpl in *. subst ps.
  by destruct p.
Qed.

Lemma frame_ok_isList (s : State) :
  frame_ok s -> exists b, isList s = Ok b.
Proof.
  unfold frame_ok, isList. destruct (rule s) as [[elems|a f]|]; eauto.
  intros [Hlt _]. apply lookup_lt_is_Some_2 in Hlt as [e He]. rewrite He.
  destruct e; eauto.
Qed.

Lemma frame_ok_at_ofRule (s : State) :
  frame_ok s -> exists b, at_ofRule s = Ok b.
Proof.
  unfold frame_ok, at_ofRule. destruct (rule s) as [[elems|a f]|]; eauto.
  intros [Hlt _]. apply lookup_lt_is_Some_2 in Hlt as [e He]. rewrite He. eauto.
Qed.

Lemma stack_ok_parents_ok (s : State) : stack_ok s -> parents_ok s.
Proof.
  intros H. apply stack_ok_unfold in H as [Hf Hrest]. split; [|exact Hrest].
  unfold frame_ok in Hf. intros [r Hr]. rewrite Hr in Hf.
  destruct r; [by destruct Hf|done].
Qed.

Lemma parents_ok_not_completed (s : State) :
  parents_ok s -> completed s = false -> stack_ok s.
Proof.
  intros [Hprev Hrest] Hc. apply stack_ok_unfold. split; [|exact Hrest].
  unfold frame_ok. unfold completed in Hc.
  destruct (rule s) as [[elems|a f]|] eqn:Hr; [|done|done].
  apply negb_false_iff, bool_decide_eq_true in Hc. split; [done|]. apply Hprev. eauto.
Qed.

Lemma resume_parent_ok (s : State) :
  stack_ok s ->
  exists s1, resume_parent s = Ok s1 /\ parents_ok s1 /\ depth s1 = depth s.
Proof.
  intros Hok. unfold resume_parent.
  destruct (rule s) as [r|] eqn:Hr.
  - pose proof Hok as Hf. apply stack_ok_unfold in Hf as [Hf _].
    destruct (frame_ok_isList s Hf) as [b ->]. simpl.
    pose proof (stack_ok_parents_ok s Hok) as Hp.
    destruct b.
    + destruct (truthy_opt (step_separator s)); eexists; (split; [reflexivity|]).
      * split; [exact Hp|]. by destruct s.
      * by split.
    + eexists. split; [reflexivity|]. split; [exact Hp|]. by destruct s.
  - eexists. split; [reflexivity|]. split; [by apply stack_ok_parents_ok|done].
Qed.

Lemma popCompleted_ok (fuel : nat) (s : State) :
  depth s < fuel -> parents_ok s ->
  exists s', popCompleted fuel s = Ok s' /\ stack_ok s'.
Proof.
  revert s. induction fuel as [|fuel IH]; intros s Hd Hp; [lia|].
  simpl. destruct (completed s) eqn:Hc.
  - assert (Hsome : is_Some (prevState s)).
    { apply Hp. unfold completed in Hc. destruct (rule s); [eauto|discriminate]. }
    destruct Hsome as [p Hprev].
    destruct (depth_popRule s p Hprev) as [Hd1 Hd2].
    assert (Hpok : stack_ok (popRule s)).
    { destruct Hp as [_ Hrest]. rewrite Hprev in Hrest. simpl in Hrest.
      unfold popRule. rewrite Hprev.
      apply stack_ok_unfold in Hrest as [Hf Hrest].
      apply stack_ok_unfold. by split. }
    destruct (resume_parent_ok _ Hpok) as (s1 & -> & Hp1 & Hd3). simpl.
    apply IH; [lia|exact Hp1].
  - eexists. split; [reflexivity|]. by apply parents_ok_not_completed.
Qed.

Lemma advanceStep_ok (s : State) :
  stack_ok s -> exists s', advanceStep s = Ok s' /\ stack_ok s'.
Proof.
  intros Hok. unfold advanceStep. apply popCompleted_ok.
  - destruct s; simpl. lia.
  - destruct (stack_ok_parents_ok s Hok) as [H1 H2]. by destruct s.
Qed.

Lemma stack_ok_set_needsSeperator (b : bool) (s : State) :
  stack_ok s -> stack_ok (set_needsSeperator b s).
Proof. by destruct s. Qed.

Lemma stack_ok_set_needsAdvance (b : bool) (s : State) :
  stack_ok s -> stack_ok (set_needsAdvance b s).
Proof. by destruct s. Qed.

Lemma stack_ok_set_indentLevel (n : nat) (s : State) :
  stack_ok s -> stack_ok (set_indentLevel n s).
Proof. by destruct s. Qed.

Lemma stack_ok_set_levels (l : option (list nat)) (s : State) :
  stack_ok s -> stack_ok (set_levels l s).
Proof. by destruct s. Qed.

(** [advanceRule] by cases: the List with an optional separator pending is
    kept for another try, a successful List match repeats, everything else
    advances the step. *)
Lemma advanceRule_cases (s : State) (successful : bool) (b : bool) :
  isList s = Ok b ->
  advanceRule s successful =
    if b && optional_separator_pending s then Ok (set_needsSeperator false s)
    else if b && successful
         then Ok (if truthy_opt (step_separator s)
                  then set_needsSeperator (negb (needsSeperator s)) s else s)
         else advanceStep s.
Proof.
  intros Hl. unfold advanceRule, optional_separator_pending. rewrite Hl. simpl.
  destruct b; simpl; [|done].
  destruct (truthy_opt (step_separator s)) eqn:Hsep; simpl; [|done].
  rewrite advanceStep_set_needsSeperator.
  destruct (needsSeperator s); simpl; [|done].
  by destruct (truthy_opt (step_separator s ≫= get_ofRule)).
Qed.

Lemma advanceRule_ok (s : State) (successful : bool) :
  stack_ok s -> exists s', advanceRule s successful = Ok s' /\ stack_ok s'.
Proof.
  intros Hok. pose proof Hok as Hf. apply stack_ok_unfold in Hf as [Hf _].
  destruct (frame_ok_isList s Hf) as [b Hb].
  rewrite (advanceRule_cases s successful b Hb).
  destruct (b && optional_separator_pending s).
  { eexists. split; [reflexivity|]. by apply stack_ok_set_needsSeperator. }
  destruct (b && successful); [|by apply advanceStep_ok].
  eexists. split; [reflexivity|].
  destruct (truthy_opt _); [by apply stack_ok_set_needsSeperator|done].
Qed.

(** The first loop of [unsuccessful] pops [n] frames, none of which is at
    an Optional/List step, and stops on an empty stack or at such a step. *)
Lemma unwind_ok (fuel : nat) (s : State) :
  depth s < fuel -> stack_ok s ->
  exists n,
    unwind fuel s = Ok (Nat.iter n popRule s) /\
    stack_ok (Nat.iter n popRule s) /\
    depth (Nat.iter n popRule s) + n = depth s /\
    (forall k, k < n -> is_Some (rule (Nat.iter k popRule s)) /\
                        at_ofRule (Nat.iter k popRule s) = Ok false) /\
    (rule (Nat.iter n popRule s) = None \/ at_ofRule (Nat.iter n popRule s) = Ok true).
Proof.
  revert s. induction fuel as [|fuel IH]; intros s Hd Hok; [lia|].
  simpl. destruct (rule s) as [r|] eqn:Hr.
  - pose proof Hok as Hf. apply stack_ok_unfold in Hf as [Hf _].
    destruct (frame_ok_at_ofRule s Hf) as [b Hb]. rewrite Hb. simpl.
    destruct b.
    + exists 0. simpl. split_and!; [done|done|lia|intros; lia|by right].
    + destruct (stack_ok_parents_ok s Hok) as [Hsome _].
      destruct (Hsome ltac:(eauto)) as [p Hprev].
      destruct (depth_popRule s p Hprev) as [Hd1 Hd2].
      destruct (IH (popRule s) ltac:(lia) (stack_ok_popRule s Hok))
        as (n & Hun & Hokn & Hdn & Hbefore & Hstop).
      exists (S n). rewrite !Nat.iter_succ_r.
      split_and!; [done|done|lia| |done].
      intros [|k] Hk; simpl; [by eauto|].
      rewrite <- Nat.iter_succ, Nat.iter_succ_r. apply Hbefore. lia.
  - exists 0. simpl. split_and!; [done|done|lia|intros; lia|by left].
Qed.

Lemma unsuccessful_ok (s : State) :
  stack_ok s -> exists s', unsuccessful s = Ok s' /\ stack_ok s'.
Proof.
  intros Hok. unfold unsuccessful.
  destruct (unwind_ok (S (depth s)) s ltac:(lia) Hok) as (n & -> & Hokn & _).
  simpl. destruct (rule (Nat.iter n popRule s)); [|eauto].
  by apply advanceRule_ok.
Qed.

(** ** The bounds on the loops are large enough *)

Lemma depth_resume_parent (s s1 : State) :
  resume_parent s = Ok s1 -> depth s1 = depth s /\ prevState s1 = prevState s.
Proof.
  unfold resume_parent. destruct (rule s); [|by intros [= <-]].
  destruct (isList s) as [[|]| | |]; simpl; try discriminate.
  - destruct (truthy_opt _); intros [= <-]; by destruct s.
  - intros [= <-]. by destruct s.
Qed.

Lemma popCompleted_in_range (fuel : nat) (s : State) :
  completed s = false -> popCompleted fuel s = Ok s.
Proof. intros H. destruct fuel; simpl; by rewrite H. Qed.

(** A forking rule without a saved frame is completed for ever. *)
Lemma popCompleted_fork_spins (fuel : nat) (s : State) (a : nat)
    (f : Token -> CharacterStream -> option Rule) :
  rule s = Some (Fork a f) -> prevState s = None -> popCompleted fuel s = Spin.
Proof.
  revert s. induction fuel as [|fuel IH]; intros s Hr Hp; simpl.
  - unfold completed. by rewrite Hr.
  - unfold completed. rewrite Hr. rewrite popRule_no_saved_frame by done.
    unfold resume_parent, isList. rewrite Hr. simpl.
    apply IH; by destruct s.
Qed.

(** A completed frame without a saved frame: for an array rule the loop
    raises at once, for a forking rule it goes on for ever. *)
Lemma popCompleted_bottom (fuel : nat) (s : State) :
  completed s = true -> prevState s = None ->
  popCompleted (S (S fuel)) s = popCompleted (S fuel) s.
Proof.
  intros Hc Hp. destruct (rule s) as [[elems|a f]|] eqn:Hr.
  - assert (Hthrow : forall k, popCompleted (S k) s = Throw UndefinedProperty).
    { intros k. simpl. rewrite Hc. rewrite popRule_no_saved_frame by done.
      unfold resume_parent, isList. rewrite Hr.
      unfold completed in Hc. rewrite Hr in Hc.
      apply negb_true_iff, bool_decide_eq_false in Hc.
      by rewrite lookup_ge_None_2 by lia. }
    by rewrite !Hthrow.
  - by rewrite !(popCompleted_fork_spins _ s a f Hr Hp).
  - unfold completed in Hc. by rewrite Hr in Hc.
Qed.

(** More fuel than the depth of the stack never changes what the second
    loop of [advanceRule] gives. *)
Lemma popCompleted_fuel (fuel : nat) (s : State) :
  depth s < fuel -> popCompleted (S fuel) s = popCompleted fuel s.
Proof.
  revert s. induction fuel as [|fuel IH]; intros s Hd; [lia|].
  destruct (completed s) eqn:Hc.
  2:{ by rewrite !popCompleted_in_range. }
  destruct (prevState s) as [p|] eqn:Hp.
  - change (popCompleted (S (S fuel)) s) with
      (if completed s then s1 ← resume_parent (popRule s); popCompleted (S fuel) s1
       else Ok s).
    change (popCompleted (S fuel) s) with
      (if completed s then s1 ← resume_parent (popRule s); popCompleted fuel s1
       else Ok s).
    rewrite Hc.
    destruct (resume_parent (popRule s)) as [s1| | |] eqn:Hr; simpl; try done.
    apply IH. destruct (depth_resume_parent _ _ Hr) as [-> _].
    destruct (depth_popRule s p Hp) as [-> Hs]. lia.
  - by apply popCompleted_bottom.
Qed.

(** More fuel than the depth of the stack never changes what the first loop
    of [unsuccessful] gives. *)
Lemma unwind_fuel (fuel : nat) (s : State) :
  depth s < fuel -> unwind (S fuel) s = unwind fuel s.
Proof.
  revert s. induction fuel as [|fuel IH]; intros s Hd; [lia|].
  change (unwind (S (S fuel)) s) with
    (match rule s with
     | None => Ok s
     | Some _ => b ← at_ofRule s;
                 if b : bool then Ok s else unwind (S fuel) (popRule s)
     end).
  change (unwind (S fuel) s) with
    (match rule s with
     | None => Ok s
     | Some _ => b ← at_ofRule s;
                 if b : bool then Ok s else unwind fuel (popRule s)
     end).
  destruct (rule s) as [r|] eqn:Hr; [|done].
  destruct (at_ofRule s) as [[|]| | |] eqn:Hat; simpl; try done.
  destruct (prevState s) as [p|] eqn:Hp.
  - apply IH. destruct (depth_popRule s p Hp) as [-> Hs]. lia.
  - rewrite popRule_no_saved_frame by done.
    assert (Hz : depth s = 0) by (destruct s; simpl in *; by subst).
    destruct fuel as [|fuel]; [|apply IH; lia].
    simpl. rewrite Hr, Hat. simpl.
    rewrite popRule_no_saved_frame by done. by rewrite Hr, Hat.
Qed.

(** ** Failure recovery: [unsuccessful] *)

(** C4, as amended. For a state whose frames are in range, [unsuccessful]
    pops frames, none of them at an Optional/List step, until the stack is
    empty or the top frame's current position is an Optional/List element
    (it has [ofRule]), and then calls [advanceRule] with [successful=false]
    on that frame: the element is moved past (flag cleared, step incremented,
    completed frames popped), except that a List whose optional separator is
    pending only has its flag cleared and keeps its step. The call always
    returns, leaves the frames in range, and has no stream to consume
    from. *)
Theorem unsuccessful_unwinds_to_optional (s : State) (Hok : stack_ok s) :
  exists n s',
    unsuccessful s = Ok s' /\ stack_ok s' /\
    (forall k, k < n -> is_Some (rule (Nat.iter k popRule s)) /\
                        at_ofRule (Nat.iter k popRule s) = Ok false) /\
    ((rule (Nat.iter n popRule s) = None /\ s' = Nat.iter n popRule s) \/
     (at_ofRule (Nat.iter n popRule s) = Ok true /\
      advanceRule (Nat.iter n popRule s) false = Ok s' /\
      if at_list (Nat.iter n popRule s)
         && optional_separator_pending (Nat.iter n popRule s)
      then s' = set_needsSeperator false (Nat.iter n popRule s)
      else popCompleted (S (depth (Nat.iter n popRule s)))
             (set_step (S (step (Nat.iter n popRule s)))
                (set_needsSeperator false (Nat.iter n popRule s))) = Ok s')).
Proof.
  destruct (unwind_ok (S (depth s)) s ltac:(lia) Hok)
    as (n & Hun & Hokn & _ & Hbefore & Hstop).
  destruct (unsuccessful_ok s Hok) as (s' & Hs' & Hok').
  exists n, s'. repeat split; try done; try apply Hbefore; try done.
  unfold unsuccessful in Hs'. rewrite Hun in Hs'. simpl in Hs'.
  set (u := Nat.iter n popRule s) in *.
  destruct (rule u) as [r|] eqn:Hr.
  - right. destruct Hstop as [|Hat]; [done|]. split; [done|]. split; [done|].
    pose proof Hokn as Hf. apply stack_ok_unfold in Hf as [Hf _].
    destruct (frame_ok_isList u Hf) as [b Hb].
    rewrite (advanceRule_cases u false b Hb) in Hs'.
    unfold at_list. rewrite Hb. rewrite andb_false_r in Hs'.
    destruct b; simpl in *.
    + destruct (optional_separator_pending u); [by injection Hs'|done].
    + done.
  - left. split; [done|]. by injection Hs'.
Qed.

Lemma unsuccessful_unwinds_to_optional_witness :
  exists n s',
    unsuccessful Examples.fieldOpen = Ok s' /\ stack_ok s' /\
    (forall k, k < n ->
       is_Some (rule (Nat.iter k popRule Examples.fieldOpen)) /\
       at_ofRule (Nat.iter k popRule Examples.fieldOpen) = Ok false) /\
    ((rule (Nat.iter n popRule Examples.fieldOpen) = None /\
      s' = Nat.iter n popRule Examples.fieldOpen) \/
     (at_ofRule (Nat.iter n popRule Examples.fieldOpen) = Ok true /\
      advanceRule (Nat.iter n popRule Examples.fieldOpen) false = Ok s' /\
      if at_list (Nat.iter n popRule Examples.fieldOpen)
         && optional_separator_pending (Nat.iter n popRule Examples.fieldOpen)
      then s' = set_needsSeperator false (Nat.iter n popRule Examples.fieldOpen)
      else popCompleted (S (depth (Nat.iter n popRule Examples.fieldOpen)))
             (set_step (S (step (Nat.iter n popRule Examples.fieldOpen)))
                (set_needsSeperator false (Nat.iter n popRule Examples.fieldOpen)))
           = Ok s')).
Proof.
  apply (unsuccessful_unwinds_to_optional Examples.fieldOpen).
  simpl. unfold frame_ok. simpl. repeat split; try lia; by eexists.
Defined.

(** C4 as stated fails: at a List step whose optional separator is pending,
    [unsuccessful] pops nothing and does not move past the List element; it
    clears the pending flag and leaves the step where it was, so that the
    List item is tried next without a separator. *)
Lemma unsuccessful_keeps_list_step :
  at_ofRule Examples.variablesPending = Ok true /\
  unsuccessful Examples.variablesPending =
    Ok (set_needsSeperator false Examples.variablesPending) /\
  (forall s', unsuccessful Examples.variablesPending = Ok s' ->
     step s' = step Examples.variablesPending /\
     rule s' = rule Examples.variablesPending) /\
  unsuccessful Examples.variablesPending <>
    popCompleted (S (depth Examples.variablesPending))
      (set_step (S (step Examples.variablesPending))
         (set_needsSeperator false Examples.variablesPending)).
Proof.
  split; [reflexivity|]. split; [reflexivity|]. split.
  - intros s' [= <-]. by split.
  - vm_compute. intros H. injection H as H. discriminate H.
Qed.

(** ** Rules of the frames *)

Lemma all_rules_unfold (Q : ParseRule -> Prop) (s : State) :
  all_rules Q s <->
  from_option Q True (rule s) /\ from_option (all_rules Q) True (prevState s).
Proof. destruct s as [k n t r i b [p|] na il lv]; simpl; tauto. Qed.

Lemma all_rules_popRule Q (s : State) : all_rules Q s -> all_rules Q (popRule s).
Proof.
  intros H. unfold popRule. destruct (prevState s) as [p|] eqn:Hp; [|done].
  apply all_rules_unfold in H as [_ H]. rewrite Hp in H. simpl in H.
  apply all_rules_unfold in H. by apply all_rules_unfold.
Qed.

Lemma all_rules_iter_popRule Q (n : nat) (s : State) :
  all_rules Q s -> all_rules Q (Nat.iter n popRule s).
Proof. intros H. induction n; simpl; [done|]. by apply all_rules_popRule. Qed.

Lemma all_rules_set_step Q i (s : State) : all_rules Q s -> all_rules Q (set_step i s).
Proof. by destruct s. Qed.

Lemma all_rules_set_needsSeperator Q b (s : State) :
  all_rules Q s -> all_rules Q (set_needsSeperator b s).
Proof. by destruct s. Qed.

Lemma all_rules_set_needsAdvance Q b (s : State) :
  all_rules Q s -> all_rules Q (set_needsAdvance b s).
Proof. by destruct s. Qed.

Lemma all_rules_set_indentLevel Q i (s : State) :
  all_rules Q s -> all_rules Q (set_indentLevel i s).
Proof. by destruct s. Qed.

Lemma all_rules_set_levels Q l (s : State) :
  all_rules Q s -> all_rules Q (set_levels l s).
Proof. by destruct s. Qed.

Lemma all_rules_resume_parent Q (s s1 : State) :
  resume_parent s = Ok s1 -> all_rules Q s -> all_rules Q s1.
Proof.
  unfold resume_parent. intros H Hs.
  destruct (rule s); [|by injection H as <-].
  destruct (isList s) as [[|]| | |]; simpl in H; try discriminate.
  - destruct (truthy_opt _); injection H as <-;
      [by apply all_rules_set_needsSeperator|done].
  - injection H as <-. by apply all_rules_set_step, all_rules_set_needsSeperator.
Qed.

Lemma all_rules_popCompleted Q (fuel : nat) (s s' : State) :
  popCompleted fuel s = Ok s' -> all_rules Q s -> all_rules Q s'.
Proof.
  revert s. induction fuel as [|fuel IH]; intros s; simpl.
  - destruct (completed s); [discriminate|]. by intros [= <-].
  - destruct (completed s); [|by intros [= <-]].
    destruct (resume_parent (popRule s)) as [s1| | |] eqn:E; simpl; try discriminate.
    intros H Hs. apply (IH s1 H).
    eapply all_rules_resume_parent; [exact E|]. by apply all_rules_popRule.
Qed.

Lemma all_rules_advanceRule Q (s s' : State) (successful : bool) :
  advanceRule s successful = Ok s' -> all_rules Q s -> all_rules Q s'.
Proof.
  destruct (isList s) as [b| | |] eqn:Hb;
    try (unfold advanceRule; rewrite Hb; simpl; discriminate).
  rewrite (advanceRule_cases s successful b Hb). intros H Hs.
  destruct (b && optional_separator_pending s).
  { injection H as <-. by apply all_rules_set_needsSeperator. }
  destruct (b && successful).
  { injection H as <-. destruct (truthy_opt _); [|done].
    by apply all_rules_set_needsSeperator. }
  unfold advanceStep in H. apply (all_rules_popCompleted Q _ _ _ H).
  by apply all_rules_set_step, all_rules_set_needsSeperator.
Qed.

Lemma unwind_iter (fuel : nat) (s s' : State) :
  unwind fuel s = Ok s' -> exists n, s' = Nat.iter n popRule s.
Proof.
  revert s. induction fuel as [|fuel IH]; intros s; simpl.
  - destruct (rule s); [|intros [= <-]; by exists 0].
    destruct (at_ofRule s) as [[|]| | |]; simpl; try discriminate.
    intros [= <-]. by exists 0.
  - destruct (rule s); [|intros [= <-]; by exists 0].
    destruct (at_ofRule s) as [[|]| | |]; simpl; try discriminate.
    + intros [= <-]. by exists 0.
    + intros H. destruct (IH _ H) as [n ->]. exists (S n).
      by rewrite Nat.iter_succ_r.
Qed.

Lemma all_rules_unsuccessful Q (s s' : State) :
  unsuccessful s = Ok s' -> all_rules Q s -> all_rules Q s'.
Proof.
  unfold unsuccessful. intros H Hs.
  destruct (unwind (S (depth s)) s) as [u| | |] eqn:Hu; simpl in H; try discriminate.
  destruct (unwind_iter _ _ _ Hu) as [n ->].
  pose proof (all_rules_iter_popRule Q n s Hs) as Hn.
  destruct (rule (Nat.iter n popRule s)); [|by injection H as <-].
  by eapply all_rules_advanceRule.
Qed.

(** ** The loop turn by turn *)

Section LoopFacts.

Variable run_update : UpdateRef -> State -> Token -> State.
Variable options : ParserOptions.

Local Abbreviation G := (parseRules options).
Local Abbreviation loop := (grammarLoop run_update options).
Local Abbreviation accept := (acceptTerminal run_update).

Lemma grammarLoop_turn (fuel : nat) (token : Token) (st : CharacterStream)
    (s : State) :
  is_Some (rule s) ->
  loop (S fuel) token st s =
    match decide_action token st s with
    | APush n => s1 ← pushRule G s n; loop fuel token st s1
    | AMatch update style => s1 ← accept token update s; Ok (Some style, s1)
    | AFail => s1 ← unsuccessful s; loop fuel token st s1
    end.
Proof.
  intros [r Hr]. simpl. rewrite Hr. unfold decide_action.
  destruct (expectedOf token st s) as [e|]; [|done].
  destruct (truthy e); [|done].
  destruct (unwrap e); [done|].
  by destruct (from_option _ _ _).
Qed.

(** Once the loop ends within its fuel, more fuel gives the same result. *)
Lemma grammarLoop_more_fuel (fuel : nat) (token : Token) (st : CharacterStream)
    (s : State) :
  loop fuel token st s <> OutOfFuel ->
  loop (S fuel) token st s = loop fuel token st s.
Proof.
  revert s. induction fuel as [|fuel IH]; intros s Hne.
  - destruct (rule s) eqn:Hr; [simpl in Hne; by rewrite Hr in Hne|].
    by rewrite !grammarLoop_exit.
  - destruct (rule s) eqn:Hr; [|by rewrite !grammarLoop_exit].
    rewrite grammarLoop_turn in Hne by eauto. rewrite !grammarLoop_turn by eauto.
    destruct (decide_action token st s) as [n|u sty|]; [|done|].
    + destruct (pushRule _ s n) as [s1| | |]; simpl in *; try done. by apply IH.
    + destruct (unsuccessful s) as [s1| | |]; simpl in *; try done. by apply IH.
Qed.

Lemma expectedOf_current (token : Token) (st : CharacterStream) (s : State) :
  expectedOf token st s =
    if needsSeperator s
    then (if truthy_opt (current token st s)
          then current token st s ≫= get_separator else current token st s)
    else current token st s.
Proof. reflexivity. Qed.

(** The name pushed in a turn is one of the names that can be pushed at the
    current element. *)
Lemma decide_action_push (token : Token) (st : CharacterStream) (s : State)
    (n : string) :
  decide_action token st s = APush n ->
  exists e, current token st s = Some e /\ n ∈ pushable e /\
    ((needsSeperator s = false /\ pushes e = Some n) \/
     (needsSeperator s = true /\ truthy e = true /\
      exists sp, get_separator e = Some sp /\ pushes sp = Some n)).
Proof.
  unfold decide_action. rewrite expectedOf_current.
  destruct (needsSeperator s).
  - destruct (current token st s) as [e|]; simpl; [|done].
    destruct (truthy e) eqn:Ht.
    + destruct (get_separator e) as [sp|] eqn:Hsp; [|done].
      destruct (truthy sp) eqn:Hts; [|done].
      destruct (unwrap sp) as [m|] eqn:Hu; [|by destruct (from_option _ _ _)].
      intros [= ->]. exists e. split; [done|].
      assert (Hp : pushes sp = Some n) by (unfold pushes; by rewrite Hts, Hu).
      split; [|right; eauto].
      unfold pushable. rewrite Ht, Hsp. simpl. rewrite Hp.
      apply elem_of_app. right. by left.
    + by rewrite Ht.
  - destruct (current token st s) as [e|]; [|done].
    destruct (truthy e) eqn:Ht; [|done].
    destruct (unwrap e) as [m|] eqn:Hu; [|by destruct (from_option _ _ _)].
    intros [= ->]. exists e. split; [done|].
    assert (Hp : pushes e = Some n) by (unfold pushes; by rewrite Ht, Hu).
    split; [|left; eauto].
    unfold pushable. rewrite Hp. apply elem_of_app. left. by left.
Qed.

Lemma current_closed (token : Token) (st : CharacterStream) (s : State) (e : Rule) :
  all_rules (rule_closed G) s -> current token st s = Some e -> elem_closed G e.
Proof.
  intros Hs He. apply all_rules_unfold in Hs as [Hs _].
  unfold current in He. destruct (rule s) as [[elems|a f]|]; simpl in Hs; [| |done].
  - eapply Forall_lookup_1; eauto.
  - destruct (bool_decide _); [|done]. eauto.
Qed.

(** A frame pushed for a rule of a table without empty rules is in
    range. *)
Lemma pushRule_ok (s s1 : State) (n : string) :
  table_nonempty G -> table_closed G ->
  stack_ok s -> all_rules (rule_closed G) s ->
  pushRule G s n = Ok s1 ->
  stack_ok s1 /\ all_rules (rule_closed G) s1.
Proof.
  intros Hne Hcl Hok Hs. unfold pushRule, clone.
  destruct (G !! n) as [r|] eqn:Hr; [|done]. intros [= <-].
  split.
  - apply stack_ok_unfold. simpl. split; [|done]. unfold frame_ok. simpl.
    destruct r as [elems|a f]; [|by eexists].
    split; [|by eexists]. destruct elems; [by apply Hne in Hr|simpl; lia].
  - apply all_rules_unfold. simpl. split; [by eapply Hcl|done].
Qed.

Hypothesis Hnonempty : table_nonempty G.
Hypothesis Hclosed : table_closed G.
Hypothesis Hhooks : hooks_keep_frames run_update options.

(** With every pushed name present, no empty rule and frames in range, the
    grammar loop raises nothing and never spins; when it returns from a
    Terminal match the frames are in range again. *)
Lemma grammarLoop_safe (fuel : nat) (token : Token) (st : CharacterStream)
    (s : State) :
  stack_ok s -> all_rules (rule_closed G) s ->
  loop fuel token st s = OutOfFuel \/
  (exists s', loop fuel token st s = Ok (None, s')) \/
  (exists sty s', loop fuel token st s = Ok (Some sty, s') /\
     stack_ok s' /\ all_rules (rule_closed G) s').
Proof.
  revert s. induction fuel as [|fuel IH]; intros s Hok Hs.
  - simpl. destruct (rule s); [by left|right; left; eauto].
  - destruct (rule s) as [r|] eqn:Hr;
      [|right; left; rewrite grammarLoop_exit; eauto].
    rewrite grammarLoop_turn by eauto.
    destruct (decide_action token st s) as [n|u sty|] eqn:Ha.
    + destruct (decide_action_push _ _ _ _ Ha) as (e & He & Hin & _).
      pose proof (current_closed _ _ _ _ Hs He) as Hce.
      unfold elem_closed in Hce. rewrite Forall_forall in Hce.
      destruct (Hce n Hin) as [r' Hr'].
      rewrite (pushRule_known _ _ _ _ Hr'). simpl.
      apply IH; eapply pushRule_ok; eauto using pushRule_known.
    + right; right. unfold acceptTerminal.
      assert (Hu : stack_ok (match u with Some h => run_update h s token | None => s end)
                   /\ all_rules (rule_closed G)
                        (match u with Some h => run_update h s token | None => s end)).
      { destruct u; [by apply Hhooks|done]. }
      destruct Hu as [Hu1 Hu2].
      destruct (String.eqb (tkind token) "Punctuation").
      * destruct (advanceRule_ok _ true Hu1) as (s' & Hs' & Hok').
        rewrite Hs'. simpl. exists sty, s'. split; [done|]. split; [done|].
        by eapply all_rules_advanceRule.
      * simpl. eexists _, _. split; [done|].
        split; [by apply stack_ok_set_needsAdvance|by apply all_rules_set_needsAdvance].
    + destruct (unsuccessful_ok s Hok) as (s' & Hs' & Hok').
      rewrite Hs'. simpl. apply IH; [done|]. by eapply all_rules_unsuccessful.
Qed.

End LoopFacts.

(** ** Calls of [getToken] on the states the parser hands out *)

Lemma stack_ok_handleLevels (token : Token) (s : State) :
  stack_ok s -> stack_ok (handleLevels token s).
Proof.
  intros H. unfold handleLevels.
  destruct (String.eqb _ _); [|done].
  destruct (opens_bracket _); [by apply stack_ok_set_levels|].
  destruct (closes_bracket _); [|done].
  destruct (bool_decide _); [by apply stack_ok_set_levels|].
  destruct (last _); [|by apply stack_ok_set_levels].
  destruct (bool_decide _); [|by apply stack_ok_set_levels].
  by apply stack_ok_set_indentLevel, stack_ok_set_levels.
Qed.

Lemma all_rules_handleLevels Q (token : Token) (s : State) :
  all_rules Q s -> all_rules Q (handleLevels token s).
Proof.
  intros H. unfold handleLevels.
  destruct (String.eqb _ _); [|done].
  destruct (opens_bracket _); [by apply all_rules_set_levels|].
  destruct (closes_bracket _); [|done].
  destruct (bool_decide _); [by apply all_rules_set_levels|].
  destruct (last _); [|by apply all_rules_set_levels].
  destruct (bool_decide _); [|by apply all_rules_set_levels].
  by apply all_rules_set_indentLevel, all_rules_set_levels.
Qed.

Lemma resumeState_ok Q (s : State) :
  entry_ok s -> all_rules Q s ->
  exists s1, resumeState s = Ok s1 /\ stack_ok s1 /\ all_rules Q s1.
Proof.
  intros Hentry Hs. unfold resumeState.
  destruct (from_option _ false (rule s)) eqn:Hlen.
  - eexists. split; [reflexivity|]. split; [|by apply all_rules_popRule].
    destruct Hentry as [Hok|(Hr & p & Hp & Hok)]; [by apply stack_ok_popRule|].
    unfold popRule. rewrite Hp.
    apply stack_ok_unfold in Hok as [Hf Hrest]. apply stack_ok_unfold. by split.
  - assert (Hok : stack_ok s).
    { destruct Hentry as [Hok|(Hr & _)]; [done|]. rewrite Hr in Hlen. done. }
    destruct (needsAdvance s); [|eauto].
    destruct (advanceRule_ok (set_needsAdvance false s) true
                (stack_ok_set_needsAdvance _ _ Hok)) as (s1 & Hs1 & Hok1).
    exists s1. split; [done|]. split; [done|].
    eapply all_rules_advanceRule; [exact Hs1|]. by apply all_rules_set_needsAdvance.
Qed.

Lemma pushRule_sentinel Q (s : State) (k : string) :
  k = "Invalid" \/ k = "Comment" ->
  stack_ok s -> all_rules Q s -> Q (Seq []) ->
  exists s', pushRule SpecialParseRules s k = Ok s' /\
    entry_ok s' /\ all_rules Q s' /\ prevState s' = Some s /\
    rule s' = Some (Seq []).
Proof.
  intros Hk Hok Hs Hq.
  assert (Hl : SpecialParseRules !! k = Some (Seq [])) by (by destruct Hk as [-> | ->]).
  rewrite (pushRule_known _ _ _ _ Hl). eexists. split; [reflexivity|].
  split; [right; split; [done|]; by exists s|].
  split; [|done]. apply all_rules_unfold. by split.
Qed.

Section Safety.

Variable run_update : UpdateRef -> State -> Token -> State.
Variable options : ParserOptions.

Local Abbreviation G := (parseRules options).

Hypothesis Hnonempty : table_nonempty G.
Hypothesis Hclosed : table_closed G.
Hypothesis Hhooks : hooks_keep_frames run_update options.

Lemma rule_closed_empty : rule_closed G (Seq []).
Proof. by constructor. Qed.

(** A call of [getToken] on a state in range, with the rules of its frames
    closed, raises nothing and hands out such a state again. *)
Lemma getToken_safe (fuel : nat) (st : CharacterStream) (s : State) :
  entry_ok s -> all_rules (rule_closed G) s ->
  getToken run_update options fuel st s = OutOfFuel \/
  exists sty st' s',
    getToken run_update options fuel st s = Ok (sty, st', s') /\
    entry_ok s' /\ all_rules (rule_closed G) s'.
Proof.
  intros Hentry Hs. unfold getToken.
  destruct (resumeState_ok _ s Hentry Hs) as (s1 & -> & Hok1 & Hs1). simpl.
  assert (Hok2 : stack_ok (rememberIndent options st s1)).
  { unfold rememberIndent. destruct (sol st); [by apply stack_ok_set_indentLevel|done]. }
  assert (Hs2 : all_rules (rule_closed G) (rememberIndent options st s1)).
  { unfold rememberIndent. destruct (sol st); [by apply all_rules_set_indentLevel|done]. }
  destruct (eatWhitespace options st) as [[|] st1].
  { right. eexists _, _, _. split; [reflexivity|]. split; [by left|done]. }
  destruct (lex (lexRules options) st1) as [[token|] st2].
  - destruct (String.eqb (tkind token) "Comment").
    + destruct (pushRule_sentinel _ _ "Comment" ltac:(by right) Hok2 Hs2 rule_closed_empty)
        as (s3 & -> & He3 & Hs3 & _).
      right. simpl. eexists _, _, _. eauto.
    + destruct (grammarLoop_safe run_update options Hnonempty Hclosed Hhooks fuel token
                  st2 _ (stack_ok_handleLevels token _ Hok2)
                  (all_rules_handleLevels _ token _ Hs2))
        as [-> | [(s4 & ->) | (sty & s4 & -> & Hok4 & Hs4)]].
      * by left.
      * destruct (pushRule_sentinel _ _ "Invalid" ltac:(by left) Hok2 Hs2 rule_closed_empty)
          as (s5 & Hs5 & He5 & Hc5 & _).
        right. simpl. rewrite Hs5. simpl. eexists _, _, _. eauto.
      * right. simpl. eexists _, _, _. split; [reflexivity|]. split; [by left|done].
  - destruct (pushRule_sentinel _ _ "Invalid" ltac:(by left) Hok2 Hs2 rule_closed_empty)
      as (s3 & -> & He3 & Hs3 & _).
    right. simpl. eexists _, _, _. eauto.
Qed.

Lemma reachable_entry_ok (s : State) :
  reachable run_update options s -> entry_ok s /\ all_rules (rule_closed G) s.
Proof.
  induction 1 as [s Hstart|s0 s fuel st st' sty _ [He Hs] Hget].
  - unfold startState in Hstart.
    destruct (pushRule_ok options newState s "Document" Hnonempty Hclosed) as [Hok Hc];
      try done.
    by split; [left|].
  - destruct (getToken_safe fuel st s0 He Hs) as [Hout|(sty' & st'' & s' & Hget' & He' & Hs')].
    + congruence.
    + rewrite Hget in Hget'. injection Hget' as <- <- <-. done.
Qed.

End Safety.

(** C2, as amended. When every rule name the loop can push from the parse
    table is present in it, no rule of the parse table is an empty array,
    and the [update] hooks keep the frames in range, [getToken] raises no
    exception on any state reachable from [startState], for any stream: the
    reachable states have every array-rule frame at a valid index (below a
    possible sentinel frame), so the recovery loop of [unsuccessful] never
    reads [ofRule] off a missing element; the call hands out such a state
    again (or the bound on the loop turns is reached). *)
Theorem getToken_raises_nothing (run_update : UpdateRef -> State -> Token -> State)
    (options : ParserOptions)
    (Hnonempty : table_nonempty (parseRules options))
    (Hclosed : table_closed (parseRules options))
    (Hhooks : hooks_keep_frames run_update options)
    (s : State) (Hreach : reachable run_update options s)
    (fuel : nat) (st : CharacterStream) :
  entry_ok s /\
  (getToken run_update options fuel st s = OutOfFuel \/
   exists sty st' s',
     getToken run_update options fuel st s = Ok (sty, st', s') /\ entry_ok s') /\
  (forall e, getToken run_update options fuel st s <> Throw e) /\
  getToken run_update options fuel st s <> Spin.
Proof.
  destruct (reachable_entry_ok run_update options Hnonempty Hclosed Hhooks s Hreach)
    as [He Hs].
  split; [done|].
  destruct (getToken_safe run_update options Hnonempty Hclosed Hhooks fuel st s He Hs)
    as [Hout|(sty & st' & s' & Hget & He' & _)].
  - split; [by left|]. rewrite Hout. by split.
  - split; [right; eauto|]. rewrite Hget. by split.
Qed.

Lemma braces_lookup (n : string) (r : ParseRule) :
  Examples.braces !! n = Some r ->
  r = Seq [Examples.punct "{";
           Examples.list_of (RName "Field") (Some (Examples.punct ","));
           Examples.punct "}"] \/
  r = Seq [Examples.term "Name" "property"].
Proof.
  unfold Examples.braces. intros H.
  apply lookup_insert_Some in H as [[_ <-]|[_ H]]; [by left|].
  apply lookup_insert_Some in H as [[_ <-]|[_ H]]; [by right|].
  by rewrite lookup_empty in H.
Qed.

Lemma braces_nonempty : table_nonempty Examples.braces.
Proof. intros n r H. by destruct (braces_lookup n r H) as [-> | ->]. Qed.

Lemma braces_closed : table_closed Examples.braces.
Proof.
  intros n r H. destruct (braces_lookup n r H) as [-> | ->]; simpl.
  - repeat constructor. by eexists.
  - repeat constructor.
Qed.

Lemma noUpdate_keeps_frames (options : ParserOptions) :
  hooks_keep_frames Examples.noUpdate options.
Proof. by intros h s token. Qed.

Lemma getToken_raises_nothing_witness :
  (forall e, getToken Examples.noUpdate Examples.bracesOptions 5
               (mkStream "{name}" 0) Examples.bracesStart <> Throw e) /\
  getToken Examples.noUpdate Examples.bracesOptions 5
    (mkStream "{name}" 0) Examples.bracesStart <> Spin.
Proof.
  exact (proj2 (proj2 (getToken_raises_nothing Examples.noUpdate Examples.bracesOptions
           braces_nonempty braces_closed (noUpdate_keeps_frames _)
           Examples.bracesStart
           (reach_start Examples.noUpdate Examples.bracesOptions _ eq_refl)
           5 (mkStream "{name}" 0)))).
Defined.

Lemma emptyRule_closed : table_closed Examples.emptyRule.
Proof.
  intros n r H. unfold Examples.emptyRule in H.
  apply lookup_insert_Some in H as [[_ <-]|[_ H]].
  { simpl. repeat constructor. by eexists. }
  apply lookup_insert_Some in H as [[_ <-]|[_ H]]; [by constructor|].
  by rewrite lookup_empty in H.
Qed.

(** C2 as stated fails: in the table Document = [Foo], Foo = [] every
    referenced name is present; on the start state and the stream "x" the
    loop pushes the empty rule Foo, finds nothing expected, and the recovery
    loop of [unsuccessful] reads [ofRule] off the missing element at index 0
    of the empty array. *)
Lemma getToken_empty_rule_raises :
  table_closed Examples.emptyRule /\
  startState Examples.emptyRuleOptions = Ok Examples.emptyRuleStart /\
  reachable Examples.noUpdate Examples.emptyRuleOptions Examples.emptyRuleStart /\
  getToken Examples.noUpdate Examples.emptyRuleOptions 5 (mkStream "x" 0)
    Examples.emptyRuleStart = Throw UndefinedProperty.
Proof.
  split; [exact emptyRule_closed|]. split; [reflexivity|].
  split; [by apply reach_start|]. reflexivity.
Qed.

(** ** The grammar loop terminates *)

Lemma same_frame_inv (s t : State) :
  same_frame s t ->
  s = mkState (kind s) (name s) (type s) (rule t) (step t) (needsSeperator t)
              (prevState t) (needsAdvance s) (indentLevel s) (levels s).
Proof. destruct s. unfold same_frame. simpl. by intros (-> & -> & -> & ->). Qed.

Lemma same_frame_popRule (s p : State) :
  prevState s = Some p -> same_frame (popRule s) p.
Proof. intros H. unfold popRule. by rewrite H. Qed.

Ltac by_same_frame H :=
  rewrite (same_frame_inv _ _ H);
  match type of H with same_frame _ ?t => destruct t end; reflexivity.

Lemma same_frame_stack_ok (s t : State) : same_frame s t -> stack_ok s <-> stack_ok t.
Proof. intros H. rewrite !stack_ok_unfold. unfold frame_ok.
  destruct H as (-> & -> & _ & ->). done. Qed.

Lemma same_frame_depth (s t : State) : same_frame s t -> depth s = depth t.
Proof. intros H. by_same_frame H. Qed.

Lemma same_frame_all_rules Q (s t : State) :
  same_frame s t -> all_rules Q s <-> all_rules Q t.
Proof. intros H. rewrite !all_rules_unfold. by destruct H as (-> & _ & _ & ->). Qed.

Lemma same_frame_pinned G (s t : State) : same_frame s t -> pinned G s <-> pinned G t.
Proof. intros H. unfold pinned. by destruct H as (-> & -> & -> & _). Qed.

Lemma same_frame_fresh_ok G (d : nat) (s t : State) :
  same_frame s t -> fresh_ok G d s <-> fresh_ok G d t.
Proof.
  intros H. rewrite (same_frame_inv _ _ H). destruct t. by destruct d.
Qed.

Section MeasureFacts.

Variable W : string -> nat.
Variable token : Token.
Variable st : CharacterStream.

Local Abbreviation tail := (tail_cost W).
Local Abbreviation top := (top_cost W token st).
Local Abbreviation below := (parent_cost W).
Local Abbreviation belows := (parents_cost W).
Local Abbreviation measure := (loop_measure W token st).

Lemma same_frame_top (s t : State) : same_frame s t -> top s = top t.
Proof. intros H. by_same_frame H. Qed.

Lemma same_frame_belows (s t : State) : same_frame s t -> belows s = belows t.
Proof. intros H. by_same_frame H. Qed.

Lemma same_frame_measure (s t : State) : same_frame s t -> measure s = measure t.
Proof. intros H. by_same_frame H. Qed.

Lemma belows_unfold (s : State) :
  belows s = below s + from_option belows 0 (prevState s).
Proof. by destruct s as [k n t r i b [p|] na il lv]. Qed.

Lemma measure_unfold (s : State) :
  measure s = top s + from_option belows 0 (prevState s).
Proof. reflexivity. Qed.

Lemma belows_popRule_le (s : State) : belows (popRule s) <= belows s.
Proof.
  destruct (prevState s) as [p|] eqn:Hp.
  - rewrite (same_frame_belows _ _ (same_frame_popRule s p Hp)).
    rewrite (belows_unfold s), Hp. simpl. lia.
  - by rewrite popRule_no_saved_frame.
Qed.

Lemma belows_iter_popRule_le (n : nat) (s : State) :
  belows (Nat.iter n popRule s) <= belows s.
Proof.
  induction n; simpl; [lia|].
  etrans; [apply belows_popRule_le|done].
Qed.

Lemma tail_in_range (elems : list Rule) (i : nat) :
  i < length elems -> 1 <= tail (drop i elems).
Proof.
  intros Hi. apply lookup_lt_is_Some_2 in Hi as [e He].
  rewrite (drop_S _ _ _ He). simpl. destruct (blocking e); lia.
Qed.

(** A frame in range with a rule costs at least 1 on top and 2 below. *)
Lemma top_positive (s : State) : frame_ok s -> is_Some (rule s) -> 1 <= top s.
Proof.
  unfold frame_ok, top_cost. intros Hf [r Hr]. rewrite Hr in *.
  destruct r as [elems|a f].
  - destruct Hf as [Hi _]. pose proof (tail_in_range elems _ Hi).
    destruct (needsSeperator s); lia.
  - destruct (bool_decide _); lia.
Qed.

Lemma below_positive (s : State) : is_Some (rule s) -> 2 <= below s.
Proof.
  unfold parent_cost. intros [r ->]. destruct r; [|done].
  destruct (needsSeperator s); lia.
Qed.

Lemma at_ofRule_true_inv (s : State) :
  at_ofRule s = Ok true ->
  exists elems e, rule s = Some (Seq elems) /\ elems !! step s = Some e /\
    truthy_opt (get_ofRule e) = true /\ blocking e = false.
Proof.
  unfold at_ofRule. destruct (rule s) as [[elems|a f]|]; try done.
  destruct (elems !! step s) as [e|] eqn:He; [|done].
  intros [= Ht]. exists elems, e. repeat split; try done.
  destruct e as [n|o l sp m u sty]; simpl in *; [done|]. by rewrite Ht.
Qed.

(** At an Optional/List step the frame costs less below than on top. *)
Lemma below_lt_top (s : State) : at_ofRule s = Ok true -> below s < top s.
Proof.
  intros H. destruct (at_ofRule_true_inv s H) as (elems & e & Hr & He & _ & Hb).
  unfold parent_cost, top_cost. rewrite Hr.
  rewrite (drop_S _ _ _ He). simpl. rewrite Hb.
  destruct (needsSeperator s); lia.
Qed.

(** The advanced frame on top costs less than the frame below. *)
Lemma top_advance_lt_below (s : State) :
  is_Some (rule s) ->
  top (set_step (S (step s)) (set_needsSeperator false s)) < below s.
Proof.
  intros [r Hr]. unfold top_cost, parent_cost. simpl. rewrite Hr.
  destruct r as [elems|a f]; [|simpl; lia].
  destruct (needsSeperator s); lia.
Qed.

(** A List frame whose separator was pending costs less on top, with the
    flag cleared, than below. *)
Lemma top_cleared_lt_below (s : State) :
  needsSeperator s = true -> at_list s = true ->
  top (set_needsSeperator false s) < below s.
Proof.
  intros Hb Hl. unfold at_list in Hl.
  destruct (isList s) as [[|]| | |] eqn:Hi; try done.
  destruct (isList_true_inv s Hi) as (elems & o & sp & m & u & sty & Hr & _).
  unfold top_cost, parent_cost. simpl. rewrite Hr, Hb. lia.
Qed.

(** A List frame whose flag is set while it declares no separator costs, on
    top, less than below plus 2. *)
Lemma top_no_separator_le (s : State) :
  needsSeperator s = true -> at_list s = true ->
  truthy_opt (step_separator s) = false ->
  top s < below s + 2.
Proof.
  intros Hb Hl Hsep. unfold at_list in Hl.
  destruct (isList s) as [[|]| | |] eqn:Hi; try done.
  destruct (isList_true_inv s Hi) as (elems & o & sp & m & u & sty & Hr & He & Hs).
  unfold top_cost, parent_cost. rewrite Hr, Hb, He. simpl.
  rewrite Hs in Hsep. unfold wsep. simpl.
  destruct sp as [x|]; simpl in *; [|lia].
  unfold wpush, pushes. rewrite Hsep. simpl. lia.
Qed.

End MeasureFacts.

Lemma fresh_ok_depth G (d : nat) (s : State) : fresh_ok G d s -> d <= depth s.
Proof.
  revert s. induction d as [|d IH]; intros s; simpl; [lia|].
  intros [_ H]. destruct s as [k n t r i b [p|] na il lv]; simpl in *; [|done].
  destruct H as [_ H]. apply IH in H. lia.
Qed.

Lemma fresh_ok_S_inv G (d : nat) (s : State) :
  fresh_ok G (S d) s ->
  needsSeperator s = false /\
  exists p, prevState s = Some p /\ fresh_ok G d p /\
    ((at_list p = true /\ needsSeperator p = false) \/ pinned G p -> pinned G s).
Proof.
  simpl. intros [Hn H]. split; [done|].
  destruct (prevState s) as [p|]; [|done]. exists p. tauto.
Qed.

Lemma fresh_ok_pred G (d : nat) (s p : State) :
  fresh_ok G d s -> prevState s = Some p -> fresh_ok G (pred d) p.
Proof.
  destruct d; [done|]. intros H Hp.
  destruct (fresh_ok_S_inv G d s H) as (_ & p' & Hp' & Hf & _).
  simpl. congruence.
Qed.

Lemma advanced_same_parents (s : State) :
  prevState (advanced s) = prevState s /\ rule (advanced s) = rule s /\
  needsSeperator (advanced s) = false /\ step (advanced s) = S (step s) /\
  depth (advanced s) = depth s.
Proof. by destruct s. Qed.

Section Termination.

Variable W : string -> nat.
Variable token : Token.
Variable st : CharacterStream.
Variable G : gmap string ParseRule.

Local Abbreviation top := (top_cost W token st).
Local Abbreviation below := (parent_cost W).
Local Abbreviation belows := (parents_cost W).
Local Abbreviation measure := (loop_measure W token st).

(** Advancing a frame that stays in range. *)
Lemma advanced_in_range (x : State) (d : nat) :
  fresh_ok G d x -> is_Some (rule x) -> (1 <= d -> ~ pinned G x) ->
  fresh_ok G d (advanced x) /\ measure (advanced x) < belows x.
Proof.
  intros Hfresh Hrule Hpin. split.
  - destruct d as [|d]; [done|].
    destruct (fresh_ok_S_inv G d x Hfresh) as (_ & p & Hp & Hf & Himp).
    simpl. split; [done|].
    destruct x; simpl in *. rewrite Hp. split; [|done].
    intros Hprem. exfalso. apply Hpin; [lia|]. by apply Himp.
  - rewrite measure_unfold, belows_unfold.
    destruct (advanced_same_parents x) as (-> & _).
    pose proof (top_advance_lt_below W token st x Hrule). unfold advanced. lia.
Qed.

Lemma stack_ok_prev (x : State) :
  stack_ok x -> is_Some (rule x) ->
  exists p, prevState x = Some p /\ stack_ok p /\ depth x = S (depth p).
Proof.
  intros Hok Hr. destruct (stack_ok_parents_ok x Hok) as [Hsome Hrest].
  destruct (Hsome Hr) as [p Hp]. rewrite Hp in Hrest. exists p.
  split; [done|]. split; [done|]. destruct x; simpl in *. by rewrite Hp.
Qed.

(** The second loop of [advanceRule], started on an advanced frame: either a
    frame that was on the stack before the loop is popped, or the measure
    ends below the cost of the frames as they were. *)
Lemma popCompleted_decreases (fuel : nat) (x : State) (d : nat) (s' : State) :
  stack_ok x -> fresh_ok G d x -> is_Some (rule x) -> (1 <= d -> ~ pinned G x) ->
  popCompleted fuel (advanced x) = Ok s' ->
  exists d', fresh_ok G d' s' /\ progress d' s' (measure s') d x (belows x).
Proof.
  revert x d. induction fuel as [|fuel IH]; intros x d Hok Hfresh Hrule Hpin Hpop.
  all: destruct (advanced_same_parents x) as (Hap & Har & Han & Has & Had).
  all: destruct (completed (advanced x)) eqn:Hc;
    [|rewrite popCompleted_in_range in Hpop by exact Hc; injection Hpop as <-;
      destruct (advanced_in_range x d Hfresh Hrule Hpin) as [Hf Hm];
      exists d; split; [done|]; right; split; [by rewrite Had|done]].
  { simpl in Hpop. by rewrite Hc in Hpop. }
  simpl in Hpop. rewrite Hc in Hpop.
  destruct (stack_ok_prev x Hok Hrule) as (p & Hp & Hokp & Hdx).
  assert (Hy : same_frame (popRule (advanced x)) p).
  { apply same_frame_popRule. by rewrite Hap. }
  set (y := popRule (advanced x)) in *.
  assert (Hoky : stack_ok y) by (by apply (same_frame_stack_ok y p Hy)).
  assert (Hdy : depth y = depth p) by (by apply same_frame_depth).
  assert (Hfy : fresh_ok G (pred d) y).
  { apply (same_frame_fresh_ok G _ y p Hy). by eapply fresh_ok_pred. }
  assert (Hby : belows y = belows p) by (by apply same_frame_belows).
  assert (Hbx : belows x = below x + belows p).
  { rewrite (belows_unfold W x), Hp. done. }
  pose proof (below_positive W x Hrule) as Hx2.
  unfold resume_parent in Hpop.
  destruct (rule y) as [ry|] eqn:Hry.
  - pose proof Hoky as Hfo. apply stack_ok_unfold in Hfo as [Hfo _].
    destruct (frame_ok_isList y Hfo) as [b Hb]. rewrite Hb in Hpop. simpl in Hpop.
    destruct b.
    + (* the exposed frame is at a List step *)
      assert (Hly : at_list y = true) by (unfold at_list; by rewrite Hb).
      assert (Hs' : exists s1, s' = s1 /\ depth s1 = depth y /\
                 prevState s1 = prevState y /\
                 (needsSeperator y = true -> measure s1 < below x + belows y)).
      { destruct (truthy_opt (step_separator y)) eqn:Hsep; simpl in Hpop.
        - rewrite popCompleted_in_range in Hpop.
          2:{ apply isList_true_in_range. by destruct y. }
          injection Hpop as <-. eexists. split; [done|].
          split; [by destruct y|]. split; [by destruct y|].
          intros Hn. rewrite Hn. simpl.
          pose proof (top_cleared_lt_below W token st y Hn Hly) as Ht.
          rewrite measure_unfold. rewrite (belows_unfold W y).
          replace (prevState (set_needsSeperator false y)) with (prevState y)
            by (by destruct y). lia.
        - rewrite popCompleted_in_range in Hpop by (by apply isList_true_in_range).
          injection Hpop as <-. eexists. split; [done|]. split; [done|]. split; [done|].
          intros Hn. pose proof (top_no_separator_le W token st y Hn Hly Hsep) as Ht.
          rewrite measure_unfold. rewrite (belows_unfold W y). lia. }
      destruct Hs' as (s1 & -> & Hd1 & Hp1 & Hm1).
      exists 0. split; [done|].
      destruct d as [|d]; [left; lia|].
      destruct (fresh_ok_S_inv G d x Hfresh) as (_ & p' & Hp' & Hfp & Himp).
      assert (p' = p) as -> by congruence.
      assert (Hnp : needsSeperator p = true).
      { destruct (needsSeperator p) eqn:Hn; [done|]. exfalso. apply Hpin; [lia|].
        apply Himp. left. split; [|done].
        rewrite <- Hly. unfold at_list, isList.
        by destruct Hy as (-> & -> & _). }
      destruct d as [|d].
      * right. split; [lia|]. rewrite Hbx, <- Hby. apply Hm1.
        destruct Hy as (_ & _ & -> & _). done.
      * simpl in Hfp. destruct Hfp as [Hfp _]. congruence.
    + (* the exposed frame is advanced in turn *)
      destruct (IH y (pred d) Hoky Hfy ltac:(eauto)) as (d' & Hf' & Hprog);
        [|exact Hpop|].
      { intros Hd. destruct d as [|d]; [simpl in Hd; lia|].
        destruct (fresh_ok_S_inv G d x Hfresh) as (_ & p' & Hp' & _ & Himp).
        assert (p' = p) as -> by congruence.
        intros Hpy. apply Hpin; [lia|]. apply Himp. right.
        by apply (same_frame_pinned G y p Hy). }
      exists d'. split; [done|].
      unfold progress in *. destruct d as [|d]; simpl in Hprog.
      * left. lia.
      * destruct Hprog as [Hl|[He Hm]]; [left; lia|right; split; [lia|]]. lia.
  - (* the stack is empty below *)
    simpl in Hpop.
    rewrite popCompleted_in_range in Hpop
      by (unfold completed; by rewrite Hry).
    injection Hpop as <-.
    exists (pred d). split; [done|].
    destruct d as [|d]; [left; simpl; lia|].
    right. split; [simpl; lia|].
    rewrite Hbx, <- Hby, (belows_unfold W y), measure_unfold.
    assert (top y = 0) as -> by (unfold top_cost; by rewrite Hry).
    assert (below y = 0) as -> by (unfold parent_cost; by rewrite Hry).
    lia.
Qed.

Lemma fresh_ok_popRule (d : nat) (x : State) :
  fresh_ok G d x -> fresh_ok G (pred d) (popRule x).
Proof.
  intros H. destruct (prevState x) as [p|] eqn:Hp.
  - apply (same_frame_fresh_ok G _ _ p (same_frame_popRule x p Hp)).
    by eapply fresh_ok_pred.
  - rewrite popRule_no_saved_frame by done.
    destruct d; [done|]. simpl in H. rewrite Hp in H. tauto.
Qed.

Lemma fresh_ok_iter_popRule (n d : nat) (x : State) :
  fresh_ok G d x -> fresh_ok G (d - n) (Nat.iter n popRule x).
Proof.
  induction n as [|n IH]; intros H; simpl.
  - by rewrite Nat.sub_0_r.
  - replace (d - S n) with (pred (d - n)) by lia. by apply fresh_ok_popRule, IH.
Qed.

(** A pinned frame is not at an Optional/List step. *)
Lemma pinned_not_ofRule (s : State) : pinned G s -> at_ofRule s <> Ok true.
Proof.
  intros (Hs & _ & r & Hr & Hg). unfold at_ofRule. rewrite Hr, Hs.
  destruct Hg as [|e others Hb|m others _|a f _]; simpl; try done.
  destruct e as [n|o l sp mt u sty]; simpl in *; [done|].
  destruct (truthy_opt o); [done|]. done.
Qed.

(** The frames left by [n] pops cost no more than the frames below the
    top, and those cost less than the measure. *)
Lemma belows_after_pops (n : nat) (s : State) :
  stack_ok s -> is_Some (rule s) -> 1 <= n ->
  belows (Nat.iter n popRule s) < measure s.
Proof.
  intros Hok Hr Hn. destruct n as [|n]; [lia|].
  rewrite Nat.iter_succ_r.
  pose proof (belows_iter_popRule_le W n (popRule s)) as Hle.
  destruct (stack_ok_prev s Hok Hr) as (p & Hp & _ & _).
  rewrite (same_frame_belows W _ _ (same_frame_popRule s p Hp)) in Hle.
  rewrite measure_unfold, Hp. simpl.
  apply stack_ok_unfold in Hok as [Hf _].
  pose proof (top_positive W token st s Hf Hr). lia.
Qed.

(** A failed turn: either a frame that was on the stack before the loop is
    popped, or the measure decreases. *)
Lemma unsuccessful_decreases (s : State) (d : nat) (s' : State) :
  stack_ok s -> fresh_ok G d s -> is_Some (rule s) ->
  unsuccessful s = Ok s' ->
  exists d', fresh_ok G d' s' /\ progress d' s' (measure s') d s (measure s).
Proof.
  intros Hok Hfresh Hrule Hun. unfold unsuccessful in Hun.
  destruct (unwind_ok (S (depth s)) s ltac:(lia) Hok)
    as (n & Hu & Hoku & Hdu & _ & Hstop).
  rewrite Hu in Hun. simpl in Hun.
  pose proof (fresh_ok_iter_popRule n d s Hfresh) as Hfu.
  pose proof (fresh_ok_depth G d s Hfresh) as Hd.
  set (u := Nat.iter n popRule s) in *.
  assert (Hbelow : 1 <= n -> belows u < measure s)
    by (intros; by apply belows_after_pops).
  destruct (rule u) as [ru|] eqn:Hru.
  - destruct Hstop as [|Hat]; [done|].
    assert (Hbu : belows u <= measure s /\ (n = 0 -> belows u < measure s)).
    { destruct n as [|n]; [|split; [|lia]; apply Nat.lt_le_incl, Hbelow; lia].
      assert (Hlt : belows s < measure s).
      { rewrite (belows_unfold W s), measure_unfold.
        pose proof (below_lt_top W token st s Hat). lia. }
      subst u. simpl in *. lia. }
    assert (Hlt : belows u < measure s).
    { destruct n; [by apply Hbu|apply Hbelow; lia]. }
    pose proof Hoku as Hf. apply stack_ok_unfold in Hf as [Hf _].
    destruct (frame_ok_isList u Hf) as [b Hb].
    rewrite (advanceRule_cases u false b Hb) in Hun.
    rewrite andb_false_r in Hun.
    destruct (b && optional_separator_pending u) eqn:Hpend.
    + (* a List whose optional separator is pending *)
      injection Hun as <-.
      apply andb_true_iff in Hpend as [-> Hpend].
      assert (Hn : needsSeperator u = true).
      { unfold optional_separator_pending in Hpend.
        apply andb_true_iff in Hpend as [Hpend _].
        by apply andb_true_iff in Hpend as [_ Hpend]. }
      assert (Hdn : d - n = 0).
      { destruct (d - n) as [|k] eqn:Hk; [done|].
        simpl in Hfu. destruct Hfu as [Hfu _]. congruence. }
      exists 0. split; [done|].
      assert (Hds : depth (set_needsSeperator false u) = depth u) by (by destruct u).
      unfold progress. rewrite Hds.
      destruct (decide (n = d)) as [->|Hne]; [right; split; [lia|]|left; lia].
      assert (Hl : at_list u = true) by (unfold at_list; by rewrite Hb).
      pose proof (top_cleared_lt_below W token st u Hn Hl) as Ht.
      rewrite measure_unfold.
      replace (prevState (set_needsSeperator false u)) with (prevState u)
        by (by destruct u).
      rewrite (belows_unfold W u) in Hlt. lia.
    + (* the step is advanced *)
      destruct (popCompleted_decreases (S (depth u)) u (d - n) s' Hoku Hfu
                  ltac:(eauto)) as (d' & Hf' & Hprog); [|exact Hun|].
      { intros _ Hp. by apply (pinned_not_ofRule u Hp). }
      exists d'. split; [done|]. unfold progress in *.
      destruct Hprog as [Hl|[He Hm]]; [left; lia|].
      destruct (decide (n <= d)); [right; split; lia|left; lia].
  - (* the stack is empty *)
    injection Hun as <-.
    assert (Hn : 1 <= n).
    { destruct n; [|lia]. subst u. simpl in Hru. destruct Hrule. congruence. }
    exists (d - n). split; [done|]. unfold progress.
    destruct (decide (n <= d)); [right; split; [lia|]|left; lia].
    specialize (Hbelow Hn). rewrite (belows_unfold W u) in Hbelow.
    rewrite measure_unfold.
    assert (top u = 0) as -> by (unfold top_cost; by rewrite Hru).
    lia.
Qed.

End Termination.

Lemma pushes_not_blocking (e : Rule) (n : string) :
  pushes e = Some n -> blocking e = false.
Proof.
  unfold pushes, unwrap. destruct e as [m|o l sp mt u sty]; simpl.
  - by destruct (negb (String.eqb m EmptyString)).
  - destruct o as [inner|]; simpl; [|done].
    destruct (truthy inner); [done|]. done.
Qed.

Lemma pushes_name (m n : string) : pushes (RName m) = Some n -> n = m.
Proof. unfold pushes. simpl. destruct (negb _); [|done]. by intros [= ->]. Qed.

Lemma current_Some_inv (token : Token) (st : CharacterStream) (s : State) (e : Rule) :
  current token st s = Some e ->
  (exists elems, rule s = Some (Seq elems) /\ elems !! step s = Some e) \/
  (exists a f, rule s = Some (Fork a f) /\ step s = 0 /\ f token st = Some e).
Proof.
  unfold current. destruct (rule s) as [[elems|a f]|]; [eauto| |done].
  destruct (bool_decide (step s = 0)) eqn:Hs; [|done].
  apply bool_decide_eq_true in Hs. right. by eexists _, _.
Qed.

Section PushTurn.

Variable W : string -> nat.
Variable token : Token.
Variable st : CharacterStream.
Variable G : gmap string ParseRule.

Local Abbreviation top := (top_cost W token st).
Local Abbreviation below := (parent_cost W).
Local Abbreviation measure := (loop_measure W token st).

(** The frame that pushes the name [n] costs, on top, more than below by
    the weight of [n] and 1. *)
Lemma push_cost (s : State) (n : string) :
  decide_action token st s = APush n -> below s + W n + 1 <= top s.
Proof.
  intros Ha. destruct (decide_action_push _ _ _ _ Ha) as (e & He & _ & Hmode).
  unfold parent_cost, top_cost.
  destruct (current_Some_inv _ _ _ _ He) as
    [(elems & Hr & Hl)|(a & f & Hr & Hs & Hf)]; rewrite Hr.
  - rewrite Hl, (drop_S _ _ _ Hl). simpl.
    destruct Hmode as [[-> Hp]|(-> & Ht & sp & Hsp & Hp)].
    + rewrite (pushes_not_blocking e n Hp). unfold wpush. rewrite Hp. simpl. lia.
    + unfold wsep. rewrite Ht, Hsp. simpl. unfold wpush at 3. rewrite Hp. simpl. lia.
  - rewrite bool_decide_eq_true_2 by done. rewrite Hf. simpl.
    destruct Hmode as [[_ Hp]|(_ & Ht & sp & Hsp & Hp)].
    + unfold wpush at 1. rewrite Hp. simpl. lia.
    + unfold wsep. rewrite Ht, Hsp. simpl. unfold wpush at 2. rewrite Hp. simpl. lia.
Qed.

Hypothesis Hweights : forall n r, G !! n = Some r -> rule_cost W token st r < W n.
Hypothesis Hlists : forall n r, G !! n = Some r -> lists_guarded G r.

(** A turn that pushes a rule which is not empty keeps the frames in range
    and decreases the measure. *)
Lemma push_decreases (s : State) (d : nat) (n : string) (r : ParseRule) :
  stack_ok s -> all_rules (lists_guarded G) s -> fresh_ok G d s ->
  decide_action token st s = APush n -> G !! n = Some r -> r <> Seq [] ->
  exists s1, pushRule G s n = Ok s1 /\
    stack_ok s1 /\ all_rules (lists_guarded G) s1 /\ fresh_ok G (S d) s1 /\
    progress (S d) s1 (measure s1) d s (measure s).
Proof.
  intros Hok Hall Hfresh Ha Hr Hne.
  rewrite (pushRule_known _ _ _ _ Hr). eexists. split; [reflexivity|].
  split; [|split; [|split]].
  - apply stack_ok_unfold. simpl. split; [|done]. unfold frame_ok. simpl.
    destruct r as [[|e elems]|a f]; [done| |by eexists].
    split; [simpl; lia|by eexists].
  - apply all_rules_unfold. simpl. split; [by eapply Hlists|done].
  - simpl. split; [done|]. split; [|done].
    intros Hprem. split; [done|]. split; [done|]. exists r. split; [done|].
    destruct (decide_action_push _ _ _ _ Ha) as (e & He & _ & Hmode).
    destruct Hprem as [[Hl Hn]|(Hs & Hn & r0 & Hr0 & Hg)].
    + destruct Hmode as [[_ Hp]|[Hn' _]]; [|congruence].
      unfold at_list in Hl. destruct (isList s) as [[|]| | |] eqn:Hi; try done.
      destruct (isList_true_inv s Hi) as (elems & o & sp & m & u & sty & Hrs & Hes & _).
      assert (e = RObj o true sp m u sty) as ->.
      { unfold current in He. rewrite Hrs in He. congruence. }
      apply all_rules_unfold in Hall as [Hall _]. rewrite Hrs in Hall. simpl in Hall.
      eapply Hall; [by eapply list_elem_of_lookup_2|done|exact Hp|exact Hr].
    + destruct Hmode as [[_ Hp]|[Hn' _]]; [|congruence].
      unfold current in He. rewrite Hr0, Hs in He.
      destruct Hg as [|e0 others Hb|m others Hm|a f Hf]; simpl in He.
      * done.
      * injection He as ->. by rewrite (pushes_not_blocking e n Hp) in Hb.
      * injection He as <-. apply pushes_name in Hp as ->. by apply Hm.
      * eapply Hf; eauto.
  - right. split; [simpl; lia|].
    rewrite !measure_unfold. simpl.
    pose proof (push_cost s n Ha) as Hc.
    pose proof (Hweights n r Hr) as Hw.
    rewrite (belows_unfold W s).
    assert (Ht : top_cost W token st
              (mkState (Some n) None None (Some r) 0 false (Some s)
                 (needsAdvance s) (indentLevel s) (levels s)) = rule_cost W token st r).
    { unfold top_cost, rule_cost. simpl. destruct r; [by rewrite drop_0|done]. }
    rewrite Ht. lia.
Qed.

End PushTurn.

Section LoopTermination.

Variable run_update : UpdateRef -> State -> Token -> State.
Variable options : ParserOptions.
Variable W : string -> nat.

Local Abbreviation G := (parseRules options).
Local Abbreviation loop := (grammarLoop run_update options).

Hypothesis Hweights : weights_decrease W G.
Hypothesis Hlists : forall n r, G !! n = Some r -> lists_guarded G r.
Hypothesis Hhooks : hooks_keep_range run_update.

(** A turn on a frame whose rule is the empty array raises: nothing is
    expected, and [unsuccessful] reads [ofRule] off a missing element. *)
Lemma grammarLoop_empty_rule (fuel : nat) (token : Token) (st : CharacterStream)
    (s : State) :
  rule s = Some (Seq []) -> loop (S fuel) token st s = Throw UndefinedProperty.
Proof.
  intros Hr. rewrite grammarLoop_turn by eauto.
  assert (Ha : decide_action token st s = AFail).
  { unfold decide_action, expectedOf. rewrite Hr. simpl.
    by destruct (needsSeperator s). }
  rewrite Ha. unfold unsuccessful. simpl. rewrite Hr. unfold at_ofRule. by rewrite Hr.
Qed.

(** The grammar loop terminates on every state with frames in range, for
    every token and stream. *)
Lemma grammarLoop_terminates (token : Token) (st : CharacterStream) (s : State)
    (d : nat) :
  stack_ok s -> all_rules (lists_guarded G) s -> fresh_ok G d s ->
  exists fuel, loop_ends (loop fuel token st s).
Proof.
  remember (depth s - d) as a eqn:Ha.
  remember (loop_measure W token st s) as m eqn:Hm.
  revert m s d Ha Hm.
  induction a as [a IHa] using lt_wf_ind.
  induction m as [m IHm] using lt_wf_ind.
  intros s d -> -> Hok Hall Hfresh.
  assert (Hnext : forall s' d',
    stack_ok s' -> all_rules (lists_guarded G) s' -> fresh_ok G d' s' ->
    progress d' s' (loop_measure W token st s') d s (loop_measure W token st s) ->
    exists fuel, loop_ends (loop fuel token st s')).
  { intros s' d' Hok' Hall' Hfresh' [Hlt|[Heq Hlt]].
    - by eapply (IHa _ Hlt).
    - by eapply (IHm _ Hlt). }
  destruct (rule s) as [r|] eqn:Hr.
  2:{ exists 0. left. exists s. by apply grammarLoop_exit. }
  destruct (decide_action token st s) as [n|u sty|] eqn:Hact.
  - (* a rule is pushed *)
    destruct (G !! n) as [rn|] eqn:Hn.
    + assert (Hcases : rn = Seq [] \/ rn <> Seq [])
        by (destruct rn as [[|e elems]|a f]; [by left|by right|by right]).
      destruct Hcases as [->|Hne].
      * exists 2. right; right. exists UndefinedProperty.
        rewrite grammarLoop_turn by eauto. rewrite Hact.
        rewrite (pushRule_known _ _ _ _ Hn).
        change (loop 1 token st
                  (mkState (Some n) None None (Some (Seq [])) 0 false (Some s)
                     (needsAdvance s) (indentLevel s) (levels s))
                = Throw UndefinedProperty).
        by apply grammarLoop_empty_rule.
      * destruct (push_decreases W token st G (Hweights token st) Hlists s d n rn
                    Hok Hall Hfresh Hact Hn Hne)
          as (s1 & Hs1 & Hok1 & Hall1 & Hfresh1 & Hprog).
        destruct (Hnext s1 (S d) Hok1 Hall1 Hfresh1 Hprog) as [fuel Hends].
        exists (S fuel). rewrite grammarLoop_turn by eauto. by rewrite Hact, Hs1.
    + exists 1. right; right. exists (UnknownRule n).
      rewrite grammarLoop_turn by eauto. rewrite Hact. unfold pushRule. by rewrite Hn.
  - (* a Terminal matches *)
    exists 1. rewrite grammarLoop_turn by eauto. rewrite Hact.
    right; left. unfold acceptTerminal.
    assert (Hu : stack_ok (match u with Some h => run_update h s token | None => s end)).
    { destruct u; [by apply Hhooks|done]. }
    destruct (String.eqb (tkind token) "Punctuation").
    + destruct (advanceRule_ok _ true Hu) as (s' & -> & Hok'). simpl. eauto.
    + simpl. eexists _, _. split; [done|]. by apply stack_ok_set_needsAdvance.
  - (* the turn fails *)
    destruct (unsuccessful_ok s Hok) as (s' & Hs' & Hok').
    destruct (unsuccessful_decreases W token st G s d s' Hok Hfresh ltac:(eauto) Hs')
      as (d' & Hfresh' & Hprog).
    destruct (Hnext s' d' Hok' (all_rules_unsuccessful _ _ _ Hs' Hall) Hfresh' Hprog)
      as [fuel Hends].
    exists (S fuel). rewrite grammarLoop_turn by eauto. by rewrite Hact, Hs'.
Qed.

End LoopTermination.

(** ** Ranked tables have weights *)

Lemma rank_weight_mono (L k k' : nat) : k <= k' -> rank_weight L k <= rank_weight L k'.
Proof.
  induction 1 as [|k' _ IH]; [done|]. simpl. lia.
Qed.

Lemma tail_cost_bound (W : string -> nat) (B : nat) (elems : list Rule) :
  (forall m, m ∈ first_names elems -> W m <= B) ->
  tail_cost W elems <= (3 + B) * length elems + 1.
Proof.
  induction elems as [|e others IH]; simpl; [lia|].
  destruct (blocking e); [lia|]. intros HB.
  assert (He : wpush W e <= B).
  { unfold wpush. destruct (pushes e) as [m|]; simpl; [|lia].
    apply HB. apply elem_of_app. left. by left. }
  assert (Ho : tail_cost W others <= (3 + B) * length others + 1).
  { apply IH. intros m Hm. apply HB. apply elem_of_app. by right. }
  lia.
Qed.

Lemma fork_cost_bound (W : string -> nat) (B : nat) (x : Rule) :
  (forall m, m ∈ pushable x -> W m <= B) -> wpush W x + wsep W x <= 2 * B.
Proof.
  intros HB. unfold pushable in HB.
  assert (H1 : wpush W x <= B).
  { unfold wpush. destruct (pushes x) as [m|] eqn:Hp; simpl; [|lia].
    apply HB. apply elem_of_app. left. by left. }
  assert (H2 : wsep W x <= B).
  { unfold wsep. destruct (truthy x); [|lia].
    destruct (get_separator x) as [sp|]; simpl in *; [|lia].
    unfold wpush. destruct (pushes sp) as [m|] eqn:Hp; simpl; [|lia].
    apply HB. apply elem_of_app. right. simpl. by left. }
  lia.
Qed.

(** In a table whose array rules have at most [L] elements and whose names
    are ranked, the weight of the rank of a name exceeds the cost of its
    rule. *)
Lemma ranked_weights (rank : string -> nat) (G : gmap string ParseRule) (L : nat) :
  (forall n elems, G !! n = Some (Seq elems) -> length elems <= L) ->
  ranked rank G ->
  weights_decrease (fun n => rank_weight L (rank n)) G.
Proof.
  intros HL Hrank token st n r Hn.
  set (W := fun n => rank_weight L (rank n)).
  assert (Hnames : forall m, m ∈ rule_first_names token st r ->
            exists k, rank n = S k /\ W m <= rank_weight L k).
  { intros m Hm. pose proof (Hrank token st n r m Hn Hm) as Hlt.
    destruct (rank n) as [|k]; [lia|]. exists k. split; [done|].
    apply rank_weight_mono. lia. }
  change (rule_cost W token st r < rank_weight L (rank n)).
  destruct (rank n) as [|k] eqn:Hk.
  - (* no name can be pushed first *)
    assert (Hnone : forall m, m ∈ rule_first_names token st r -> W m <= 0).
    { intros m Hm. destruct (Hnames m Hm) as (k & Hk' & _). done. }
    simpl. destruct r as [elems|a f]; simpl in *.
    + pose proof (tail_cost_bound W 0 elems Hnone).
      pose proof (HL n elems Hn). nia.
    + destruct (f token st) as [x|]; simpl in *; [|lia].
      pose proof (fork_cost_bound W 0 x Hnone). lia.
  - assert (Hle : forall m, m ∈ rule_first_names token st r -> W m <= rank_weight L k).
    { intros m Hm. destruct (Hnames m Hm) as (k' & Hk' & Hw). by injection Hk' as ->. }
    simpl. destruct r as [elems|a f]; simpl in *.
    + pose proof (tail_cost_bound W _ elems Hle).
      pose proof (HL n elems Hn). nia.
    + destruct (f token st) as [x|]; simpl in *; [|lia].
      pose proof (fork_cost_bound W _ x Hle). lia.
Qed.

(** The array rules of a table are of bounded length. *)
Lemma table_lengths_bounded (G : gmap string ParseRule) :
  exists L, forall n elems, G !! n = Some (Seq elems) -> length elems <= L.
Proof.
  induction G as [|n r G Hn IH] using map_ind.
  - exists 0. intros n elems H. by rewrite lookup_empty in H.
  - destruct IH as [L IH].
    exists (L `max` rule_length r). intros n' elems H.
    apply lookup_insert_Some in H as [[_ ->]|[_ H]]; simpl; [lia|].
    apply IH in H. lia.
Qed.

(** ** Every call of [getToken] advances the stream *)

Lemma non_space_prefix_is_prefix (s : string) :
  String.prefix (non_space_prefix s) s = true.
Proof.
  induction s as [|c s IH]; simpl; [done|].
  destruct (is_space c); simpl; [done|].
  destruct (ascii_dec c c); [exact IH|done].
Qed.

Lemma non_space_run_advances (st : CharacterStream) :
  at_non_space st -> pos st < pos (stream_match non_space_run st).2.
Proof.
  intros (c & text & Hrest & Hc). unfold stream_match, non_space_run.
  pose proof (non_space_prefix_is_prefix (rest st)) as Hpre.
  rewrite Hrest in *. simpl in *. rewrite Hc in *. rewrite Hpre. simpl. lia.
Qed.

Lemma lex_consumes_advances (options : ParserOptions) (st st' : CharacterStream)
    (token : Token) :
  lex_consumes options -> lex (lexRules options) st = (Some token, st') ->
  pos st < pos st'.
Proof.
  intros Hc Hlex. destruct (lex_Some_advances _ _ _ _ Hlex) as (-> & p & Hin & Hp).
  unfold lex_consumes in Hc. rewrite Forall_forall in Hc.
  specialize (Hc _ Hin (rest st)). simpl in *.
  destruct (tvalue token); [congruence|simpl; lia].
Qed.


Lemma braces_ranked : ranked (fun _ => 0) Examples.braces.
Proof.
  intros token st n r m H Hm.
  destruct (braces_lookup n r H) as [-> | ->]; simpl in Hm; by apply elem_of_nil in Hm.
Qed.

Lemma braces_lists_guarded (n : string) (r : ParseRule) :
  Examples.braces !! n = Some r -> lists_guarded Examples.braces r.
Proof.
  intros H. destruct (braces_lookup n r H) as [-> | ->];
    intros e m r' He Hl Hp Hm.
  - apply list_elem_of_In in He. simpl in He.
    destruct He as [<-|[<-|[<-|[]]]]; try discriminate.
    injection Hp as <-.
    destruct (braces_lookup _ _ Hm) as [-> | ->]; by apply guarded_blocking.
  - apply list_elem_of_In in He. simpl in He.
    destruct He as [<-|[]]. discriminate.
Qed.

Lemma noUpdate_keeps_range : hooks_keep_range Examples.noUpdate.
Proof. by intros h s token. Qed.

Lemma eatSpaces_properly : eats_properly Examples.bracesOptions.
Proof.
  intros st b st1. simpl. unfold Examples.eatSpaces. intros [= <- <-].
  destruct (bool_decide _) eqn:Hn; simpl.
  - apply bool_decide_eq_true in Hn. rewrite Hn, Nat.add_0_r. by destruct st.
  - apply bool_decide_eq_false in Hn. lia.
Qed.

Lemma word_consumes (text : string) : Examples.word text <> Some EmptyString.
Proof. unfold Examples.word. by destruct (Examples.letters text). Qed.

Lemma exactly_consumes (c : ascii) (m text : string) :
  Examples.exactly (String c m) text <> Some EmptyString.
Proof. unfold Examples.exactly. by destruct (String.prefix _ _). Qed.

Lemma lexTable_consumes : lex_consumes Examples.bracesOptions.
Proof.
  unfold lex_consumes. simpl. unfold Examples.lexTable.
  repeat constructor; simpl; intros text;
    first [apply exactly_consumes | apply word_consumes].
Qed.

Lemma bracesStart_ok :
  entry_ok Examples.bracesStart /\
  all_rules (lists_guarded Examples.braces) Examples.bracesStart /\
  all_rules (rule_closed Examples.braces) Examples.bracesStart.
Proof.
  split; [|split].
  - left. simpl. unfold frame_ok. simpl. repeat split; try lia. by eexists.
  - apply all_rules_unfold. split; [|done].
    exact (braces_lists_guarded "Document" _ eq_refl).
  - apply all_rules_unfold. split; [|done].
    exact (braces_closed "Document" _ eq_refl).
Qed.



Lemma nullableList_lookup (n : string) (r : ParseRule) :
  Examples.nullableList !! n = Some r ->
  (n = "Document" /\ r = Seq [Examples.list_of (RName "Item") None]) \/
  (n = "Item" /\ r = Seq [Examples.opt (Examples.term "Name" "property")]).
Proof.
  unfold Examples.nullableList. intros H.
  apply lookup_insert_Some in H as [[<- <-]|[_ H]]; [by left|].
  apply lookup_insert_Some in H as [[<- <-]|[_ H]]; [by right|].
  by rewrite lookup_empty in H.
Qed.

(** The condition on List bodies cannot be dropped. In the table
    Document = [List(Item)], Item = [Optional(Name)] the names are ranked
    (Item below Document), but the body of the List completes without a
    token: on a token that is not a Name the loop pushes Item, skips its
    Optional, pops the completed Item back to the List step, and is where it
    started. No amount of fuel ends the call. *)
Lemma nullable_list_body_never_ends :
  ranked (fun n => if String.eqb n "Document" then 1 else 0) Examples.nullableList /\
  startState Examples.nullableListOptions = Ok Examples.nullableListStart /\
  forall fuel,
    getToken Examples.noUpdate Examples.nullableListOptions fuel (mkStream "@" 0)
      Examples.nullableListStart = OutOfFuel.
Proof.
  split; [|split; [reflexivity|]].
  - intros token st n r m H Hm.
    destruct (nullableList_lookup n r H) as [[-> ->]|[-> ->]]; simpl in Hm.
    + apply list_elem_of_In in Hm. simpl in Hm. destruct Hm as [<-|[]].
      simpl. lia.
    + by apply elem_of_nil in Hm.
  - assert (Hloop : forall fuel,
      grammarLoop Examples.noUpdate Examples.nullableListOptions fuel
        (mkToken "Punctuation" "@") (mkStream "@" 1) Examples.nullableListStart
      = OutOfFuel).
    { assert (Hpair : forall fuel,
        grammarLoop Examples.noUpdate Examples.nullableListOptions fuel
          (mkToken "Punctuation" "@") (mkStream "@" 1) Examples.nullableListStart
        = OutOfFuel /\
        grammarLoop Examples.noUpdate Examples.nullableListOptions (S fuel)
          (mkToken "Punctuation" "@") (mkStream "@" 1) Examples.nullableListStart
        = OutOfFuel).
      { induction fuel as [|fuel [IH1 IH2]]; [by split|].
        split; [exact IH2|].
        change (grammarLoop Examples.noUpdate Examples.nullableListOptions fuel
                  (mkToken "Punctuation" "@") (mkStream "@" 1)
                  Examples.nullableListStart = OutOfFuel).
        exact IH1. }
      intros fuel. apply Hpair. }
    intros fuel.
    rewrite (getToken_after_lex Examples.noUpdate Examples.nullableListOptions fuel
               (mkStream "@" 0) Examples.nullableListStart Examples.nullableListStart
               (mkStream "@" 0) (mkToken "Punctuation" "@") (mkStream "@" 1)
               eq_refl eq_refl eq_refl ltac:(discriminate)).
    change (handleLevels (mkToken "Punctuation" "@")
              (rememberIndent Examples.nullableListOptions (mkStream "@" 0)
                 Examples.nullableListStart))
      with Examples.nullableListStart.
    by rewrite Hloop.
Qed.

(** * Properties of the further parts *)

(** ** [pointToOffset] *)

Lemma foldl_add_from (a : nat) (l : list nat) :
  foldl Nat.add a l = a + foldl Nat.add 0 l.
Proof.
  revert a. induction l as [|x l IH]; intros a; simpl; [lia|].
  rewrite (IH (a + x)), (IH x). lia.
Qed.

Lemma lines_length_0 (lines : list string) : lines_length 0 lines = 0.
Proof. by destruct lines. Qed.

Lemma lines_length_S (n : nat) (l : string) (lines : list string) :
  lines_length (S n) (l :: lines) = String.length l + 1 + lines_length n lines.
Proof. unfold lines_length. simpl. by rewrite foldl_add_from. Qed.

Lemma lines_length_nil (n : nat) : lines_length n [] = 0.
Proof. by destruct n. Qed.

Lemma split_lines_cons (text : string) : exists l ls, split_lines text = l :: ls.
Proof.
  destruct text as [|c text]; simpl; [eauto|].
  destruct (Ascii.eqb c line_feed); [eauto|].
  destruct (split_lines text); eauto.
Qed.

Lemma split_lines_step (c : ascii) (text : string) :
  (c = line_feed /\ split_lines (String c text) = EmptyString :: split_lines text) \/
  (c <> line_feed /\ exists l ls,
     split_lines text = l :: ls /\ split_lines (String c text) = String c l :: ls).
Proof.
  simpl. destruct (Ascii.eqb c line_feed) eqn:E.
  - left. by apply Ascii.eqb_eq in E.
  - right. apply Ascii.eqb_neq in E. split; [done|].
    destruct (split_lines_cons text) as (l & ls & H). rewrite H. eauto.
Qed.

(** X1. For a point on a line of the text, at a character of that line,
    the offset given by [pointToOffset] is the index in the text of that
    very character. *)
Theorem pointToOffset_locates (text : string) (p : Position) (l : string)
    (Hline : split_lines text !! line p = Some l)
    (Hchar : character p < String.length l) :
  String.get (pointToOffset text p) text = String.get (character p) l.
Proof.
  destruct p as [n c]. unfold pointToOffset. simpl in *.
  revert n c l Hline Hchar. induction text as [|a text IH]; intros n c l Hline Hchar.
  - simpl in Hline. destruct n; simpl in Hline; [|done].
    injection Hline as <-. simpl in Hchar. lia.
  - destruct (split_lines_step a text) as [[-> Ha]|(Hne & l0 & ls & Hs & Ha)];
      rewrite Ha in Hline |- *; clear Ha.
    + destruct n as [|n]; simpl in Hline.
      * injection Hline as <-. simpl in Hchar. lia.
      * rewrite lines_length_S. simpl String.length.
        replace (c + (0 + 1 + lines_length n (split_lines text)))
          with (S (c + lines_length n (split_lines text))) by lia.
        simpl. by apply IH.
    + destruct n as [|n]; simpl in Hline.
      * injection Hline as <-. rewrite lines_length_0, Nat.add_0_r.
        destruct c as [|c]; [done|]. simpl. simpl in Hchar.
        specialize (IH 0 c l0). rewrite lines_length_0, Nat.add_0_r in IH.
        apply IH; [by rewrite Hs|lia].
      * rewrite lines_length_S.
        specialize (IH (S n) c l). rewrite Hs in IH. rewrite lines_length_S in IH.
        simpl String.length.
        replace (c + (S (String.length l0) + 1 + lines_length n ls))
          with (S (c + (String.length l0 + 1 + lines_length n ls))) by lia.
        simpl. by apply IH.
Qed.

Lemma pointToOffset_locates_witness :
  String.get (pointToOffset MoreExamples.twoLines (mkPosition 1 2)) MoreExamples.twoLines = Some "e"%char.
Proof.
  exact (pointToOffset_locates MoreExamples.twoLines (mkPosition 1 2) "cde" eq_refl ltac:(simpl; lia)).
Defined.

Lemma lines_length_all (text : string) :
  lines_length (length (split_lines text)) (split_lines text) = String.length text + 1.
Proof.
  induction text as [|a text IH]; [done|].
  destruct (split_lines_step a text) as [[-> ->]|(Hne & l0 & ls & Hs & ->)].
  - simpl length. rewrite lines_length_S, IH. simpl. lia.
  - rewrite Hs in IH. simpl length in *. rewrite lines_length_S in *.
    simpl String.length. lia.
Qed.

Lemma lines_length_ge (n : nat) (lines : list string) :
  length lines <= n -> lines_length n lines = lines_length (length lines) lines.
Proof. intros H. unfold lines_length. by rewrite !take_ge by lia. Qed.

(** X2. For a point whose line is past the last line of the text,
    [pointToOffset] counts every line with its end of line: the offset is the
    length of the text plus one plus the character, past the end of the
    text. *)
Theorem pointToOffset_past_last_line (text : string) (p : Position)
    (Hpast : length (split_lines text) <= line p) :
  pointToOffset text p = String.length text + 1 + character p.
Proof.
  unfold pointToOffset. rewrite lines_length_ge by done.
  rewrite lines_length_all. lia.
Qed.

Lemma pointToOffset_past_last_line_witness :
  pointToOffset "ab" (mkPosition 3 1) = 4.
Proof.
  exact (pointToOffset_past_last_line "ab" (mkPosition 3 1) ltac:(simpl; lia)).
Defined.

Lemma lines_length_next (n : nat) (lines : list string) (l : string) :
  lines !! n = Some l ->
  lines_length (S n) lines = lines_length n lines + String.length l + 1.
Proof.
  intros H. unfold lines_length. rewrite (take_S_r _ _ _ H).
  rewrite fmap_app, foldl_app. simpl. lia.
Qed.

Lemma lines_length_mono (n m : nat) (lines : list string) :
  n <= m -> lines_length n lines <= lines_length m lines.
Proof.
  induction 1 as [|m _ IH]; [done|].
  destruct (lines !! m) as [l|] eqn:Hl.
  - rewrite (lines_length_next m lines l Hl). lia.
  - apply lookup_ge_None in Hl.
    rewrite (lines_length_ge (S m)) by lia. rewrite (lines_length_ge m) in IH by lia.
    done.
Qed.

(** X3. [pointToOffset] keeps the order of points: if a point lies on a line
    of the text, no further than the end of that line, every point after it
    (on a later line, or later on the same line) has a greater offset. *)
Theorem pointToOffset_keeps_order (text : string) (p q : Position) (l : string)
    (Hline : split_lines text !! line p = Some l)
    (Hchar : character p <= String.length l)
    (Hbefore : point_before p q) :
  pointToOffset text p < pointToOffset text q.
Proof.
  unfold pointToOffset. destruct Hbefore as [Hlt|[Heq Hlt]].
  - pose proof (lines_length_next _ _ _ Hline) as Hnext.
    pose proof (lines_length_mono (S (line p)) (line q) (split_lines text) ltac:(lia)).
    lia.
  - rewrite Heq. lia.
Qed.

Lemma pointToOffset_keeps_order_witness :
  pointToOffset MoreExamples.twoLines (mkPosition 0 2) < pointToOffset MoreExamples.twoLines (mkPosition 1 0).
Proof.
  apply (pointToOffset_keeps_order MoreExamples.twoLines (mkPosition 0 2) (mkPosition 1 0) "ab" eq_refl).
  - simpl. lia.
  - left. simpl. lia.
Defined.

(** X4. [pointToOffset] does not check the character against the length of
    the line: a character past the end of a line of the text runs into the
    next line, so that two different points have the same offset. *)
Theorem pointToOffset_runs_into_next_line (text : string) (l c : nat) (ln : string)
    (Hline : split_lines text !! l = Some ln) :
  pointToOffset text (mkPosition l (String.length ln + 1 + c))
  = pointToOffset text (mkPosition (S l) c).
Proof.
  unfold pointToOffset. simpl. rewrite (lines_length_next _ _ _ Hline). lia.
Qed.

Lemma pointToOffset_runs_into_next_line_witness :
  pointToOffset MoreExamples.twoLines (mkPosition 0 4) = pointToOffset MoreExamples.twoLines (mkPosition 1 1).
Proof.
  exact (pointToOffset_runs_into_next_line MoreExamples.twoLines 0 1 "ab" eq_refl).
Defined.

(** ** [advanceRule] and [unsuccessful]: what they leave alone *)

Lemma state_eta (s : State) :
  set_step (step s) (set_needsSeperator (needsSeperator s) s) = s.
Proof. by destruct s. Qed.

Lemma unwound_refl (s : State) : unwound s s.
Proof. exists 0, (step s), (needsSeperator s). by rewrite state_eta. Qed.

Lemma unwound_set_step (s s' : State) (i : nat) :
  unwound s s' -> unwound s (set_step i s').
Proof. intros (n & j & f & ->). exists n, i, f. by destruct (Nat.iter n popRule s). Qed.

Lemma unwound_set_needsSeperator (s s' : State) (f : bool) :
  unwound s s' -> unwound s (set_needsSeperator f s').
Proof. intros (n & j & g & ->). exists n, j, f. by destruct (Nat.iter n popRule s). Qed.

Lemma unwound_popRule (s s' : State) : unwound s s' -> unwound s (popRule s').
Proof.
  intros (n & i & f & ->). set (y := Nat.iter n popRule s).
  destruct (prevState y) as [p|] eqn:Hp.
  - exists (S n), (step (popRule y)), (needsSeperator (popRule y)).
    rewrite state_eta. simpl. fold y. unfold popRule. simpl. by rewrite Hp.
  - exists n, i, f. fold y. apply popRule_no_saved_frame. by destruct y.
Qed.

Lemma unwound_iter_popRule (s s' : State) (n : nat) :
  unwound s s' -> unwound s (Nat.iter n popRule s').
Proof. intros H. induction n; simpl; [done|]. by apply unwound_popRule. Qed.

Lemma unwound_resume_parent (s s1 s2 : State) :
  resume_parent s1 = Ok s2 -> unwound s s1 -> unwound s s2.
Proof.
  unfold resume_parent. intros H Hs.
  destruct (rule s1); [|by injection H as <-].
  destruct (isList s1) as [[|]| | |]; simpl in H; try discriminate.
  - destruct (truthy_opt _); injection H as <-;
      [by apply unwound_set_needsSeperator|done].
  - injection H as <-. by apply unwound_set_step, unwound_set_needsSeperator.
Qed.

Lemma unwound_popCompleted (fuel : nat) (s s1 s' : State) :
  popCompleted fuel s1 = Ok s' -> unwound s s1 ->
  unwound s s' /\ completed s' = false.
Proof.
  revert s1. induction fuel as [|fuel IH]; intros s1; simpl.
  - destruct (completed s1) eqn:Hc; [discriminate|]. by intros [= <-].
  - destruct (completed s1) eqn:Hc; [|by intros [= <-]].
    destruct (resume_parent (popRule s1)) as [s2| | |] eqn:E; simpl; try discriminate.
    intros H Hs. apply (IH s2 H).
    eapply unwound_resume_parent; [exact E|]. by apply unwound_popRule.
Qed.

Lemma isList_true_not_completed (s : State) :
  isList s = Ok true -> completed s = false.
Proof.
  unfold isList, completed. destruct (rule s) as [[elems|]|]; try done.
  destruct (elems !! step s) eqn:E; [|done]. intros _.
  apply lookup_lt_Some in E. rewrite bool_decide_true; done.
Qed.

Lemma unwound_advanceRule (s s1 s' : State) (successful : bool) :
  advanceRule s1 successful = Ok s' -> unwound s s1 ->
  unwound s s' /\ completed s' = false.
Proof.
  destruct (isList s1) as [b| | |] eqn:Hb;
    try (unfold advanceRule; rewrite Hb; simpl; discriminate).
  rewrite (advanceRule_cases s1 successful b Hb). intros H Hs.
  assert (Hin : b = true -> forall f, completed (set_needsSeperator f s1) = false).
  { intros -> f. apply isList_true_not_completed in Hb. by destruct s1. }
  destruct (b && optional_separator_pending s1) eqn:E1.
  { injection H as <-. apply andb_true_iff in E1 as [-> _].
    split; [by apply unwound_set_needsSeperator|by apply Hin]. }
  destruct (b && successful) eqn:E2.
  { injection H as <-. apply andb_true_iff in E2 as [-> _].
    destruct (truthy_opt _).
    - split; [by apply unwound_set_needsSeperator|by apply Hin].
    - split; [done|by apply isList_true_not_completed]. }
  unfold advanceStep in H. apply (unwound_popCompleted _ s _ _ H).
  by apply unwound_set_step, unwound_set_needsSeperator.
Qed.

Lemma unwound_unsuccessful (s s1 s' : State) :
  unsuccessful s1 = Ok s' -> unwound s s1 ->
  unwound s s' /\ completed s' = false.
Proof.
  unfold unsuccessful. intros H Hs.
  destruct (unwind (S (depth s1)) s1) as [u| | |] eqn:Hu; simpl in H; try discriminate.
  destruct (unwind_iter _ _ _ Hu) as [n ->].
  pose proof (unwound_iter_popRule s s1 n Hs) as Hn.
  destruct (rule (Nat.iter n popRule s1)) eqn:Hr.
  - by eapply unwound_advanceRule.
  - injection H as <-. split; [done|]. unfold completed. by rewrite Hr.
Qed.

Lemma depth_popRule_le (s : State) : depth (popRule s) <= depth s.
Proof.
  destruct (prevState s) as [p|] eqn:Hp.
  - destruct (depth_popRule s p Hp). lia.
  - by rewrite popRule_no_saved_frame.
Qed.

Lemma depth_iter_popRule_le (n : nat) (s : State) :
  depth (Nat.iter n popRule s) <= depth s.
Proof.
  induction n; simpl; [done|].
  pose proof (depth_popRule_le (Nat.iter n popRule s)). lia.
Qed.

Lemma same_line_fields_popRule (s : State) : same_line_fields s (popRule s).
Proof. unfold popRule. by destruct (prevState s). Qed.

Lemma same_line_fields_iter_popRule (n : nat) (s : State) :
  same_line_fields s (Nat.iter n popRule s).
Proof.
  induction n; simpl; [done|].
  destruct IHn as (H1 & H2 & H3).
  destruct (same_line_fields_popRule (Nat.iter n popRule s)) as (K1 & K2 & K3).
  unfold same_line_fields. by rewrite K1, K2, K3.
Qed.

Lemma unwound_depth (s s' : State) : unwound s s' -> depth s' <= depth s.
Proof.
  intros (n & i & f & ->). pose proof (depth_iter_popRule_le n s).
  by destruct (Nat.iter n popRule s).
Qed.

Lemma unwound_same_line_fields (s s' : State) :
  unwound s s' -> same_line_fields s s'.
Proof.
  intros (n & i & f & ->). pose proof (same_line_fields_iter_popRule n s) as H.
  by destruct (Nat.iter n popRule s).
Qed.

(** X5. Whenever [advanceRule] returns, all it has done is pop frames and
    set the step and the separator flag of the frame it stops at: no frame
    below is changed, the stack is no deeper, and [needsAdvance],
    [indentLevel] and [levels] are untouched. The rule it stops at is not
    completed: the stack is empty, or the rule is an array and the step is
    an index of it. *)
Theorem advanceRule_pops_and_steps (s s' : State) (successful : bool)
    (Hret : advanceRule s successful = Ok s') :
  (exists n i f, s' = set_step i (set_needsSeperator f (Nat.iter n popRule s))) /\
  completed s' = false /\
  depth s' <= depth s /\
  needsAdvance s' = needsAdvance s /\ indentLevel s' = indentLevel s /\
  levels s' = levels s.
Proof.
  destruct (unwound_advanceRule s s s' successful Hret (unwound_refl s)) as [Hu Hc].
  split; [exact Hu|]. split; [exact Hc|]. split; [by apply unwound_depth|].
  by apply unwound_same_line_fields.
Qed.

Lemma advanceRule_pops_and_steps_witness :
  exists s', advanceRule Examples.fieldOpen true = Ok s' /\
    completed s' = false /\ depth s' <= depth Examples.fieldOpen.
Proof.
  eexists. split; [vm_compute; reflexivity|].
  destruct (advanceRule_pops_and_steps Examples.fieldOpen _ true eq_refl)
    as (_ & Hc & Hd & _).
  split; [exact Hc|exact Hd].
Defined.

(** X6. Whenever [unsuccessful] returns, all it has done is pop frames and
    set the step and the separator flag of the frame it stops at: the stack
    is no deeper, no frame below is changed, [needsAdvance], [indentLevel]
    and [levels] are untouched, and the rule it stops at is not completed. *)
Theorem unsuccessful_pops_and_steps (s s' : State)
    (Hret : unsuccessful s = Ok s') :
  (exists n i f, s' = set_step i (set_needsSeperator f (Nat.iter n popRule s))) /\
  completed s' = false /\
  depth s' <= depth s /\
  needsAdvance s' = needsAdvance s /\ indentLevel s' = indentLevel s /\
  levels s' = levels s.
Proof.
  destruct (unwound_unsuccessful s s s' Hret (unwound_refl s)) as [Hu Hc].
  split; [exact Hu|]. split; [exact Hc|]. split; [by apply unwound_depth|].
  by apply unwound_same_line_fields.
Qed.

Lemma unsuccessful_pops_and_steps_witness :
  exists s', unsuccessful Examples.fieldOpen = Ok s' /\
    completed s' = false /\ depth s' <= depth Examples.fieldOpen.
Proof.
  eexists. split; [vm_compute; reflexivity|].
  destruct (unsuccessful_pops_and_steps Examples.fieldOpen _ eq_refl)
    as (_ & Hc & Hd & _).
  split; [exact Hc|exact Hd].
Defined.

(** ** The text after the cursor *)

Lemma prefix_length (m r : string) :
  String.prefix m r = true -> String.length m <= String.length r.
Proof.
  revert r. induction m as [|a m IH]; intros r; simpl; [lia|].
  destruct r as [|b r]; [discriminate|]. simpl.
  destruct (ascii_dec a b); [|discriminate].
  intros H. apply IH in H. lia.
Qed.

Lemma length_substring_le (p k : nat) (s : string) :
  String.length (String.substring p k s) <= k.
Proof.
  revert p k. induction s as [|c s IH]; intros p k.
  - destruct p, k; simpl; lia.
  - destruct p as [|p].
    + destruct k as [|k]; simpl; [lia|]. specialize (IH 0 k). lia.
    + simpl. apply IH.
Qed.

Lemma substring_skip (m : string) (p k : nat) (s : string) :
  String.prefix m (String.substring p k s) = true ->
  String.substring p k s
  = (m ++ String.substring (p + String.length m) (k - String.length m) s)%string.
Proof.
  revert p k m. induction s as [|c s IH]; intros p k m H.
  - assert (Hs : forall a b, String.substring a b EmptyString = EmptyString)
      by (by intros [|a] [|b]).
    rewrite Hs in H. rewrite !Hs. destruct m; [done|discriminate].
  - destruct p as [|p].
    + destruct m as [|a m].
      { simpl. by rewrite Nat.sub_0_r. }
      destruct k as [|k]; [discriminate|].
      simpl in H. destruct (ascii_dec a c) as [->|]; [|discriminate].
      specialize (IH 0 k m H). simpl in IH. simpl. by rewrite IH.
    + simpl. by apply IH.
Qed.

Lemma rest_skip (st : CharacterStream) (m : string) :
  String.prefix m (rest st) = true ->
  rest st = (m ++ rest (mkStream (sourceText st) (pos st + String.length m)))%string.
Proof.
  intros H. unfold rest in *. simpl.
  rewrite (substring_skip m _ _ _ H). do 2 f_equal. lia.
Qed.

Lemma rest_bound (st : CharacterStream) (m : string) :
  String.prefix m (rest st) = true ->
  pos st + String.length m <= Nat.max (pos st) (String.length (sourceText st)).
Proof.
  intros H. apply prefix_length in H. unfold rest in H.
  pose proof (length_substring_le (pos st)
                (String.length (sourceText st) - pos st) (sourceText st)).
  lia.
Qed.

Lemma non_space_prefix_rest (s r : string) :
  s = (non_space_prefix s ++ r)%string ->
  r = EmptyString \/ exists c r', r = String c r' /\ is_space c = true.
Proof.
  induction s as [|c s IH]; simpl.
  - intros H. change (EmptyString = r) in H. subst r. by left.
  - destruct (is_space c) eqn:E.
    + intros H. change (String c s = r) in H. subst r. right. eauto.
    + intros H. change (String c s = String c (non_space_prefix s ++ r)%string) in H.
      injection H as H. by apply IH.
Qed.

Lemma non_space_run_skips (st : CharacterStream) :
  (stream_match non_space_run st).2
  = mkStream (sourceText st) (pos st + String.length (non_space_prefix (rest st))).
Proof.
  unfold stream_match, non_space_run.
  pose proof (non_space_prefix_is_prefix (rest st)) as Hp.
  destruct (non_space_prefix (rest st)) as [|a m] eqn:E; simpl.
  - rewrite Nat.add_0_r. by destruct st.
  - by rewrite Hp.
Qed.

Lemma lex_Some_prefix (lexRules : list (string * Pattern)) (st st' : CharacterStream)
    (token : Token) :
  lex lexRules st = (Some token, st') ->
  String.prefix (tvalue token) (rest st) = true.
Proof.
  induction lexRules as [|[k q] others IH]; simpl; [discriminate|].
  destruct (stream_match q st) as [[m|] st0] eqn:Hq.
  - intros [= <- _]. simpl.
    by destruct (stream_match_Some _ _ _ _ Hq) as (_ & Hpre & _).
  - apply stream_match_None in Hq as ->. exact IH.
Qed.

Lemma rule_handleLevels (token : Token) (s : State) :
  rule (handleLevels token s) = rule s.
Proof.
  unfold handleLevels.
  destruct (String.eqb _ _); [|done].
  destruct (opens_bracket _); [done|].
  destruct (closes_bracket _); [|done].
  destruct (bool_decide _); [done|].
  destruct (last _); [|done].
  by destruct (bool_decide _).
Qed.

Lemma sentinel_resumes (s : State) (k : string) :
  k = "Invalid" \/ k = "Comment" ->
  exists s', pushRule SpecialParseRules s k = Ok s' /\
    kind s' = Some k /\ rule s' = Some (Seq []) /\ prevState s' = Some s /\
    popRule s' = s /\ resumeState s' = Ok s.
Proof.
  intros Hk.
  assert (Hl : SpecialParseRules !! k = Some (Seq [])) by (by destruct Hk as [-> | ->]).
  rewrite (pushRule_known _ _ _ _ Hl). eexists. split; [reflexivity|].
  assert (Hpop : popRule (mkState (Some k) None None (Some (Seq [])) 0 false (Some s)
                            (needsAdvance s) (indentLevel s) (levels s)) = s)
    by (by destruct s).
  repeat split; [exact Hpop|]. unfold resumeState. simpl. by rewrite Hpop.
Qed.

Section TokenStep.

Variable run_update : UpdateRef -> State -> Token -> State.
Variable options : ParserOptions.

Local Abbreviation loop := (grammarLoop run_update options).
Local Abbreviation token_step := (getToken run_update options).

(** X7. A comment leaves the grammar alone: when the lexer gives a 'Comment'
    token, [getToken] returns 'comment' whatever the parse table and the
    rule stack, without a turn of the grammar loop; the stream is past the
    comment, and the state is the state before the token (after the resume
    and the indentation steps) under one 'Comment' sentinel frame that the
    next call pops first. When that state had nothing to resume, the next
    call does what it would have done had the comment not been there. *)
Theorem getToken_comment_leaves_grammar (fuel : nat) (st st1 st2 : CharacterStream)
    (s s1 : State) (token : Token)
    (Hresume : resumeState s = Ok s1)
    (Hws : eatWhitespace options st = (false, st1))
    (Hlex : lex (lexRules options) st1 = (Some token, st2))
    (Hkind : tkind token = "Comment") :
  exists s3,
    token_step fuel st s = Ok ("comment", st2, s3) /\
    st2 = mkStream (sourceText st1) (pos st1 + String.length (tvalue token)) /\
    kind s3 = Some "Comment" /\ rule s3 = Some (Seq []) /\
    prevState s3 = Some (rememberIndent options st s1) /\
    resumeState s3 = Ok (rememberIndent options st s1) /\
    (resumeState (rememberIndent options st s1) = Ok (rememberIndent options st s1) ->
     forall fuel' st',
       token_step fuel' st' s3 = token_step fuel' st' (rememberIndent options st s1)).
Proof.
  destruct (sentinel_resumes (rememberIndent options st s1) "Comment")
    as (s3 & Hpush & Hk & Hr & Hp & _ & Hres); [by right|].
  exists s3. split.
  { unfold getToken. rewrite Hresume. simpl. rewrite Hws, Hlex, Hkind. simpl.
    by rewrite Hpush. }
  split; [by destruct (lex_Some_advances _ _ _ _ Hlex) as [-> _]|].
  do 4 (split; [done|]).
  intros Hsame fuel' st'. unfold getToken. by rewrite Hres, Hsame.
Qed.

(** X8. When no lex pattern matches, [getToken] returns 'invalidchar' and
    takes the whole run of non-whitespace characters at the cursor: the
    text is unchanged, the position moves by the length of that run, and
    what is left after the cursor is empty or starts with a whitespace
    character. The state is the state before the token under one 'Invalid'
    sentinel frame that the next call pops first. *)
Theorem getToken_skips_unlexable_run (fuel : nat) (st st1 st2 : CharacterStream)
    (s s1 : State)
    (Hresume : resumeState s = Ok s1)
    (Hws : eatWhitespace options st = (false, st1))
    (Hlex : lex (lexRules options) st1 = (None, st2)) :
  exists st3 s3,
    token_step fuel st s = Ok ("invalidchar", st3, s3) /\
    st3 = mkStream (sourceText st1)
            (pos st1 + String.length (non_space_prefix (rest st1))) /\
    (rest st3 = EmptyString \/
     exists c r, rest st3 = String c r /\ is_space c = true) /\
    kind s3 = Some "Invalid" /\
    prevState s3 = Some (rememberIndent options st s1) /\
    resumeState s3 = Ok (rememberIndent options st s1).
Proof.
  pose proof (lex_None_unchanged _ _ _ Hlex) as ->.
  destruct (sentinel_resumes (rememberIndent options st s1) "Invalid")
    as (s3 & Hpush & Hk & Hr & Hp & _ & Hres); [by left|].
  eexists _, s3. split.
  { unfold getToken. rewrite Hresume. simpl. rewrite Hws, Hlex. simpl.
    by rewrite Hpush. }
  split; [by apply non_space_run_skips|].
  split; [|done].
  rewrite non_space_run_skips.
  apply (non_space_prefix_rest (rest st1)).
  apply rest_skip, non_space_prefix_is_prefix.
Qed.

(** X9. [getToken] never moves the stream backward and never changes its
    text: from where [eatWhitespace] leaves the stream, a call that returns
    has kept the text and has not lowered the position, and it has not
    moved the position past the end of the text. *)
Theorem getToken_moves_forward (fuel : nat) (st st' : CharacterStream)
    (s s' : State) (sty : string)
    (Hret : token_step fuel st s = Ok (sty, st', s')) :
  sourceText st' = sourceText (eatWhitespace options st).2 /\
  pos (eatWhitespace options st).2 <= pos st' /\
  pos st' <= Nat.max (pos (eatWhitespace options st).2)
                     (String.length (sourceText (eatWhitespace options st).2)).
Proof.
  unfold getToken in Hret.
  destruct (resumeState s) as [s1| | |]; simpl in Hret; try discriminate.
  destruct (eatWhitespace options st) as [[|] st1]; simpl.
  { injection Hret as _ <- _. split; [done|lia]. }
  destruct (lex (lexRules options) st1) as [[token|] st2] eqn:Hlex.
  - assert (Hst2 : sourceText st2 = sourceText st1 /\ pos st1 <= pos st2 /\
                   pos st2 <= Nat.max (pos st1) (String.length (sourceText st1))).
    { pose proof (lex_Some_prefix _ _ _ _ Hlex) as Hpre.
      destruct (lex_Some_advances _ _ _ _ Hlex) as [-> _]. simpl.
      split; [done|]. split; [lia|]. by apply rest_bound. }
    destruct (String.eqb (tkind token) "Comment").
    + destruct (pushRule SpecialParseRules _ "Comment"); simpl in Hret; try discriminate.
      by injection Hret as _ <- _.
    + destruct (grammarLoop _ _ _ _ _ _) as [[[style|] s4]| | |];
        simpl in Hret; try discriminate.
      * by injection Hret as _ <- _.
      * destruct (pushRule SpecialParseRules _ "Invalid"); simpl in Hret; try discriminate.
        by injection Hret as _ <- _.
  - apply lex_None_unchanged in Hlex as ->.
    destruct (pushRule SpecialParseRules _ "Invalid"); simpl in Hret; try discriminate.
    injection Hret as _ <- _. rewrite non_space_run_skips. simpl.
    split; [done|]. split; [lia|].
    apply rest_bound, non_space_prefix_is_prefix.
Qed.

Lemma resumeState_empty (s : State) :
  stack_empty s -> exists s1, resumeState s = Ok s1 /\ rule s1 = None.
Proof.
  intros [Hr|(Hr & p & Hp & Hrp)]; unfold resumeState; rewrite Hr; simpl.
  - destruct (needsAdvance s); [|eauto].
    unfold advanceRule, isList. simpl. rewrite Hr. simpl.
    unfold advanceStep. rewrite popCompleted_in_range.
    + eexists. split; [reflexivity|]. by destruct s.
    + unfold completed. simpl. by rewrite Hr.
  - eexists. split; [reflexivity|]. unfold popRule. by rewrite Hp.
Qed.

(** X10. Once the stack of rules is empty (the top rule was completed),
    nothing is accepted any more: every call of [getToken] returns, for any
    bound on the loop turns, with 'ws', 'comment' or 'invalidchar', and
    leaves the stack empty, below a sentinel frame at most. *)
Theorem getToken_on_empty_stack (fuel : nat) (st : CharacterStream) (s : State)
    (Hempty : stack_empty s) :
  exists sty st' s',
    token_step fuel st s = Ok (sty, st', s') /\
    plain_style sty /\ stack_empty s'.
Proof.
  destruct (resumeState_empty s Hempty) as (s1 & Hres & Hr1).
  assert (Hr2 : rule (rememberIndent options st s1) = None).
  { unfold rememberIndent. destruct (sol st); [|done]. by destruct s1. }
  assert (Hsent : forall k, k = "Invalid" \/ k = "Comment" ->
    exists s3, pushRule SpecialParseRules (rememberIndent options st s1) k = Ok s3 /\
      stack_empty s3).
  { intros k Hk. destruct (sentinel_resumes (rememberIndent options st s1) k Hk)
      as (s3 & Hpush & _ & Hr & Hp & _).
    exists s3. split; [done|]. right. split; [done|]. eauto. }
  unfold getToken. rewrite Hres. simpl.
  destruct (eatWhitespace options st) as [[|] st1].
  { eexists _, _, _. split; [reflexivity|]. split; [by left|by left]. }
  destruct (lex (lexRules options) st1) as [[token|] st2].
  - destruct (String.eqb (tkind token) "Comment").
    + destruct (Hsent "Comment") as (s3 & -> & He); [by right|]. simpl.
      eexists _, _, _. split; [reflexivity|]. split; [by right; right|done].
    + rewrite grammarLoop_exit by (by rewrite rule_handleLevels). simpl.
      destruct (Hsent "Invalid") as (s3 & -> & He); [by left|]. simpl.
      eexists _, _, _. split; [reflexivity|]. split; [by right; left|done].
  - destruct (Hsent "Invalid") as (s3 & -> & He); [by left|]. simpl.
    eexists _, _, _. split; [reflexivity|]. split; [by right; left|done].
Qed.

End TokenStep.

Lemma getToken_comment_leaves_grammar_witness :
  exists s3,
    getToken Examples.noUpdate Examples.bracesOptions 0 (mkStream "#" 0)
      Examples.bracesStart = Ok ("comment", mkStream "#" 1, s3) /\
    resumeState s3 = Ok Examples.bracesStart.
Proof.
  destruct (getToken_comment_leaves_grammar Examples.noUpdate Examples.bracesOptions 0
              (mkStream "#" 0) (mkStream "#" 0) (mkStream "#" 1)
              Examples.bracesStart Examples.bracesStart (mkToken "Comment" "#")
              eq_refl eq_refl eq_refl eq_refl)
    as (s3 & Hget & _ & _ & _ & _ & Hres & _).
  exists s3. split; [exact Hget|exact Hres].
Defined.

Lemma getToken_skips_unlexable_run_witness :
  exists s3,
    getToken Examples.noUpdate Examples.bracesOptions 0 (mkStream "%&! x" 0)
      Examples.bracesStart = Ok ("invalidchar", mkStream "%&! x" 3, s3) /\
    resumeState s3 = Ok Examples.bracesStart.
Proof.
  destruct (getToken_skips_unlexable_run Examples.noUpdate Examples.bracesOptions 0
              (mkStream "%&! x" 0) (mkStream "%&! x" 0) (mkStream "%&! x" 0)
              Examples.bracesStart Examples.bracesStart
              eq_refl eq_refl eq_refl)
    as (st3 & s3 & Hget & -> & _ & _ & _ & Hres).
  exists s3. split; [exact Hget|exact Hres].
Defined.

Lemma getToken_moves_forward_witness :
  exists s',
    getToken Examples.noUpdate Examples.bracesOptions 5 (mkStream "  {name}" 2)
      Examples.bracesStart = Ok ("punctuation", mkStream "  {name}" 3, s') /\
    2 <= 3 <= 8.
Proof.
  eexists. split; [vm_compute; reflexivity|].
  destruct (getToken_moves_forward Examples.noUpdate Examples.bracesOptions 5
              (mkStream "  {name}" 2) (mkStream "  {name}" 3) Examples.bracesStart
              _ "punctuation" eq_refl) as (_ & Hlow & Hhigh).
  split; [exact Hlow|exact Hhigh].
Defined.

Lemma getToken_on_empty_stack_witness :
  exists sty st' s',
    getToken Examples.noUpdate Examples.bracesOptions 0 (mkStream "}" 0) newState
      = Ok (sty, st', s') /\
    plain_style sty /\ stack_empty s'.
Proof.
  apply (getToken_on_empty_stack Examples.noUpdate Examples.bracesOptions 0
           (mkStream "}" 0) newState).
  by left.
Defined.

(** ** Indentation and bracket levels *)

Lemma opens_not_closes (value : string) :
  closes_bracket value = true -> opens_bracket value = false.
Proof.
  destruct value as [|c value]; [done|]. simpl. intros H.
  apply bool_decide_eq_true in H. apply bool_decide_eq_false. intros Ho.
  set_unfold. destruct H as [->|[->|[->|[]]]]; destruct Ho as [?|[?|[?|[]]]]; discriminate.
Qed.

Lemma removelast_snoc (l : list nat) (x : nat) : removelast (l ++ [x]) = l.
Proof. rewrite removelast_app by done. simpl. by rewrite app_nil_r. Qed.



(** X12. At the start of a line [getToken] sets the indent level to the
    number of whole tab stops in the indentation of the line, for a tab size
    that is never 0: a missing tab size, or one of 0, counts as 2. Elsewhere
    on the line the indent level is left as it is. No other field is
    touched. *)
Theorem rememberIndent_counts_tab_stops (options : ParserOptions)
    (st : CharacterStream) (s : State) :
  0 < tabSizeOf options /\
  (editorConfig options ≫= tabSize = None \/ editorConfig options ≫= tabSize = Some 0 ->
   tabSizeOf options = 2) /\
  (forall n, editorConfig options ≫= tabSize = Some (S n) -> tabSizeOf options = S n) /\
  (sol st = true ->
   indentLevel (rememberIndent options st s) * tabSizeOf options <= indentation st /\
   indentation st < (indentLevel (rememberIndent options st s) + 1) * tabSizeOf options) /\
  (sol st = false -> rememberIndent options st s = s) /\
  set_indentLevel (indentLevel s) (rememberIndent options st s) = s.
Proof.
  assert (Hpos : 0 < tabSizeOf options).
  { unfold tabSizeOf. destruct (editorConfig options ≫= tabSize) as [[|n]|]; lia. }
  split; [exact Hpos|]. split.
  { unfold tabSizeOf. by intros [-> | ->]. }
  split.
  { unfold tabSizeOf. by intros n ->. }
  unfold rememberIndent. split; [|split].
  - intros ->. destruct s; simpl.
    pose proof (Nat.div_mod_eq (indentation st) (tabSizeOf options)).
    pose proof (Nat.mod_upper_bound (indentation st) (tabSizeOf options)).
    nia.
  - by intros ->.
  - destruct (sol st); by destruct s.
Qed.

Lemma handleLevels_reads_levels (token : Token) (s t : State) :
  indentLevel s = indentLevel t -> levels s = levels t ->
  indentLevel (handleLevels token s) = indentLevel (handleLevels token t) /\
  levels (handleLevels token s) = levels (handleLevels token t).
Proof.
  intros Hi Hl. unfold handleLevels.
  destruct (String.eqb _ _); [|done].
  destruct (opens_bracket _); [simpl; by rewrite Hi, Hl|].
  destruct (closes_bracket _); [|done].
  simpl. rewrite Hi, Hl.
  destruct (bool_decide (indentLevel t = 0)); [done|].
  destruct (last _); [|done].
  by destruct (bool_decide _).
Qed.

Section Levels.

Variable run_update : UpdateRef -> State -> Token -> State.
Variable options : ParserOptions.

Local Abbreviation G := (parseRules options).
Local Abbreviation loop := (grammarLoop run_update options).
Local Abbreviation token_step := (getToken run_update options).
Local Abbreviation accept := (acceptTerminal run_update).

Lemma resumeState_fields (s s1 : State) :
  resumeState s = Ok s1 ->
  indentLevel s1 = indentLevel s /\ levels s1 = levels s.
Proof.
  unfold resumeState. destruct (from_option _ false (rule s)).
  { intros [= <-]. by destruct (same_line_fields_popRule s) as (_ & ? & ?). }
  destruct (needsAdvance s); [|by intros [= <-]].
  intros H.
  destruct (unwound_advanceRule _ _ _ _ H (unwound_refl _)) as [Hu _].
  destruct (unwound_same_line_fields _ _ Hu) as (_ & Hi & Hl).
  rewrite Hi, Hl. by destruct s.
Qed.

Lemma rememberIndent_reads_nothing (st : CharacterStream) (s t : State) :
  indentLevel s = indentLevel t -> levels s = levels t ->
  indentLevel (rememberIndent options st s) = indentLevel (rememberIndent options st t) /\
  levels (rememberIndent options st s) = levels (rememberIndent options st t).
Proof.
  intros Hi Hl. unfold rememberIndent. destruct (sol st); [|done].
  split; [by destruct s, t|]. by destruct s, t.
Qed.

Hypothesis Hhooks : hooks_keep_levels run_update.

Lemma acceptTerminal_fields (token : Token) (u : option UpdateRef) (s s' : State) :
  accept token u s = Ok s' ->
  indentLevel s' = indentLevel s /\ levels s' = levels s.
Proof.
  unfold acceptTerminal.
  set (s1 := match u with Some h => run_update h s token | None => s end).
  assert (H1 : indentLevel s1 = indentLevel s /\ levels s1 = levels s).
  { subst s1. destruct u as [h|]; [apply Hhooks|done]. }
  destruct H1 as [Hi Hl]. rewrite <- Hi, <- Hl.
  destruct (String.eqb _ _).
  - intros H. destruct (unwound_advanceRule _ _ _ _ H (unwound_refl _)) as [Hu _].
    by destruct (unwound_same_line_fields _ _ Hu) as (_ & ? & ?).
  - intros [= <-]. by destruct s1.
Qed.

Lemma grammarLoop_fields (fuel : nat) (token : Token) (st : CharacterStream)
    (s s' : State) (r : option string) :
  loop fuel token st s = Ok (r, s') ->
  indentLevel s' = indentLevel s /\ levels s' = levels s.
Proof.
  revert s. induction fuel as [|fuel IH]; intros s.
  - simpl. destruct (rule s); [discriminate|]. by intros [= _ <-].
  - destruct (rule s) as [r0|] eqn:Hr;
      [|rewrite grammarLoop_exit by done; by intros [= _ <-]].
    rewrite grammarLoop_turn by eauto.
    destruct (decide_action token st s) as [n|u sty|].
    + unfold pushRule. destruct (G !! n) as [r1|]; simpl; [|discriminate].
      intros H. by destruct (IH _ H).
    + destruct (accept token u s) as [s1| | |] eqn:Ha; simpl; try discriminate.
      intros [= _ <-]. by eapply acceptTerminal_fields.
    + destruct (unsuccessful s) as [s1| | |] eqn:Hu; simpl; try discriminate.
      intros H. destruct (IH _ H) as [Hi Hl].
      destruct (unwound_unsuccessful _ _ _ Hu (unwound_refl _)) as [Hw _].
      destruct (unwound_same_line_fields _ _ Hw) as (_ & Hi' & Hl').
      by rewrite Hi, Hl.
Qed.

(** X13. With hooks that leave the indentation fields alone, a call of
    [getToken] changes the stack of bracket levels only when the grammar
    accepts the token: then [levels] and [indentLevel] are those of the
    bracket handling applied to the state the call was entered with (after
    the indentation step). In every other case, and so for a bracket that
    the grammar rejects, [levels] is what it was and [indentLevel] is that
    of the indentation step. *)
Theorem getToken_levels_follow_accepted_brackets (fuel : nat)
    (st st' : CharacterStream) (s s' : State) (sty : string)
    (Hret : token_step fuel st s = Ok (sty, st', s')) :
  (indentLevel s' = indentLevel (rememberIndent options st s) /\
   levels s' = levels s) \/
  (exists token s0,
     loop fuel token st' s0 = Ok (Some sty, s') /\
     indentLevel s' = indentLevel (handleLevels token (rememberIndent options st s)) /\
     levels s' = levels (handleLevels token (rememberIndent options st s))).
Proof.
  unfold getToken in Hret.
  destruct (resumeState s) as [s1| | |] eqn:Hres; simpl in Hret; try discriminate.
  destruct (resumeState_fields _ _ Hres) as [Hi1 Hl1].
  destruct (rememberIndent_reads_nothing st s1 s Hi1 Hl1) as [Hi2 Hl2].
  assert (Hl3 : levels (rememberIndent options st s) = levels s).
  { unfold rememberIndent. destruct (sol st); [by destruct s|done]. }
  assert (Hsent : forall k s3,
    pushRule SpecialParseRules (rememberIndent options st s1) k = Ok s3 ->
    indentLevel s3 = indentLevel (rememberIndent options st s) /\ levels s3 = levels s).
  { intros k s3. unfold pushRule. destruct (SpecialParseRules !! k); [|discriminate].
    intros [= <-]. simpl. by rewrite Hi2, Hl2, Hl3. }
  destruct (eatWhitespace options st) as [[|] st1].
  { injection Hret as _ _ <-. left. by rewrite Hi2, Hl2, Hl3. }
  destruct (lex (lexRules options) st1) as [[token|] st2].
  - destruct (String.eqb (tkind token) "Comment").
    + destruct (pushRule SpecialParseRules _ "Comment") as [s3| | |] eqn:Hp;
        simpl in Hret; try discriminate.
      injection Hret as _ _ <-. left. by eapply Hsent.
    + destruct (loop fuel token st2 _) as [[[style|] s4]| | |] eqn:Hloop;
        simpl in Hret; try discriminate.
      * injection Hret as <- <- <-. right. eexists _, _. split; [exact Hloop|].
        destruct (grammarLoop_fields _ _ _ _ _ _ Hloop) as [Hi Hl].
        rewrite Hi, Hl. by apply handleLevels_reads_levels.
      * destruct (pushRule SpecialParseRules _ "Invalid") as [s3| | |] eqn:Hp;
          simpl in Hret; try discriminate.
        injection Hret as _ _ <-. left. by eapply Hsent.
  - destruct (pushRule SpecialParseRules _ "Invalid") as [s3| | |] eqn:Hp;
      simpl in Hret; try discriminate.
    injection Hret as _ _ <-. left. by eapply Hsent.
Qed.

End Levels.

Lemma noUpdate_keeps_levels : hooks_keep_levels Examples.noUpdate.
Proof. by intros h s token. Qed.

Lemma getToken_levels_follow_accepted_brackets_witness :
  (indentLevel MoreExamples.rejectedBrace
   = indentLevel (rememberIndent Examples.bracesOptions (mkStream "}" 0)
                    Examples.bracesStart) /\
   levels MoreExamples.rejectedBrace = levels Examples.bracesStart) \/
  (exists token s0,
     grammarLoop Examples.noUpdate Examples.bracesOptions 5 token (mkStream "}" 1) s0
       = Ok (Some "invalidchar", MoreExamples.rejectedBrace) /\
     indentLevel MoreExamples.rejectedBrace
     = indentLevel (handleLevels token
         (rememberIndent Examples.bracesOptions (mkStream "}" 0) Examples.bracesStart)) /\
     levels MoreExamples.rejectedBrace
     = levels (handleLevels token
         (rememberIndent Examples.bracesOptions (mkStream "}" 0) Examples.bracesStart))).
Proof.
  exact (getToken_levels_follow_accepted_brackets Examples.noUpdate
           Examples.bracesOptions noUpdate_keeps_levels 5 (mkStream "}" 0)
           (mkStream "}" 1) Examples.bracesStart MoreExamples.rejectedBrace
           "invalidchar" eq_refl).
Defined.

(** ** The styles [getToken] returns *)

Section Styles.

Variable run_update : UpdateRef -> State -> Token -> State.
Variable options : ParserOptions.
Variable P : string -> Prop.

Local Abbreviation G := (parseRules options).
Local Abbreviation Q := (rule_styled P).
Local Abbreviation loop := (grammarLoop run_update options).
Local Abbreviation token_step := (getToken run_update options).
Local Abbreviation accept := (acceptTerminal run_update).

Hypothesis Htable : table_styled P G.
Hypothesis Hhooks : hooks_keep_styles run_update P.

Lemma current_styled (token : Token) (st : CharacterStream) (s : State) (e : Rule) :
  all_rules Q s -> current token st s = Some e -> elem_styled P e.
Proof.
  intros Hs. apply all_rules_unfold in Hs as [Hr _]. unfold current.
  destruct (rule s) as [[elems|arity select]|]; simpl in Hr; [| |done].
  - intros He. rewrite Forall_forall in Hr. apply Hr.
    by eapply list_elem_of_lookup_2.
  - destruct (bool_decide _); [|done]. apply Hr.
Qed.

Lemma decide_action_style (token : Token) (st : CharacterStream) (s : State)
    (u : option UpdateRef) (sty : string) :
  all_rules Q s -> decide_action token st s = AMatch u sty -> P sty.
Proof.
  intros Hs. unfold decide_action. rewrite expectedOf_current.
  destruct (current token st s) as [e|] eqn:He;
    [|by destruct (needsSeperator s)].
  destruct (current_styled token st s e Hs He) as [Hown Hsep].
  assert (Hstyle : forall x, from_option P True (terminal_style x) ->
    match (if truthy x
           then match unwrap x with
                | RName n => APush n
                | RObj _ _ _ matcher update style =>
                    if from_option (fun m => m token) false matcher
                    then AMatch update style else AFail
                end
           else AFail) with
    | AMatch u' sty' => P sty'
    | _ => True
    end).
  { intros x Hx. unfold terminal_style in Hx. destruct (truthy x); [|done].
    destruct (unwrap x) as [n|o l sp [m|] u' sty']; simpl; try done.
    by destruct (m token). }
  destruct (needsSeperator s).
  - simpl. destruct (truthy e).
    + destruct (get_separator e) as [sep|]; simpl; [|done].
      simpl in Hsep. specialize (Hstyle sep Hsep).
      intros Ha. rewrite Ha in Hstyle. exact Hstyle.
    + simpl. intros Ha. specialize (Hstyle e Hown). by rewrite Ha in Hstyle.
  - intros Ha. specialize (Hstyle e Hown). by rewrite Ha in Hstyle.
Qed.

Lemma grammarLoop_styled (fuel : nat) (token : Token) (st : CharacterStream)
    (s s' : State) (sty : string) :
  all_rules Q s -> loop fuel token st s = Ok (Some sty, s') ->
  P sty /\ all_rules Q s'.
Proof.
  revert s. induction fuel as [|fuel IH]; intros s Hs.
  - simpl. by destruct (rule s).
  - destruct (rule s) as [r0|] eqn:Hr; [|by rewrite grammarLoop_exit].
    rewrite grammarLoop_turn by eauto.
    destruct (decide_action token st s) as [n|u sty0|] eqn:Ha.
    + destruct (G !! n) as [r1|] eqn:Hn;
        [|unfold pushRule; rewrite Hn; discriminate].
      rewrite (pushRule_known _ _ _ _ Hn). simpl. apply IH.
      apply all_rules_unfold. simpl. split; [by eapply Htable|done].
    + destruct (accept token u s) as [s1| | |] eqn:Hacc; simpl; try discriminate.
      intros [= <- <-]. split; [by eapply decide_action_style|].
      unfold acceptTerminal in Hacc.
      assert (H1 : all_rules Q (match u with
                                | Some h => run_update h s token
                                | None => s
                                end)).
      { destruct u; [by apply Hhooks|done]. }
      destruct (String.eqb _ _).
      * by eapply all_rules_advanceRule.
      * injection Hacc as <-. by apply all_rules_set_needsAdvance.
    + destruct (unsuccessful s) as [s1| | |] eqn:Hu; simpl; try discriminate.
      apply IH. by eapply all_rules_unsuccessful.
Qed.

(** X14. When every Terminal of the parse table and of the frames has a
    style with the property [P], and the hooks keep it so, the style
    [getToken] returns is 'ws', 'invalidchar', 'comment' or a style with the
    property [P], and the frames of the state it hands out are as
    required again. *)
Theorem getToken_style_from_grammar (fuel : nat) (st st' : CharacterStream)
    (s s' : State) (sty : string)
    (Hframes : all_rules Q s)
    (Hret : token_step fuel st s = Ok (sty, st', s')) :
  (plain_style sty \/ P sty) /\ all_rules Q s'.
Proof.
  unfold getToken in Hret.
  destruct (resumeState s) as [s1| | |] eqn:Hres; simpl in Hret; try discriminate.
  assert (Hs1 : all_rules Q s1).
  { unfold resumeState in Hres. destruct (from_option _ false (rule s)).
    - injection Hres as <-. by apply all_rules_popRule.
    - destruct (needsAdvance s); [|by injection Hres as <-].
      eapply all_rules_advanceRule; [exact Hres|].
      by apply all_rules_set_needsAdvance. }
  assert (Hs2 : all_rules Q (rememberIndent options st s1)).
  { unfold rememberIndent. destruct (sol st); [by apply all_rules_set_indentLevel|done]. }
  assert (Hsent : forall k s3,
    pushRule SpecialParseRules (rememberIndent options st s1) k = Ok s3 ->
    all_rules Q s3).
  { intros k s3. unfold pushRule. destruct (SpecialParseRules !! k) as [r|] eqn:Hk;
      [|discriminate].
    intros [= <-]. apply all_rules_unfold. simpl. split; [|done].
    unfold SpecialParseRules in Hk.
    apply lookup_insert_Some in Hk as [[_ <-]|[_ Hk]]; [by constructor|].
    apply lookup_insert_Some in Hk as [[_ <-]|[_ Hk]]; [by constructor|].
    by rewrite lookup_empty in Hk. }
  destruct (eatWhitespace options st) as [[|] st1].
  { injection Hret as <- _ <-. split; [left; by left|done]. }
  destruct (lex (lexRules options) st1) as [[token|] st2].
  - destruct (String.eqb (tkind token) "Comment").
    + destruct (pushRule SpecialParseRules _ "Comment") as [s3| | |] eqn:Hp;
        simpl in Hret; try discriminate.
      injection Hret as <- _ <-. split; [left; by right; right|by eapply Hsent].
    + destruct (loop fuel token st2 _) as [[[style|] s4]| | |] eqn:Hloop;
        simpl in Hret; try discriminate.
      * injection Hret as <- _ <-.
        destruct (grammarLoop_styled _ _ _ _ _ _
                    (all_rules_handleLevels _ token _ Hs2) Hloop) as [Hsty Hs4].
        split; [by right|done].
      * destruct (pushRule SpecialParseRules _ "Invalid") as [s3| | |] eqn:Hp;
          simpl in Hret; try discriminate.
        injection Hret as <- _ <-. split; [left; by right; left|by eapply Hsent].
  - destruct (pushRule SpecialParseRules _ "Invalid") as [s3| | |] eqn:Hp;
      simpl in Hret; try discriminate.
    injection Hret as <- _ <-. split; [left; by right; left|by eapply Hsent].
Qed.

End Styles.

Lemma braces_styled : table_styled MoreExamples.bracesStyle Examples.braces.
Proof.
  intros n r H. destruct (braces_lookup n r H) as [-> | ->]; simpl.
  - repeat constructor; simpl; by left.
  - repeat constructor; simpl; by right.
Qed.

Lemma noUpdate_keeps_styles (P : string -> Prop) :
  hooks_keep_styles Examples.noUpdate P.
Proof. by intros h s token. Qed.

Lemma bracesStart_styled :
  all_rules (rule_styled MoreExamples.bracesStyle) Examples.bracesStart.
Proof.
  split; [|by split]. apply (braces_styled "Document"). reflexivity.
Qed.

Lemma getToken_style_from_grammar_witness :
  exists s',
    getToken Examples.noUpdate Examples.bracesOptions 5 (mkStream "{name}" 0)
      Examples.bracesStart = Ok ("punctuation", mkStream "{name}" 1, s') /\
    (plain_style "punctuation" \/ MoreExamples.bracesStyle "punctuation").
Proof.
  eexists. split; [vm_compute; reflexivity|].
  exact (proj1 (getToken_style_from_grammar Examples.noUpdate Examples.bracesOptions
           MoreExamples.bracesStyle braces_styled (noUpdate_keeps_styles _)
           5 (mkStream "{name}" 0) (mkStream "{name}" 1) Examples.bracesStart _
           "punctuation" bracesStart_styled eq_refl)).
Defined.

(** ** Optional and List elements that take nothing *)

Section Skip.

Variable run_update : UpdateRef -> State -> Token -> State.
Variable options : ParserOptions.

Local Abbreviation loop := (grammarLoop run_update options).

(** X15. When the grammar loop stands at an Optional or List element, the
    element expected there (the element itself, or its separator when one is
    pending) is a Terminal that rejects the token, and no optional separator
    is pending, the loop moves past the element without consuming anything:
    it goes on as after [advanceRule]'s step increment, and when the element
    is not the last of its rule, with the next element of the same
    frame. *)
Theorem grammarLoop_moves_past_rejected_optional (fuel : nat) (token : Token)
    (st : CharacterStream) (s : State)
    (Hat : at_ofRule s = Ok true)
    (Hrej : forall e, expectedOf token st s = Some e -> truthy e = true ->
       exists o l sp m u sty, unwrap e = RObj o l sp m u sty /\
         from_option (fun f => f token) false m = false)
    (Hpending : at_list s && optional_separator_pending s = false) :
  loop (S fuel) token st s = (s1 ← advanceStep s; loop fuel token st s1) /\
  (forall elems, rule s = Some (Seq elems) -> S (step s) < length elems ->
     loop (S fuel) token st s = loop fuel token st (advanced s)).
Proof.
  assert (Hrule : is_Some (rule s)).
  { unfold at_ofRule in Hat. destruct (rule s); [eauto|discriminate]. }
  assert (Hun : unsuccessful s = advanceStep s).
  { unfold unsuccessful. destruct Hrule as [r Hr].
    assert (Hw : unwind (S (depth s)) s = Ok s) by (simpl; by rewrite Hr, Hat).
    rewrite Hw. simpl. rewrite Hr.
    assert (exists b, isList s = Ok b) as [b Hb].
    { unfold at_ofRule in Hat. unfold isList. rewrite Hr in *.
      destruct r as [elems|]; [|discriminate].
      destruct (elems !! step s) as [[n|o l sp m u sty]|]; try discriminate; eauto. }
    rewrite (advanceRule_cases s false b Hb).
    unfold at_list in Hpending. rewrite Hb in Hpending.
    destruct b; simpl in *; [by rewrite Hpending|done]. }
  assert (Hturn : loop (S fuel) token st s = (s1 ← advanceStep s; loop fuel token st s1)).
  { rewrite (grammarLoop_turn_fail run_update options fuel token st s Hrule Hrej).
    by rewrite Hun. }
  split; [exact Hturn|].
  intros elems Hr Hlt. rewrite Hturn. unfold advanceStep.
  rewrite popCompleted_in_range; [done|].
  unfold completed. simpl. rewrite Hr. by rewrite bool_decide_true.
Qed.

End Skip.

Lemma grammarLoop_moves_past_rejected_optional_witness :
  grammarLoop Examples.noUpdate Examples.bracesOptions 2
    (mkToken "Punctuation" "}") (mkStream "}" 1) MoreExamples.pairOpen
  = grammarLoop Examples.noUpdate Examples.bracesOptions 1
      (mkToken "Punctuation" "}") (mkStream "}" 1) (advanced MoreExamples.pairOpen).
Proof.
  refine (proj2 (grammarLoop_moves_past_rejected_optional Examples.noUpdate
            Examples.bracesOptions 1 (mkToken "Punctuation" "}") (mkStream "}" 1)
            MoreExamples.pairOpen eq_refl _ eq_refl) _ eq_refl _).
  - intros e [= <-] _. by eexists _, _, _, _, _, _.
  - simpl. lia.
Defined.

(** ** The end of the document *)

Lemma at_last_unfold (s : State) :
  at_last s <->
  match rule s with
  | None => True
  | Some r =>
      match r with
      | Seq elems => S (step s) = length elems
      | Fork _ _ => True
      end /\
      isList s = Ok false /\ from_option at_last False (prevState s)
  end.
Proof. by destruct s as [k n t [r|] i b [p|] na il lv]. Qed.

Lemma same_frame_at_last (s t : State) : same_frame s t -> at_last s <-> at_last t.
Proof.
  intros (Hr & Hs & _ & Hp). rewrite !at_last_unfold. unfold isList.
  by rewrite Hr, Hs, Hp.
Qed.

Lemma popCompleted_closes (fuel : nat) (s : State) :
  at_last s -> depth s < fuel ->
  exists s', popCompleted fuel (advanced s) = Ok s' /\ rule s' = None.
Proof.
  revert s. induction fuel as [|fuel IH]; intros s Hl Hd; [lia|].
  destruct (rule s) as [r|] eqn:Hr.
  - apply at_last_unfold in Hl. rewrite Hr in Hl. destruct Hl as (Hstep & _ & Hprev).
    destruct (prevState s) as [p|] eqn:Hp; [simpl in Hprev|done].
    assert (Hc : completed (advanced s) = true).
    { unfold completed, advanced. simpl. rewrite Hr. destruct r as [elems|]; [|done].
      rewrite bool_decide_false by lia. done. }
    assert (Hpa : prevState (advanced s) = Some p) by done.
    pose proof (same_frame_popRule _ _ Hpa) as Hsame.
    set (p' := popRule (advanced s)) in *.
    assert (Hl' : at_last p') by (by apply (same_frame_at_last _ _ Hsame)).
    assert (Hd' : depth p' < fuel).
    { rewrite (same_frame_depth _ _ Hsame).
      destruct (depth_popRule s p Hp) as [_ Hds]. lia. }
    simpl popCompleted. rewrite Hc. fold p'.
    destruct (rule p') as [r'|] eqn:Hr'.
    + pose proof Hl' as Hl2. apply at_last_unfold in Hl2. rewrite Hr' in Hl2.
      destruct Hl2 as (_ & Hlist & _).
      unfold resume_parent. rewrite Hr', Hlist. simpl.
      by apply IH.
    + unfold resume_parent. rewrite Hr'. simpl.
      exists p'. split; [|done]. apply popCompleted_in_range.
      unfold completed. by rewrite Hr'.
  - exists (advanced s). split; [|done]. apply popCompleted_in_range.
    unfold completed, advanced. simpl. by rewrite Hr.
Qed.

(** X16. When every open rule is at its last element and none of these
    elements is a List, one call of [advanceRule] (after the token for that
    element was accepted, or on the way past a rejected Optional) completes
    them all: it returns, and the stack of rules is empty. *)
Theorem advanceRule_completes_document (s : State) (successful : bool)
    (Hlast : at_last s) :
  exists s', advanceRule s successful = Ok s' /\ rule s' = None /\ stack_empty s'.
Proof.
  assert (Hlist : isList s = Ok false).
  { apply at_last_unfold in Hlast. unfold isList in *.
    destruct (rule s); [by destruct Hlast as (_ & ? & _)|done]. }
  rewrite (advanceRule_cases s successful false Hlist). simpl.
  destruct (popCompleted_closes (S (depth s)) s Hlast ltac:(lia)) as (s' & Hs' & Hr).
  exists s'. split; [exact Hs'|]. split; [exact Hr|by left].
Qed.

Lemma advanceRule_completes_document_witness :
  exists s', advanceRule (set_step 2 Examples.bracesStart) true = Ok s' /\
    rule s' = None /\ stack_empty s'.
Proof.
  apply (advanceRule_completes_document (set_step 2 Examples.bracesStart) true).
  simpl. by repeat split.
Defined.

(** ** The deferred advance *)

Section Deferred.

Variable run_update : UpdateRef -> State -> Token -> State.
Variable options : ParserOptions.

Local Abbreviation G := (parseRules options).
Local Abbreviation loop := (grammarLoop run_update options).
Local Abbreviation token_step := (getToken run_update options).
Local Abbreviation accept := (acceptTerminal run_update).

Hypothesis Hhooks : hooks_keep_needsAdvance run_update.

Lemma needsAdvance_advanceRule (s s' : State) (successful : bool) :
  advanceRule s successful = Ok s' -> needsAdvance s' = needsAdvance s.
Proof.
  intros H. destruct (unwound_advanceRule _ _ _ _ H (unwound_refl _)) as [Hu _].
  by destruct (unwound_same_line_fields _ _ Hu) as (? & _ & _).
Qed.

Lemma needsAdvance_unsuccessful (s s' : State) :
  unsuccessful s = Ok s' -> needsAdvance s' = needsAdvance s.
Proof.
  intros H. destruct (unwound_unsuccessful _ _ _ H (unwound_refl _)) as [Hu _].
  by destruct (unwound_same_line_fields _ _ Hu) as (? & _ & _).
Qed.

Lemma needsAdvance_handleLevels (token : Token) (s : State) :
  needsAdvance (handleLevels token s) = needsAdvance s.
Proof.
  unfold handleLevels.
  destruct (String.eqb _ _); [|done].
  destruct (opens_bracket _); [done|].
  destruct (closes_bracket _); [|done].
  destruct (bool_decide _); [done|].
  destruct (last _); [|done].
  by destruct (bool_decide _).
Qed.

Lemma grammarLoop_needsAdvance (fuel : nat) (token : Token) (st : CharacterStream)
    (s s' : State) (sty : string) :
  needsAdvance s = false ->
  loop fuel token st s = Ok (Some sty, s') ->
  needsAdvance s' = negb (String.eqb (tkind token) "Punctuation").
Proof.
  revert s. induction fuel as [|fuel IH]; intros s Hs.
  - simpl. by destruct (rule s).
  - destruct (rule s) as [r0|] eqn:Hr; [|by rewrite grammarLoop_exit].
    rewrite grammarLoop_turn by eauto.
    destruct (decide_action token st s) as [n|u sty0|].
    + unfold pushRule. destruct (G !! n) as [r1|]; simpl; [|discriminate].
      by apply IH.
    + destruct (accept token u s) as [s1| | |] eqn:Ha; simpl; try discriminate.
      intros [= _ <-]. unfold acceptTerminal in Ha.
      assert (H1 : needsAdvance (match u with
                                 | Some h => run_update h s token
                                 | None => s
                                 end) = false).
      { destruct u; [by rewrite Hhooks|done]. }
      destruct (String.eqb _ _); simpl.
      * by rewrite (needsAdvance_advanceRule _ _ _ Ha).
      * injection Ha as <-. done.
    + destruct (unsuccessful s) as [s1| | |] eqn:Hu; simpl; try discriminate.
      apply IH. by rewrite (needsAdvance_unsuccessful _ _ Hu).
Qed.

(** X17. The deferred advance is requested by an accepted token that is not
    punctuation, and by nothing else: with hooks that leave the flag alone,
    a call of [getToken] on a state that is not at an empty rule returns
    with [needsAdvance] set only when the lexer gave a token other than
    'Punctuation' that a Terminal accepted; after whitespace, a comment, an
    unlexable run, a rejected token or an accepted punctuation token the
    flag is clear. *)
Theorem getToken_defers_advance_for_accepted_words (fuel : nat)
    (st st' : CharacterStream) (s s' : State) (sty : string)
    (Hentry : at_empty_rule s = false)
    (Hret : token_step fuel st s = Ok (sty, st', s')) :
  needsAdvance s' = false \/
  (needsAdvance s' = true /\
   exists token s0,
     lex (lexRules options) (eatWhitespace options st).2 = (Some token, st') /\
     tkind token <> "Punctuation" /\ tkind token <> "Comment" /\
     loop fuel token st' s0 = Ok (Some sty, s')).
Proof.
  unfold getToken in Hret.
  destruct (resumeState s) as [s1| | |] eqn:Hres; simpl in Hret; try discriminate.
  assert (H1 : needsAdvance s1 = false).
  { unfold resumeState in Hres. unfold at_empty_rule in Hentry. rewrite Hentry in Hres.
    destruct (needsAdvance s) eqn:Hna; [|by injection Hres as <-].
    rewrite (needsAdvance_advanceRule _ _ _ Hres). by destruct s. }
  assert (H2 : needsAdvance (rememberIndent options st s1) = false).
  { unfold rememberIndent. destruct (sol st); [by destruct s1|done]. }
  assert (Hsent : forall k s3,
    pushRule SpecialParseRules (rememberIndent options st s1) k = Ok s3 ->
    needsAdvance s3 = false).
  { intros k s3. unfold pushRule. destruct (SpecialParseRules !! k); [|discriminate].
    by intros [= <-]. }
  destruct (eatWhitespace options st) as [[|] st1]; simpl.
  { injection Hret as _ _ <-. by left. }
  destruct (lex (lexRules options) st1) as [[token|] st2] eqn:Hlex.
  - destruct (String.eqb (tkind token) "Comment") eqn:Hcomment.
    + destruct (pushRule SpecialParseRules _ "Comment") as [s3| | |] eqn:Hp;
        simpl in Hret; try discriminate.
      injection Hret as _ _ <-. left. by eapply Hsent.
    + destruct (loop fuel token st2 _) as [[[style|] s4]| | |] eqn:Hloop;
        simpl in Hret; try discriminate.
      * injection Hret as <- <- <-.
        pose proof (grammarLoop_needsAdvance _ _ _ _ _ _
          (eq_trans (needsAdvance_handleLevels token _) H2) Hloop) as Hna.
        destruct (String.eqb (tkind token) "Punctuation") eqn:Hpunct; simpl in Hna.
        { by left. }
        right. split; [done|]. eexists token, _.
        split; [done|]. split; [by apply String.eqb_neq|].
        split; [by apply String.eqb_neq|exact Hloop].
      * destruct (pushRule SpecialParseRules _ "Invalid") as [s3| | |] eqn:Hp;
          simpl in Hret; try discriminate.
        injection Hret as _ _ <-. left. by eapply Hsent.
  - destruct (pushRule SpecialParseRules _ "Invalid") as [s3| | |] eqn:Hp;
      simpl in Hret; try discriminate.
    injection Hret as _ _ <-. left. by eapply Hsent.
Qed.

End Deferred.

Lemma noUpdate_keeps_needsAdvance : hooks_keep_needsAdvance Examples.noUpdate.
Proof. by intros h s token. Qed.

Lemma getToken_defers_advance_for_accepted_words_witness :
  exists st' s',
    getToken Examples.noUpdate Examples.bracesOptions 5 (mkStream "{name}" 1)
      (set_needsSeperator false (set_step 1 Examples.bracesStart))
    = Ok ("property", st', s') /\
    (needsAdvance s' = false \/
     (needsAdvance s' = true /\
      exists token s0,
        lex (lexRules Examples.bracesOptions)
            (eatWhitespace Examples.bracesOptions (mkStream "{name}" 1)).2
        = (Some token, st') /\
        tkind token <> "Punctuation" /\ tkind token <> "Comment" /\
        grammarLoop Examples.noUpdate Examples.bracesOptions 5 token st' s0
        = Ok (Some "property", s'))).
Proof.
  eexists _, _. split; [vm_compute; reflexivity|].
  exact (getToken_defers_advance_for_accepted_words Examples.noUpdate
           Examples.bracesOptions noUpdate_keeps_needsAdvance 5
           (mkStream "{name}" 1) _
           (set_needsSeperator false (set_step 1 Examples.bracesStart)) _
           "property" eq_refl eq_refl).
Defined.
